(** * mafl: the configuration pipeline of [server/utils/config.ts]

    A shallow embedding of the configuration loader: schema validation,
    normalisation of the two accepted shapes of [services], tag resolution,
    the merge over the built-in defaults, and the redaction of [secrets].

    The document handled by the loader is plain data (what [yaml.parse]
    returns), so JavaScript values are modelled by a tree type.  The library
    functions the source calls ([zod], [defu], [JSON.stringify]) are embedded
    next to the code that uses them, each in its own module. *)

From Stdlib Require Import ZArith Ascii String.
From stdpp Require Import base option list strings gmap pretty.

Local Open Scope string_scope.
Local Open Scope list_scope.

(** ** JavaScript values *)

Module Js.

(** Numbers: the integers, and the values of a double that are no finite
    number or that [JSON] does not write back as they are: the negative
    zero, [NaN] and the two infinities.  A finite number with a fraction
    behaves here like an integer: the code tests the type and the
    truthiness of a number, and [JSON] writes it back as it is. *)
Inductive number :=
| Int (n : Z)
| NegZero
| NaN
| PosInfinity
| NegInfinity.

Coercion Int : Z >-> number.
Bind Scope Z_scope with number.

(** Plain data: the values a parsed YAML or JSON document is made of.  An
    object is the list of its own properties in creation order, each key
    occurring once.  [undefined] is the [None] of [option value]. *)
#[local] Unset Elimination Schemes.
Inductive value :=
| JNull
| JBool (b : bool)
| JNum (n : number)
| JStr (s : string)
| JArr (elems : list value)
| JObj (props : list (string * value)).
#[local] Set Elimination Schemes.

Section value_induction.
Variable P : value → Prop.
Hypothesis Hnull : P JNull.
Hypothesis Hbool : ∀ b, P (JBool b).
Hypothesis Hnum : ∀ n, P (JNum n).
Hypothesis Hstr : ∀ s, P (JStr s).
Hypothesis Harr : ∀ xs, Forall P xs → P (JArr xs).
Hypothesis Hobj : ∀ ps, Forall (λ kv, P kv.2) ps → P (JObj ps).

Fixpoint value_ind (v : value) : P v :=
  match v with
  | JNull => Hnull
  | JBool b => Hbool b
  | JNum n => Hnum n
  | JStr s => Hstr s
  | JArr xs =>
      Harr xs ((fix go (l : list value) : Forall P l :=
                  match l with
                  | [] => Forall_nil_2 P
                  | x :: l' => Forall_cons_2 P x l' (value_ind x) (go l')
                  end) xs)
  | JObj ps =>
      Hobj ps ((fix go (l : list (string * value)) : Forall (λ kv, P kv.2) l :=
                  match l with
                  | [] => Forall_nil_2 _
                  | kv :: l' => Forall_cons_2 _ kv l' (value_ind kv.2) (go l')
                  end) ps)
  end.
End value_induction.

(** [typeof]-like classification, with the names zod uses in its messages
    ([getParsedType]). *)
Definition parsed_type (v : option value) : string :=
  match v with
  | None => "undefined"
  | Some JNull => "null"
  | Some (JBool _) => "boolean"
  | Some (JNum NaN) => "nan"
  | Some (JNum _) => "number"
  | Some (JStr _) => "string"
  | Some (JArr _) => "array"
  | Some (JObj _) => "object"
  end.

(** ToBoolean. *)
Definition truthy (v : option value) : bool :=
  match v with
  | None | Some JNull => false
  | Some (JBool b) => b
  | Some (JNum (Int n)) => negb (n =? 0)%Z
  | Some (JNum (NegZero | NaN)) => false
  | Some (JNum _) => true
  | Some (JStr s) => negb (String.eqb s "")
  | Some (JArr _) | Some (JObj _) => true
  end.

(** [a || b] where [b] cannot fail. *)
Definition or_else (a : option value) (b : value) : value :=
  match a with
  | Some v => if truthy a then v else b
  | None => b
  end.

(** *** Property keys and their enumeration order *)

Definition is_digit (c : ascii) : bool :=
  let n := Ascii.N_of_ascii c in (48 <=? n)%N && (n <=? 57)%N.

Fixpoint digits_value (s : string) (acc : N) : option N :=
  match s with
  | "" => Some acc
  | String c r =>
      if is_digit c
      then digits_value r (10 * acc + (Ascii.N_of_ascii c - 48))%N
      else None
  end.

(** A key is an array index when it is the canonical decimal form of an
    integer below 2^32 - 1. *)
Definition array_index (k : string) : option N :=
  match k with
  | "" => None
  | String "0" "" => Some 0%N
  | String "0" _ => None
  | _ =>
      match digits_value k 0 with
      | Some n => if (n <? 4294967295)%N then Some n else None
      | None => None
      end
  end.

Definition is_index (k : string) : bool :=
  match array_index k with Some _ => true | None => false end.

Section by_index.
Context {A : Type}.

Fixpoint insert_by_index (n : N) (x : A) (l : list (N * A)) : list (N * A) :=
  match l with
  | [] => [(n, x)]
  | (m, y) :: r =>
      if (n <? m)%N then (n, x) :: (m, y) :: r
      else (m, y) :: insert_by_index n x r
  end.

Definition sort_by_index (l : list (N * A)) : list (N * A) :=
  foldr (λ p acc, insert_by_index p.1 p.2 acc) [] l.
End by_index.

(** OrdinaryOwnPropertyKeys: array-index keys in ascending numeric order,
    then the other keys in creation order.  [for ... in], [Object.entries],
    object spread, [Object.assign] and [JSON.stringify] all enumerate an
    object in this order. *)
Definition own_entries {A} (ps : list (string * A)) : list (string * A) :=
  (sort_by_index
     (omap (λ kv, match array_index kv.1 with
                  | Some n => Some (n, kv)
                  | None => None
                  end) ps)).*2
  ++ filter (λ kv, is_index kv.1 = false) ps.

(** *** Reading and writing properties *)

Fixpoint assoc_get {A} (k : string) (ps : list (string * A)) : option A :=
  match ps with
  | [] => None
  | (k', v) :: r => if decide (k = k') then Some v else assoc_get k r
  end.

(** [o[k] = v] on an ordinary object: an existing property keeps its place,
    a new one is created last. *)
Fixpoint assoc_set {A} (k : string) (v : A) (ps : list (string * A))
  : list (string * A) :=
  match ps with
  | [] => [(k, v)]
  | (k', v') :: r =>
      if decide (k = k') then (k, v) :: r else (k', v') :: assoc_set k v r
  end.

Definition char_at (s : string) (i : nat) : option value :=
  match String.get i s with
  | Some c => Some (JStr (String c ""))
  | None => None
  end.

(** [v[k]] for a [v] that is neither [null] nor [undefined]: own properties
    of objects, elements and [length] of arrays and strings. *)
Definition get (v : value) (k : string) : option value :=
  match v with
  | JObj ps => assoc_get k ps
  | JArr xs =>
      if decide (k = "length") then Some (JNum (Z.of_nat (length xs)))
      else match array_index k with
           | Some i => xs !! N.to_nat i
           | None => None
           end
  | JStr s =>
      if decide (k = "length") then Some (JNum (Z.of_nat (String.length s)))
      else match array_index k with
           | Some i => char_at s (N.to_nat i)
           | None => None
           end
  | _ => None
  end.

(** A value is well formed when no object has two properties of the same
    name. *)
Fixpoint wf (v : value) : bool :=
  match v with
  | JArr xs => forallb wf xs
  | JObj ps => bool_decide (NoDup ps.*1) && forallb (λ kv, wf kv.2) ps
  | _ => true
  end.

(** Object spread [{...v}] (CopyDataProperties): a fresh object holding the
    own enumerable properties of [v]. *)
Definition spread (v : value) : list (string * value) :=
  match v with
  | JObj ps => own_entries ps
  | JArr xs => imap (λ i x, (pretty i, x)) xs
  | JStr s => imap (λ i c, (pretty i, JStr (String c ""))) (list_ascii_of_string s)
  | _ => []
  end.

End Js.

(** ** Failure inside library code

    A computation that may throw a [TypeError]: [inl msg] is the throw. *)

Module Throw.

Definition t (A : Type) : Type := string + A.

Definition bind {A B} (m : t A) (k : A → t B) : t B :=
  match m with
  | inl e => inl e
  | inr a => k a
  end.

Fixpoint foldM {A S} (f : A → S → t S) (l : list A) (s : S) : t S :=
  match l with
  | [] => inr s
  | x :: r => bind (f x s) (foldM f r)
  end.

End Throw.

Notation "x ←! m ; k" := (Throw.bind m (λ x, k))
  (at level 20, m at level 100, k at level 200, only parsing).

(** ** zod: schemas, parsing and the error report *)

Module Zod.
Import Js.

(** A step of an issue path: a property name or an array position. *)
Inductive pathelem :=
| PKey (k : string)
| PIdx (i : nat).

Definition path := list pathelem.

#[local] Unset Elimination Schemes.
Inductive issue :=
| invalid_type (expected received : string) (p : path)
| invalid_union (unionErrors : list (list issue)) (p : path).

(** The schema combinators [config.ts] uses. *)
Inductive schema :=
| z_string
| z_number
| z_boolean
| z_any
| z_optional (inner : schema)
| z_nullable (inner : schema)
| z_array (element : schema)
| z_record (valueType : schema)
| z_object (shape : list (string * schema))
| z_union (options : list schema).
#[local] Set Elimination Schemes.

Section issue_induction.
Variable P : issue → Prop.
Hypothesis Htype : ∀ expected received p, P (invalid_type expected received p).
Hypothesis Hunion :
  ∀ unionErrors p, Forall (Forall P) unionErrors → P (invalid_union unionErrors p).

Fixpoint issue_ind (i : issue) : P i :=
  match i with
  | invalid_type expected received p => Htype expected received p
  | invalid_union unionErrors p =>
      Hunion unionErrors p
        ((fix errors (l : list (list issue)) : Forall (Forall P) l :=
            match l with
            | [] => Forall_nil_2 _
            | err :: l' =>
                Forall_cons_2 _ err l'
                  ((fix issues (l0 : list issue) : Forall P l0 :=
                      match l0 with
                      | [] => Forall_nil_2 P
                      | i0 :: l0' => Forall_cons_2 P i0 l0' (issue_ind i0) (issues l0')
                      end) err)
                  (errors l')
            end) unionErrors)
  end.
End issue_induction.

Section schema_induction.
Variable P : schema → Prop.
Hypothesis Hstring : P z_string.
Hypothesis Hnumber : P z_number.
Hypothesis Hboolean : P z_boolean.
Hypothesis Hany : P z_any.
Hypothesis Hoptional : ∀ s, P s → P (z_optional s).
Hypothesis Hnullable : ∀ s, P s → P (z_nullable s).
Hypothesis Harray : ∀ s, P s → P (z_array s).
Hypothesis Hrecord : ∀ s, P s → P (z_record s).
Hypothesis Hobject : ∀ shape, Forall (λ ks, P ks.2) shape → P (z_object shape).
Hypothesis Hunion : ∀ options, Forall P options → P (z_union options).

Fixpoint schema_ind (s : schema) : P s :=
  match s with
  | z_string => Hstring
  | z_number => Hnumber
  | z_boolean => Hboolean
  | z_any => Hany
  | z_optional i => Hoptional i (schema_ind i)
  | z_nullable i => Hnullable i (schema_ind i)
  | z_array e => Harray e (schema_ind e)
  | z_record v => Hrecord v (schema_ind v)
  | z_object shape =>
      Hobject shape
        ((fix go (l : list (string * schema)) : Forall (λ ks, P ks.2) l :=
            match l with
            | [] => Forall_nil_2 _
            | ks :: l' => Forall_cons_2 _ ks l' (schema_ind ks.2) (go l')
            end) shape)
  | z_union options =>
      Hunion options
        ((fix go (l : list schema) : Forall P l :=
            match l with
            | [] => Forall_nil_2 P
            | o :: l' => Forall_cons_2 P o l' (schema_ind o) (go l')
            end) options)
  end.
End schema_induction.

Definition z_nullish (s : schema) : schema := z_optional (z_nullable s).

(** The default error map. *)
Definition message (i : issue) : string :=
  match i with
  | invalid_type expected received _ =>
      if decide (received = "undefined") then "Required"
      else "Expected " +:+ expected +:+ ", received " +:+ received
  | invalid_union _ _ => "Invalid input"
  end.

(** One option of a union was tried and failed: its issues are kept when
    there are any. *)
Definition push_issues (tried : list (list issue)) (iss : list issue)
  : list (list issue) :=
  match iss with
  | [] => tried
  | _ => tried ++ [iss]
  end.

(** [_parse] on [undefined], the value of a key the input does not have.
    The boolean is the status: [true] is a valid parse (whose value is
    [undefined]), [false] is INVALID. *)
Fixpoint parse_undefined (s : schema) (p : path) : list issue * bool :=
  match s with
  | z_string => ([invalid_type "string" "undefined" p], false)
  | z_number => ([invalid_type "number" "undefined" p], false)
  | z_boolean => ([invalid_type "boolean" "undefined" p], false)
  | z_any => ([], true)
  | z_optional _ => ([], true)
  | z_nullable inner => parse_undefined inner p
  | z_array _ => ([invalid_type "array" "undefined" p], false)
  | z_record _ => ([invalid_type "object" "undefined" p], false)
  | z_object _ => ([invalid_type "object" "undefined" p], false)
  | z_union options =>
      (fix try (opts : list schema) (tried : list (list issue)) :=
         match opts with
         | [] => ([invalid_union tried p], false)
         | o :: rest =>
             let r := parse_undefined o p in
             if r.2 then ([], true) else try rest (push_issues tried r.1)
         end) options []
  end.

(** [ParseStatus.mergeObjectSync]: INVALID as soon as one value is, else a
    new object holding the parsed values that are not [undefined], the key
    [__proto__] left out. *)
Definition mergeObjectSync (pairs : list (string * option (option value)))
  : option value :=
  if forallb (λ kr, bool_decide (is_Some kr.2)) pairs
  then Some (JObj (omap (λ kr,
                     match kr.2 with
                     | Some (Some v) =>
                         if decide (kr.1 = "__proto__") then None
                         else Some (kr.1, v)
                     | _ => None
                     end) pairs))
  else None.

(** [ParseStatus.mergeArray]. *)
Definition mergeArray (results : list (option value)) : option value :=
  JArr <$> mapM id results.

Definition reject (expected : string) (d : value) (p : path)
  : list issue * option value :=
  ([invalid_type expected (parsed_type (Some d)) p], None).

(** [_parse] on a value that is present.  The first component is what is
    added to the issues of the context, the second is the parsed value, or
    [None] for INVALID.  Every member of an object or array is parsed, also
    after a failure, so that all the issues are collected. *)
Fixpoint parse (s : schema) (p : path) (d : value) : list issue * option value :=
  match s with
  | z_string => match d with JStr _ => ([], Some d) | _ => reject "string" d p end
  | z_number =>
      match d with
      | JNum NaN => reject "number" d p
      | JNum _ => ([], Some d)
      | _ => reject "number" d p
      end
  | z_boolean => match d with JBool _ => ([], Some d) | _ => reject "boolean" d p end
  | z_any => ([], Some d)
  | z_optional inner => parse inner p d
  | z_nullable inner =>
      match d with
      | JNull => ([], Some JNull)
      | _ => parse inner p d
      end
  | z_array element =>
      match d with
      | JArr xs =>
          let rs := imap (λ i x, parse element (p ++ [PIdx i]) x) xs in
          (concat rs.*1, mergeArray rs.*2)
      | _ => reject "array" d p
      end
  | z_record valueType =>
      match d with
      | JObj ps =>
          let rs := (λ kv, (kv.1, parse valueType (p ++ [PKey kv.1]) kv.2))
                      <$> own_entries ps in
          (concat ((λ kr, kr.2.1) <$> rs),
           mergeObjectSync ((λ kr, (kr.1, Some <$> kr.2.2)) <$> rs))
      | _ => reject "object" d p
      end
  | z_object shape =>
      match d with
      | JObj ps =>
          let rs :=
            (fix members (sh : list (string * schema)) :=
               match sh with
               | [] => []
               | (k, sk) :: rest =>
                   match assoc_get k ps with
                   | Some x =>
                       let r := parse sk (p ++ [PKey k]) x in
                       (k, (r.1, Some <$> r.2))
                   | None =>
                       let r := parse_undefined sk (p ++ [PKey k]) in
                       (k, (r.1, if r.2 then Some None else None))
                   end :: members rest
               end) shape in
          (concat ((λ kr, kr.2.1) <$> rs),
           mergeObjectSync ((λ kr, (kr.1, kr.2.2)) <$> rs))
      | _ => reject "object" d p
      end
  | z_union options =>
      (fix try (opts : list schema) (tried : list (list issue)) :=
         match opts with
         | [] => ([invalid_union tried p], None)
         | o :: rest =>
             let r := parse o p d in
             match r.2 with
             | Some v => ([], Some v)
             | None => try rest (push_issues tried r.1)
             end
         end) options []
  end.

(** [schema.parse(data)]: the parsed value, or the issues of the [ZodError]
    it throws. *)
Definition schema_parse (s : schema) (d : value) : list issue + value :=
  match parse s [] d with
  | (_, Some v) => inr v
  | (iss, None) => inl iss
  end.

(** *** [ZodError.format] *)

Definition key_of (el : pathelem) : string :=
  match el with
  | PKey k => k
  | PIdx i => pretty i
  end.

Definition empty_node : value := JObj [("_errors", JArr [])].

(** [curr[k] = v].  Writing a property of a string, a number, a boolean or
    [null] throws in strict code.  An array written past its end grows, the
    holes reading as [undefined] and printing as [null]; a property of an
    array that is not an element is no part of the data and is not kept. *)
Definition put (curr : value) (k : string) (v : value) : Throw.t value :=
  match curr with
  | JObj ps => inr (JObj (assoc_set k v ps))
  | JArr xs =>
      match array_index k with
      | Some n =>
          let i := N.to_nat n in
          inr (JArr (if decide (i < length xs) then <[i:=v]> xs
                     else xs ++ replicate (i - length xs) JNull ++ [v]))
      | None => inr (JArr xs)
      end
  | _ => inl ("Cannot create property '" +:+ k +:+ "'")
  end.

(** [node._errors.push(msg)]. *)
Definition push_error (node : value) (msg : string) : Throw.t value :=
  match get node "_errors" with
  | Some (JArr xs) => put node "_errors" (JArr (xs ++ [JStr msg]))
  | _ => inl "Cannot read properties of undefined (reading 'push')"
  end.

(** The names that every ordinary object inherits from
    [Object.prototype]: read on a node of the report that has no property
    of that name, they give a function of the prototype, and [__proto__]
    gives the prototype itself. *)
Definition inherited (k : string) : bool :=
  bool_decide (k ∈ ["constructor"; "__proto__"; "toString"; "toLocaleString";
                    "valueOf"; "hasOwnProperty"; "isPrototypeOf";
                    "propertyIsEnumerable"; "__defineGetter__";
                    "__defineSetter__"; "__lookupGetter__";
                    "__lookupSetter__"]).

(** The read [curr[k]] finds something that is no part of the report: a
    member of [Object.prototype] on an object that has no property [k] of
    its own, or a property of an array that is no element. *)
Definition reads_realm (curr : value) (k : string) : bool :=
  match curr with
  | JObj ps =>
      inherited k && match assoc_get k ps with Some _ => false | None => true end
  | JArr _ => negb (is_index k)
  | _ => false
  end.

(** A name under which a node of the report keeps a node of its own: it
    is not [_errors], where the node keeps its list of reasons, and it is
    not the name of a member of [Object.prototype]. *)
Definition plain_key (k : string) : bool :=
  negb (bool_decide (k = "_errors")) && negb (inherited k).

Definition plain_path (p : path) : bool :=
  forallb (λ el, plain_key (key_of el)) p.

(** What a call of [format] comes to: [Some (inr report)] when it returns,
    [Some (inl msg)] when it throws, and [None] when it has written into an
    object of the realm that the report shares with the other objects
    ([Object.prototype]), or into a built-in object at a place where the
    outcome depends on what that object holds: there a model of plain data
    does not follow it. *)
Definition run (A : Type) : Type := option (Throw.t A).

Definition and_then {A B} (m : run A) (k : A → run B) : run B :=
  match m with
  | Some (inr a) => k a
  | Some (inl e) => Some (inl e)
  | None => None
  end.

Notation "x ←? m ; k" := (and_then m (λ x, k))
  (at level 20, m at level 100, k at level 200, only parsing).

(** The [while] loop over the path of one issue, from the node [curr]:
    every step reads [curr[el]], creates the node when the read is falsy,
    and the last step pushes the message.  A member of [Object.prototype]
    is truthy and has no [_errors]: the last step throws on it, and a step
    before the last goes on to write into it.  When the member is a
    function and the path goes on by an index and then by plain names, the
    nodes that are written hang off the function, under names that nothing
    there has, and the report is as it was: it has the function as a
    property, which [JSON.stringify] leaves out. *)
Fixpoint insert_at (els : path) (msg : string) (curr : value) : run value :=
  match els with
  | [] => Some (inr curr)
  | el :: rest =>
      let k := key_of el in
      if reads_realm curr k
      then match curr, rest with
           | JObj _, [] =>
               Some (inl "Cannot read properties of undefined (reading 'push')")
           | JObj _, PIdx _ :: rest' =>
               if negb (bool_decide (k = "__proto__")) && plain_path rest'
               then Some (inr curr)
               else None
           | _, _ => None
           end
      else
        let child := or_else (get curr k) empty_node in
        _ ←? Some (put curr k child);
        child' ←? match rest with
                  | [] => Some (push_error child msg)
                  | _ => insert_at rest msg child
                  end;
        Some (put curr k child')
  end.

Fixpoint processError (i : issue) (fieldErrors : value) : run value :=
  match i with
  | invalid_union unionErrors _ =>
      (fix each (errs : list (list issue)) (fe : value) : run value :=
         match errs with
         | [] => Some (inr fe)
         | err :: rest =>
             fe' ←? (fix issues (l : list issue) (fe : value) : run value :=
                       match l with
                       | [] => Some (inr fe)
                       | i' :: l' => fe' ←? processError i' fe; issues l' fe'
                       end) err fe;
             each rest fe'
         end) unionErrors fieldErrors
  | invalid_type _ _ [] => Some (push_error fieldErrors (message i))
  | invalid_type _ _ p => insert_at p (message i) fieldErrors
  end.

Fixpoint processErrors (issues : list issue) (fieldErrors : value) : run value :=
  match issues with
  | [] => Some (inr fieldErrors)
  | i :: rest => fe ←? processError i fieldErrors; processErrors rest fe
  end.

Definition format (issues : list issue) : run value :=
  processErrors issues empty_node.

End Zod.

(** ** JSON.stringify *)

Module Json.
Import Js.

(** The two replacers of [config.ts] have the shape
    [(key, val) => cond ? undefined : val]: a replacer is the condition,
    [true] when the property is replaced by [undefined]. *)
Definition replacer := string → value → Throw.t bool.

(** What the text written for a number denotes: a finite number is written
    as it is, the negative zero as [0], and [NaN] and the infinities as
    [null]. *)
Definition written (n : number) : value :=
  match n with
  | Int z => JNum z
  | NegZero => JNum 0
  | NaN | PosInfinity | NegInfinity => JNull
  end.

(** SerializeJSONProperty, up to the concrete syntax: the value that the
    written text denotes, [None] when nothing is written.  The replacer is
    applied to every property before its value is visited; an object member
    replaced by [undefined] is left out, an array element replaced by
    [undefined] is written as [null]; members come in enumeration order. *)
Fixpoint serialize (r : replacer) (key : string) (v : value)
  : Throw.t (option value) :=
  drop ←! r key v;
  if drop : bool then inr None
  else match v with
       | JArr xs =>
           xs' ←! (fix elems (i : nat) (l : list value) : Throw.t (list value) :=
                     match l with
                     | [] => inr []
                     | x :: l' =>
                         t ←! serialize r (pretty i) x;
                         ts ←! elems (S i) l';
                         inr (default JNull t :: ts)
                     end) 0%nat xs;
           inr (Some (JArr xs'))
       | JObj ps =>
           ps' ←! (fix members (l : list (string * value))
                     : Throw.t (list (string * value)) :=
                     match l with
                     | [] => inr []
                     | (k, x) :: l' =>
                         t ←! serialize r k x;
                         ts ←! members l';
                         inr (match t with
                              | Some t' => (k, t') :: ts
                              | None => ts
                              end)
                     end) ps;
           inr (Some (JObj (own_entries ps')))
       | JNum n => inr (Some (written n))
       | _ => inr (Some v)
       end.

(** *** Concrete syntax *)

Definition nl : string := String (ascii_of_nat 10) "".
Definition dquote : string := String (ascii_of_nat 34) "".
Definition backslash : string := String (ascii_of_nat 92) "".

Definition hex_digit (n : N) : string :=
  String (ascii_of_N (if (n <? 10)%N then 48 + n else 87 + n)) "".

(** QuoteJSONString, one character at a time. *)
Definition quote_char (c : ascii) : string :=
  let n := N_of_ascii c in
  if (n =? 8)%N then backslash +:+ "b"
  else if (n =? 9)%N then backslash +:+ "t"
  else if (n =? 10)%N then backslash +:+ "n"
  else if (n =? 12)%N then backslash +:+ "f"
  else if (n =? 13)%N then backslash +:+ "r"
  else if (n =? 34)%N then backslash +:+ dquote
  else if (n =? 92)%N then backslash +:+ backslash
  else if (n <? 32)%N
       then backslash +:+ "u00" +:+ hex_digit (n / 16) +:+ hex_digit (n mod 16)
  else String c "".

Fixpoint quote_chars (s : string) : string :=
  match s with
  | "" => ""
  | String c r => quote_char c +:+ quote_chars r
  end.

Definition quote (s : string) : string := dquote +:+ quote_chars s +:+ dquote.

(** SerializeJSONArray and SerializeJSONObject put their parts together in
    the same way. *)
Definition wrap (gap stepback indent opening closing : string)
    (partial : list string) : string :=
  match partial with
  | [] => opening +:+ closing
  | _ =>
      if decide (gap = "")
      then opening +:+ String.concat "," partial +:+ closing
      else opening +:+ nl +:+ indent
             +:+ String.concat ("," +:+ nl +:+ indent) partial
             +:+ nl +:+ stepback +:+ closing
  end.

Fixpoint render (gap indent : string) (v : value) : string :=
  match v with
  | JNull => "null"
  | JBool true => "true"
  | JBool false => "false"
  | JNum (Int n) => pretty n
  | JNum NegZero => "0"
  | JNum _ => "null"
  | JStr s => quote s
  | JArr xs =>
      wrap gap indent (indent +:+ gap) "[" "]"
        (map (render gap (indent +:+ gap)) xs)
  | JObj ps =>
      wrap gap indent (indent +:+ gap) "{" "}"
        (map (λ kv, quote kv.1 +:+ ":" +:+ (if decide (gap = "") then "" else " ")
                      +:+ render gap (indent +:+ gap) kv.2) ps)
  end.

(** [JSON.stringify(value, replacer, gap)]. *)
Definition stringify (v : value) (r : replacer) (gap : string)
  : Throw.t (option string) :=
  t ←! serialize r "" v;
  inr (render gap "" <$> t).

(** [JSON.parse(JSON.stringify(value, replacer))]: the text is read back
    into the value it denotes; [JSON.parse(undefined)] throws. *)
Definition parse_stringify (v : value) (r : replacer) : Throw.t value :=
  t ←! serialize r "" v;
  match t with
  | Some t' => inr t'
  | None => inl "undefined is not valid JSON"
  end.

End Json.

(** ** defu *)

Module Defu.
Import Js.

Definition skipped_key (key : string) : bool :=
  bool_decide (key = "__proto__") || bool_decide (key = "constructor").

(** One turn of the [for (const key in baseObject)] loop of [_defu];
    [merge] is [_defu(value, ·)]. *)
Definition assign (object : list (string * value))
    (member : string * (value * (value → value))) : list (string * value) :=
  let key := member.1 in
  let value := member.2.1 in
  if skipped_key key then object
  else match value with
       | JNull => object
       | JArr xs =>
           match assoc_get key object with
           | Some (JArr ys) => assoc_set key (JArr (xs ++ ys)) object
           | _ => assoc_set key value object
           end
       | JObj _ =>
           match assoc_get key object with
           | Some (JObj ds) => assoc_set key (member.2.2 (JObj ds)) object
           | _ => assoc_set key value object
           end
       | _ => assoc_set key value object
       end.

(** [_defu(baseObject, defaults)]: a copy of [defaults] (of [{}] when
    [defaults] is not a plain object) into which the members of
    [baseObject] are assigned: [null] is skipped, two arrays are
    concatenated, two plain objects are merged, anything else replaces. *)
Fixpoint _defu (baseObject : value) (defaults : value) : value :=
  let object := match defaults with
                | JObj ds => own_entries ds
                | _ => []
                end in
  let members :=
    match baseObject with
    | JObj ps =>
        (fix go (l : list (string * value)) :=
           match l with
           | [] => []
           | (k, v) :: l' => (k, (v, _defu v)) :: go l'
           end) ps
    | JArr xs =>
        (fix go (i : nat) (l : list value) :=
           match l with
           | [] => []
           | v :: l' => (pretty i, (v, _defu v)) :: go (S i) l'
           end) 0%nat xs
    | _ => (λ kv, (kv.1, (kv.2, λ _, kv.2))) <$> spread baseObject
    end in
  JObj (foldl assign object (own_entries members)).

(** [defu(a, b)] is [[a, b].reduce((p, c) => _defu(p, c, ''), {})]. *)
Definition defu (a b : value) : value := _defu (_defu (JObj []) a) b.

(** What one turn of the loop leaves at its key. *)
Definition assigned (old : option value) (key : string)
    (member : value * (value → value)) : option value :=
  if skipped_key key then old
  else match member.1 with
       | JNull => old
       | JArr xs =>
           match old with
           | Some (JArr ys) => Some (JArr (xs ++ ys))
           | _ => Some member.1
           end
       | JObj _ =>
           match old with
           | Some (JObj ds) => Some (member.2 (JObj ds))
           | _ => Some member.1
           end
       | _ => Some member.1
       end.

End Defu.

(** ** [server/utils/config.ts] *)

Import Js.

(** What a [throw] carries: an [Error] instance that is no [ZodError]
    ([Error], [TypeError], the parser's error), a [ZodError], or a value
    that is not an [Error] instance at all. *)
Inductive exn :=
| Error (message : string)
| ZodError (issues : list Zod.issue)
| Thrown (v : value).

(** Code that may throw and that draws identifiers: the state is the number
    of identifiers drawn so far. *)
Definition M (A : Type) : Type := nat → exn + (A * nat).

Definition ret {A} (a : A) : M A := λ n, inr (a, n).
Definition throw {A} (e : exn) : M A := λ _, inl e.

Definition bind {A B} (m : M A) (k : A → M B) : M B :=
  λ n, match m n with
       | inl e => inl e
       | inr (a, n') => k a n'
       end.

Notation "x ⇐ m ; k" := (bind m (λ x, k))
  (at level 20, m at level 100, k at level 200, only parsing).

(** A [TypeError] of library code or of a property access. *)
Definition type_error {A} (m : Throw.t A) : M A :=
  match m with
  | inl msg => throw (Error msg)
  | inr a => ret a
  end.

Fixpoint mapM' {A B} (f : A → M B) (l : list A) : M (list B) :=
  match l with
  | [] => ret []
  | x :: r => y ⇐ f x; ys ⇐ mapM' f r; ret (y :: ys)
  end.

(** The collaborators of one load: what the storage answers, what the YAML
    parser makes of a text ([inl] is the message of the error it throws),
    and the identifiers [crypto.randomUUID] returns, in the order of the
    calls.  The parsed document is a tree: a text with a recursive alias,
    which the parser turns into a cyclic object, is not among the documents
    of this model. *)
Record Env := {
  hasItem : exn + bool;
  getItem : exn + option string;
  yaml_parse : string → string + value;
  randomUUID : nat → string;
}.

Definition await {A} (r : exn + A) : M A :=
  match r with
  | inl e => throw e
  | inr a => ret a
  end.

Definition uuid (env : Env) : M string := λ n, inr (randomUUID env n, S n).

Abbreviation TagMap := (gmap string value).

Definition fallback_tag (name : string) : value :=
  JObj [("name", JStr name); ("color", JStr "blue")].

(** The callback of [item.tags.map] in [determineService]. *)
Definition resolveTag (tags : TagMap) (tag : value) : value :=
  match tag with
  | JStr name => or_else (tags !! name) (fallback_tag name)
  | _ => tag
  end.

(** [array.map(f)] on a value that need not be an array. *)
Definition js_map {B} (what : string) (f : value → M B) (v : value)
  : M (list B) :=
  match v with
  | JArr xs => mapM' f xs
  | _ => throw (Error (what +:+ ".map is not a function"))
  end.

(** Reading a property throws on [null]. *)
Definition prop (v : value) (k : string) : M (option value) :=
  match v with
  | JNull => throw (Error ("Cannot read properties of null (reading '" +:+ k +:+ "')"))
  | _ => ret (get v k)
  end.

(** The callback of [items.map] in [determineService]: the properties of
    the item, then a fresh [id], then the resolved [tags]. *)
Definition determineItem (env : Env) (tags : TagMap) (item : value) : M value :=
  id ⇐ uuid env;
  item_tags ⇐ prop item "tags";
  resolved ⇐ js_map "(item.tags || [])" (λ tag, ret (resolveTag tags tag))
               (or_else item_tags (JArr []));
  ret (JObj (assoc_set "tags" (JArr resolved)
               (assoc_set "id" (JStr id) (spread item)))).

Definition determineService (env : Env) (items : value) (tags : TagMap)
  : M (list value) :=
  js_map "items" (determineItem env tags) items.

Definition getDefaultConfig : value :=
  JObj [("title", JStr "Mafl Home Page");
        ("lang", JStr "en");
        ("theme", JStr "system");
        ("checkUpdates", JBool true);
        ("behaviour", JObj [("target", JStr "_blank")]);
        ("tags", JArr []);
        ("services", JArr [])].

Module Schema.
Import Zod.

Definition status : schema :=
  z_object [("enabled", z_optional z_boolean);
            ("interval", z_optional z_number)].

Definition icon : schema :=
  z_object [("url", z_optional z_string);
            ("name", z_optional z_string);
            ("wrap", z_optional z_boolean);
            ("background", z_optional z_string);
            ("color", z_optional z_string)].

Definition tag : schema :=
  z_object [("name", z_string);
            ("color", z_string)].

Definition service : schema :=
  z_object [("title", z_optional (z_nullish z_string));
            ("description", z_optional (z_nullish z_string));
            ("link", z_optional (z_nullish z_string));
            ("target", z_optional z_string);
            ("icon", z_optional icon);
            ("status", z_optional status);
            ("type", z_optional z_string);
            ("options", z_optional (z_record z_any));
            ("secrets", z_optional (z_record z_any))].

Definition schema_shape : list (string * Zod.schema) :=
  [("title", z_optional z_string);
   ("lang", z_optional z_string);
   ("theme", z_optional z_string);
   ("checkUpdates", z_optional z_boolean);
   ("tags", z_optional (z_array tag));
   ("services", z_union [z_array service;
                         z_record (z_array service)])].

Definition schema : schema := z_object schema_shape.

End Schema.

(** The parsed value, or the issues of the [ZodError] that is thrown. *)
Definition validateConfigSchema (config : value) : list Zod.issue + value :=
  Zod.schema_parse Schema.schema config.

(** The [Map] is only ever read at string keys ([tags.get(tag)] under
    [typeof tag === 'string']), so the entries set at other keys are not
    kept. *)
Definition createTagMap (tags : value) : M TagMap :=
  match tags with
  | JArr xs =>
      foldl (λ (acc : M TagMap) tag,
               m ⇐ acc;
               name ⇐ prop tag "name";
               ret (match name with
                    | Some (JStr n) => <[n := tag]> m
                    | _ => m
                    end)) (ret ∅) xs
  | _ => throw (Error "(config.tags || []).reduce is not a function")
  end.

Definition isArray (v : option value) : bool :=
  match v with
  | Some (JArr _) => true
  | _ => false
  end.

(** The message of a [ZodError]: its issues as JSON, indented by two. *)
Fixpoint issue_json (i : Zod.issue) : value :=
  let path_json p :=
    JArr ((λ el, match el with
                 | Zod.PKey k => JStr k
                 | Zod.PIdx n => JNum (Z.of_nat n)
                 end) <$> p) in
  match i with
  | Zod.invalid_type expected received p =>
      JObj [("code", JStr "invalid_type");
            ("expected", JStr expected);
            ("received", JStr received);
            ("path", path_json p);
            ("message", JStr (Zod.message i))]
  | Zod.invalid_union unionErrors p =>
      JObj [("code", JStr "invalid_union");
            ("unionErrors",
             JArr (map (λ err, JObj [("issues", JArr (map issue_json err));
                                     ("name", JStr "ZodError")]) unionErrors));
            ("path", path_json p);
            ("message", JStr (Zod.message i))]
  end.

Definition exn_message (e : exn) : option string :=
  match e with
  | Error message => Some message
  | ZodError issues => Some (Json.render "  " "" (JArr (issue_json <$> issues)))
  | Thrown _ => None
  end.

(** The block of [loadLocalConfig] that builds [services] (lines 113-126):
    one group without a title for an array, one titled group per entry of
    [Object.entries] otherwise. *)
Definition normalizeServices (env : Env) (config : value) (tags : TagMap)
  : M (list value) :=
  if isArray (get config "services")
  then
    items ⇐ determineService env (default JNull (get config "services")) tags;
    ret [JObj [("items", JArr items)]]
  else
    mapM' (λ entry : string * value,
             items ⇐ determineService env entry.2 tags;
             ret (JObj [("title", JStr entry.1); ("items", JArr items)]))
      (spread (or_else (get config "services") (JArr []))).

(** [yaml.parse(raw || '') || {}]. *)
Definition parseDocument (env : Env) (raw : option string) : M value :=
  parsed ⇐ type_error (yaml_parse env (default "" raw));
  ret (or_else (Some parsed) (JObj [])).

(** The body of the [try] block, from the parsed document on. *)
Definition build (env : Env) (config defaultConfig : value) : M value :=
  tags ⇐ createTagMap (or_else (get config "tags") (JArr []));
  validated ⇐ match validateConfigSchema config with
              | inl issues => throw (ZodError issues)
              | inr checked => ret checked
              end;
  services ⇐ normalizeServices env config tags;
  ret (Defu.defu (JObj (assoc_set "services" (JArr services) (spread config)))
         defaultConfig).

(** The body of the [try] block. *)
Definition load (env : Env) (defaultConfig : value) : M value :=
  has ⇐ await (hasItem env);
  if negb has then throw (Error "Config not found")
  else
    raw ⇐ await (getItem env);
    config ⇐ parseDocument env raw;
    build env config defaultConfig.

(** The replacer of the error report:
    [(key, val) => (key === '_errors' && !val.length) ? undefined : val]. *)
Definition report_replacer : Json.replacer :=
  λ key val,
    if decide (key = "_errors")
    then match val with
         | JNull => inl "Cannot read properties of null (reading 'length')"
         | _ => inr (negb (truthy (get val "length")))
         end
    else inr false.

(** [o.error = s], where an [undefined] right-hand side leaves a property
    that reads as absent. *)
Definition set_error (s : option string) (config : value) : value :=
  match s, config with
  | Some msg, JObj ps => JObj (assoc_set "error" (JStr msg) ps)
  | _, _ => config
  end.

(** How the promise of [loadLocalConfig] settles.  [Beyond] is no way of
    settling: it stands for the calls in which [format] has written into an
    object of the realm, of which this model says nothing. *)
Inductive outcome :=
| Return (config : value)
| Raise (e : exn)
| Beyond.

(** The [catch] block; [logger.error(e)] only reports to the log. *)
Definition recover (e : exn) (defaultConfig : value) : outcome :=
  let defaultConfig :=
    match e with
    | Thrown _ => defaultConfig
    | _ => set_error (exn_message e) defaultConfig
    end in
  match e with
  | ZodError issues =>
      match Zod.format issues with
      | Some formatted =>
          match report ←! formatted; Json.stringify report report_replacer " " with
          | inl msg => Raise (Error msg)
          | inr text => Return (set_error text defaultConfig)
          end
      | None => Beyond
      end
  | _ => Return defaultConfig
  end.

Definition loadLocalConfig (env : Env) : outcome :=
  let defaultConfig := getDefaultConfig in
  match load env defaultConfig 0%nat with
  | inr (config, _) => Return config
  | inl e => recover e defaultConfig
  end.

(** The replacer of the safe view: [(key, val) => key === 'secrets' ? undefined : val]. *)
Definition secrets_replacer : Json.replacer :=
  λ key _, inr (bool_decide (key = "secrets")).

Definition extractSafelyConfig (config : value) : Throw.t value :=
  Json.parse_stringify config secrets_replacer.

(** ** Values in memory

    [JSON.parse(JSON.stringify(config, replacer))] is meant as a deep copy:
    to say what is shared and what is written, arrays and objects are cells
    of a heap, held by reference. *)

Module Heap.

(** A value as a variable holds it: a primitive, or the address of an
    array or of an object. *)
Inductive ref :=
| RNull
| RBool (b : bool)
| RNum (n : number)
| RStr (s : string)
| RPtr (l : nat).

Inductive cell :=
| CArr (elems : list ref)
| CObj (props : list (string * ref)).

Abbreviation heap := (list cell).

(** The data that [JSON.stringify] finds when it walks the heap from [r].
    [fuel] bounds the depth of the walk; a cyclic structure has no finite
    depth (and [JSON.stringify] throws on it). *)
Fixpoint read (fuel : nat) (h : heap) (r : ref) : option value :=
  match r with
  | RNull => Some JNull
  | RBool b => Some (JBool b)
  | RNum n => Some (JNum n)
  | RStr s => Some (JStr s)
  | RPtr l =>
      match fuel with
      | O => None
      | S fuel' =>
          match h !! l with
          | Some (CArr rs) => JArr <$> mapM (read fuel' h) rs
          | Some (CObj ps) =>
              JObj <$> mapM (λ kr, pair kr.1 <$> read fuel' h kr.2) ps
          | None => None
          end
      end
  end.

(** [JSON.parse] builds its result out of new cells, the parts of an array
    or object before the whole. *)
Fixpoint alloc (v : value) (h : heap) : heap * ref :=
  match v with
  | JNull => (h, RNull)
  | JBool b => (h, RBool b)
  | JNum n => (h, RNum n)
  | JStr s => (h, RStr s)
  | JArr xs =>
      let built :=
        (fix elems (l : list value) (h : heap) : heap * list ref :=
           match l with
           | [] => (h, [])
           | x :: l' =>
               let r := alloc x h in
               let rs := elems l' r.1 in
               (rs.1, r.2 :: rs.2)
           end) xs h in
      (built.1 ++ [CArr built.2], RPtr (length built.1))
  | JObj ps =>
      let built :=
        (fix members (l : list (string * value)) (h : heap)
           : heap * list (string * ref) :=
           match l with
           | [] => (h, [])
           | (k, x) :: l' =>
               let r := alloc x h in
               let rs := members l' r.1 in
               (rs.1, (k, r.2) :: rs.2)
           end) ps h in
      (built.1 ++ [CObj built.2], RPtr (length built.1))
  end.

(** The cell at [l] belongs to the structure that [r] holds. *)
Inductive reachable (h : heap) : ref → nat → Prop :=
| reach_here l : reachable h (RPtr l) l
| reach_elem l0 rs r l :
    h !! l0 = Some (CArr rs) → r ∈ rs → reachable h r l →
    reachable h (RPtr l0) l
| reach_prop l0 ps k r l :
    h !! l0 = Some (CObj ps) → (k, r) ∈ ps → reachable h r l →
    reachable h (RPtr l0) l.

(** *** [defu] on references

    The merge reads its two arguments in the heap, allocates the object it
    builds ([const object = Object.assign({}, defaults)]) and writes the
    properties of that object in place ([object[key] = ...]).  A property
    that is taken over from an argument is taken by reference. *)

Definition is_null (r : ref) : bool :=
  match r with
  | RNull => true
  | _ => false
  end.

Definition isArray (h : heap) (r : ref) : bool :=
  match r with
  | RPtr l =>
      match h !! l with
      | Some (CArr _) => true
      | _ => false
      end
  | _ => false
  end.

Definition isPlainObject (h : heap) (r : ref) : bool :=
  match r with
  | RPtr l =>
      match h !! l with
      | Some (CObj _) => true
      | _ => false
      end
  | _ => false
  end.

(** The elements that [[...r]] spreads, for an array. *)
Definition elems_of (h : heap) (r : ref) : list ref :=
  match r with
  | RPtr l =>
      match h !! l with
      | Some (CArr rs) => rs
      | _ => []
      end
  | _ => []
  end.

(** The own enumerable properties of what a reference holds. *)
Definition props_of (h : heap) (r : ref) : list (string * ref) :=
  match r with
  | RPtr l =>
      match h !! l with
      | Some (CObj ps) => own_entries ps
      | Some (CArr rs) => imap (λ i r, (pretty i, r)) rs
      | None => []
      end
  | RStr s => imap (λ i c, (pretty i, RStr (String c EmptyString))) (list_ascii_of_string s)
  | _ => []
  end.

(** [object[key]], [undefined] being [None], and [object[key] = r], for
    the object in the cell [lo]. *)
Definition get_prop (h : heap) (lo : nat) (key : string) : option ref :=
  match h !! lo with
  | Some (CObj ps) => assoc_get key ps
  | _ => None
  end.

Definition set_prop (lo : nat) (key : string) (r : ref) (h : heap) : option heap :=
  match h !! lo with
  | Some (CObj ps) => Some (<[lo := CObj (assoc_set key r ps)]> h)
  | _ => None
  end.

(** One turn of the [for (const key in baseObject)] loop, [object] being
    the cell [lo]; [merge] is [_defu] with the fuel that is left. *)
Definition assign (merge : heap → ref → ref → option (heap * ref)) (lo : nat)
    (member : string * ref) (h : heap) : option heap :=
  let key := member.1 in
  let value := member.2 in
  if Defu.skipped_key key then Some h
  else if is_null value then Some h
  else match get_prop h lo key with
       | Some old =>
           if isArray h value && isArray h old then
             set_prop lo key (RPtr (length h))
               (h ++ [CArr (elems_of h value ++ elems_of h old)])
           else if isPlainObject h value && isPlainObject h old then
             match merge h value old with
             | Some merged => set_prop lo key merged.2 merged.1
             | None => None
             end
           else set_prop lo key value h
       | None => set_prop lo key value h
       end.

Fixpoint loop {A S} (f : A → S → option S) (l : list A) (s : S) : option S :=
  match l with
  | [] => Some s
  | x :: r =>
      match f x s with
      | Some s' => loop f r s'
      | None => None
      end
  end.

Fixpoint _defu (fuel : nat) (h : heap) (baseObject defaults : ref)
  : option (heap * ref) :=
  match fuel with
  | O => None
  | S fuel' =>
      (* [if (!isPlainObject(defaults)) return _defu(baseObject, {}, ...)] *)
      let plain := isPlainObject h defaults in
      let h0 := if plain then h else h ++ [CObj []] in
      let defaults0 := if plain then defaults else RPtr (length h) in
      (* [const object = Object.assign({}, defaults)] *)
      let lo := length h0 in
      match loop (assign (_defu fuel') lo) (props_of h0 baseObject)
              (h0 ++ [CObj (props_of h0 defaults0)]) with
      | Some h' => Some (h', RPtr lo)
      | None => None
      end
  end.

(** [defu(a, b)] is [[a, b].reduce((p, c) => _defu(p, c, ''), {})]. *)
Definition defu (fuel : nat) (h : heap) (a b : ref) : option (heap * ref) :=
  match _defu fuel (h ++ [CObj []]) (RPtr (length h)) a with
  | Some first => _defu fuel first.1 first.2 b
  | None => None
  end.

End Heap.

(** [extractSafelyConfig] on a configuration held in memory: the heap after
    the call and the reference returned; [None] when [fuel] is too small for
    the depth of the configuration.  A configuration with a cycle has no
    depth: the call is followed on configurations without cycles only (on a
    cycle that it meets, [JSON.stringify] throws). *)
Definition extractSafelyConfig_heap (fuel : nat) (h : Heap.heap) (config : Heap.ref)
  : option (Throw.t (Heap.heap * Heap.ref)) :=
  match Heap.read fuel h config with
  | Some v =>
      Some (match extractSafelyConfig v with
            | inl e => inl e
            | inr copy => inr (Heap.alloc copy h)
            end)
  | None => None
  end.

(** ** Definitions used by the statements *)

(** The default of [behaviour]. *)
Definition default_behaviour : value := JObj [("target", JStr "_blank")].

(** What [z.object] computes for one key of its shape: the key, the issues
    and the parsed value. *)
Definition member (p : Zod.path) (ps : list (string * value))
    (entry : string * Zod.schema)
  : string * (list Zod.issue * option (option value)) :=
  match assoc_get entry.1 ps with
  | Some x =>
      let r := Zod.parse entry.2 (p ++ [Zod.PKey entry.1]) x in
      (entry.1, (r.1, Some <$> r.2))
  | None =>
      let r := Zod.parse_undefined entry.2 (p ++ [Zod.PKey entry.1]) in
      (entry.1, (r.1, if r.2 then Some None else None))
  end.

(** The document passes [validateConfigSchema]. *)
Definition accepted (config : value) : Prop :=
  ∃ v, validateConfigSchema config = inr v.

(** The schema [s] accepts the value [d]. *)
Definition accepts (s : Zod.schema) (d : value) : bool :=
  match (Zod.parse s [] d).2 with
  | Some _ => true
  | None => false
  end.

(** The restriction of a value to what a schema names: at every object the
    schema describes only the keys of its shape are kept, in the order of
    the shape; a union restricts by its first option that accepts the
    value.  Nothing is checked and nothing else is changed. *)
Fixpoint strip (s : Zod.schema) (d : value) : value :=
  match s with
  | Zod.z_optional inner | Zod.z_nullable inner => strip inner d
  | Zod.z_array element =>
      match d with
      | JArr xs => JArr (strip element <$> xs)
      | _ => d
      end
  | Zod.z_record valueType =>
      match d with
      | JObj ps =>
          JObj (omap (λ kv, if decide (kv.1 = "__proto__") then None
                            else Some (kv.1, strip valueType kv.2))
                  (own_entries ps))
      | _ => d
      end
  | Zod.z_object shape =>
      match d with
      | JObj ps =>
          JObj ((fix keep (sh : list (string * Zod.schema)) :=
                   match sh with
                   | [] => []
                   | (k, sk) :: rest =>
                       match assoc_get k ps with
                       | Some x =>
                           if decide (k = "__proto__") then keep rest
                           else (k, strip sk x) :: keep rest
                       | None => keep rest
                       end
                   end) shape)
      | _ => d
      end
  | Zod.z_union options =>
      (fix pick (opts : list Zod.schema) :=
         match opts with
         | [] => d
         | o :: rest => if accepts o d then strip o d else pick rest
         end) options
  | _ => d
  end.

(** The loop of [z.union] over the options that are left to try. *)
Definition try_options (p : Zod.path) (d : value) :=
  fix try (opts : list Zod.schema) (tried : list (list Zod.issue))
    : list Zod.issue * option value :=
    match opts with
    | [] => ([Zod.invalid_union tried p], None)
    | o :: rest =>
        let r := Zod.parse o p d in
        match r.2 with
        | Some v => ([], Some v)
        | None => try rest (Zod.push_issues tried r.1)
        end
    end.

(** The tag references of a service: [item.tags || []] when it is an array. *)
Definition tag_refs (item : value) : list value :=
  match or_else (get item "tags") (JArr []) with
  | JArr refs => refs
  | _ => []
  end.

(** [determineItem] goes through on this item. *)
Definition item_ok (item : value) : Prop :=
  item ≠ JNull ∧ ∃ refs, or_else (get item "tags") (JArr []) = JArr refs.

(** The service made of [item] with the identifier [id]. *)
Definition normalized (tags : TagMap) (id : string) (item : value) : value :=
  JObj (assoc_set "tags" (JArr (resolveTag tags <$> tag_refs item))
          (assoc_set "id" (JStr id) (spread item))).

(** The declared tag [t] has the name [name]. *)
Definition declares (name : string) (t : value) : bool :=
  match get t "name" with
  | Some (JStr n) => bool_decide (n = name)
  | _ => false
  end.

(** The elements of a value that is an array. *)
Definition elements (v : value) : list value :=
  match v with
  | JArr xs => xs
  | _ => []
  end.

(** The services of a document, in the order in which [loadLocalConfig]
    visits them. *)
Definition document_services (config : value) : list value :=
  match get config "services" with
  | Some (JArr xs) => xs
  | Some (JObj ps) => own_entries ps ≫= λ entry, elements entry.2
  | _ => []
  end.

(** The services of a loaded configuration, group after group, and their
    identifiers. *)
Definition config_services (config : value) : list value :=
  match get config "services" with
  | Some (JArr groups) =>
      groups ≫= λ group, elements (default JNull (get group "items"))
  | _ => []
  end.

Definition service_ids (config : value) : list (option value) :=
  (λ service, get service "id") <$> config_services config.

(** The group made of one entry of the [services] mapping, its services
    taking the identifiers from the [n]-th on. *)
Definition group_of (env : Env) (tags : TagMap) (n : nat)
    (entry : string * value) : value :=
  JObj [("title", JStr entry.1);
        ("items", JArr (imap (λ i, normalized tags (randomUUID env (n + i)))
                          (elements entry.2)))].

Fixpoint groups_of (env : Env) (tags : TagMap) (n : nat)
    (entries : list (string * value)) : list value :=
  match entries with
  | [] => []
  | entry :: rest =>
      group_of env tags n entry
      :: groups_of env tags (n + length (elements entry.2)) rest
  end.

(** The [tags] of a service are absent, falsy or an array, so that
    [(item.tags || []).map] is defined. *)
Definition tags_ok (item : value) : Prop :=
  ∃ refs, or_else (get item "tags") (JArr []) = JArr refs.

Definition is_object (v : value) : Prop := ∃ ps, v = JObj ps.

Definition is_array (v : value) : Prop := ∃ xs, v = JArr xs.

(** The values [ZodError.format] works on: every object is a node of the
    report, with an [_errors] property that is an array. *)
#[local] Unset Elimination Schemes.
Inductive report_ok : value → Prop :=
| report_null : report_ok JNull
| report_bool b : report_ok (JBool b)
| report_num (n : Z) : report_ok (JNum n)
| report_str s : report_ok (JStr s)
| report_arr xs : Forall report_ok xs → report_ok (JArr xs)
| report_obj ps :
    (∃ xs, assoc_get "_errors" ps = Some (JArr xs)) →
    Forall (λ kv, (kv.1 = "_errors" → is_array kv.2) ∧ report_ok kv.2) ps →
    report_ok (JObj ps).
#[local] Set Elimination Schemes.

(** An [_errors] list with nothing in it. *)
Definition empty_errors (key : string) (v : value) : bool :=
  bool_decide (key = "_errors")
  && match v with
     | JArr [] => true
     | _ => false
     end.

(** The report with its empty [_errors] lists taken out, as the spec
    describes the text of the [error] field. *)
Fixpoint prune (v : value) : value :=
  match v with
  | JArr xs => JArr (prune <$> xs)
  | JObj ps =>
      JObj (own_entries
              ((fix members (l : list (string * value)) :=
                  match l with
                  | [] => []
                  | (k, x) :: l' =>
                      if empty_errors k x then members l'
                      else (k, prune x) :: members l'
                  end) ps))
  | _ => v
  end.

(** No [_errors] list of the value is empty. *)
#[local] Unset Elimination Schemes.
#[local] Set Elimination Schemes.

(** The copy that [JSON] makes of a value, without the properties named
    [secrets], at any depth.  The negative zero comes back as [0]; [NaN]
    and the infinities, which [JSON] does not write, come back as
    [null]. *)
Fixpoint redact (v : value) : value :=
  match v with
  | JNum NegZero => JNum 0
  | JNum (NaN | PosInfinity | NegInfinity) => JNull
  | JArr xs => JArr (redact <$> xs)
  | JObj ps =>
      JObj (own_entries
              ((fix members (l : list (string * value)) :=
                  match l with
                  | [] => []
                  | (k, x) :: l' =>
                      if decide (k = "secrets") then members l'
                      else (k, redact x) :: members l'
                  end) ps))
  | _ => v
  end.

(** No object of the value has a property named [secrets]. *)
Fixpoint no_secrets (v : value) : bool :=
  match v with
  | JArr xs => forallb no_secrets xs
  | JObj ps =>
      forallb (λ kv, negb (bool_decide (kv.1 = "secrets")) && no_secrets kv.2) ps
  | _ => true
  end.

(** The depth of a value: the fuel that reading it takes. *)
Fixpoint depth (v : value) : nat :=
  match v with
  | JArr xs => S (foldr (λ x d, depth x `max` d) 0%nat xs)
  | JObj ps => S (foldr (λ kv d, depth kv.2 `max` d) 0%nat ps)
  | _ => 0%nat
  end.

(** A reference, or a cell, that points to nothing below the address [n]. *)
Definition ref_fresh (n : nat) (r : Heap.ref) : Prop :=
  match r with
  | Heap.RPtr l => (n ≤ l)%nat
  | _ => True
  end.

Definition cell_fresh (n : nat) (c : Heap.cell) : Prop :=
  match c with
  | Heap.CArr rs => Forall (ref_fresh n) rs
  | Heap.CObj ps => Forall (λ kr, ref_fresh n kr.2) ps
  end.

(** The two loops of [Heap.alloc]. *)
Fixpoint alloc_list (l : list value) (h : Heap.heap) : Heap.heap * list Heap.ref :=
  match l with
  | [] => (h, [])
  | x :: l' =>
      let r := Heap.alloc x h in
      let rs := alloc_list l' r.1 in
      (rs.1, r.2 :: rs.2)
  end.

Fixpoint alloc_props (l : list (string * value)) (h : Heap.heap)
  : Heap.heap * list (string * Heap.ref) :=
  match l with
  | [] => (h, [])
  | (k, x) :: l' =>
      let r := Heap.alloc x h in
      let rs := alloc_props l' r.1 in
      (rs.1, (k, r.2) :: rs.2)
  end.

(** What [Heap.alloc] builds: new cells after the old ones, that point to
    new cells only, and from which the value reads back. *)
Definition alloc_spec (v : value) : Prop :=
  ∀ h, ∃ fresh,
    (Heap.alloc v h).1 = h ++ fresh
    ∧ ref_fresh (length h) (Heap.alloc v h).2
    ∧ Forall (cell_fresh (length h)) fresh
    ∧ Heap.read (depth v) (Heap.alloc v h).1 (Heap.alloc v h).2 = Some v.

(** The value found by following a path of property names. *)
Fixpoint get_path (v : value) (p : list string) : option value :=
  match p with
  | [] => Some v
  | k :: p' =>
      match get v k with
      | Some w => get_path w p'
      | None => None
      end
  end.

(** The reference [r] holds the value [v] in the heap [h]. *)
Definition holds (h : Heap.heap) (r : Heap.ref) (v : value) : Prop :=
  ∃ fuel, Heap.read fuel h r = Some v.

(** Two lists of properties with the same names, related value by
    value. *)
Definition keyed {A B} (Q : A → B → Prop)
    (l1 : list (string * A)) (l2 : list (string * B)) : Prop :=
  Forall2 (λ a b, a.1 = b.1 ∧ Q a.2 b.2) l1 l2.

(** The properties [rs] hold the properties [ps], name by name. *)
Definition props_hold (h : Heap.heap)
    (rs : list (string * Heap.ref)) (ps : list (string * value)) : Prop :=
  keyed (holds h) rs ps.

(** Inside a call of [_defu] that builds its object in the cell [lo]: the
    reference [r] holds [v], in cells that are above [lo] or among the
    cells [R] of the arguments of the call. *)
Definition kept (lo : nat) (R : nat → Prop)
    (h : Heap.heap) (r : Heap.ref) (v : value) : Prop :=
  holds h r v ∧ ∀ l, Heap.reachable h r l → (lo < l)%nat ∨ R l.

(** From [h] to [h'] the cells below [lo] are as they were, and what was
    kept is kept. *)
Definition frame (lo : nat) (R : nat → Prop) (h h' : Heap.heap) : Prop :=
  take lo h' = take lo h
  ∧ (length h ≤ length h')%nat
  ∧ ∀ r v, kept lo R h r v → kept lo R h' r v.

(** *** The report of a rejected document *)

(** An issue whose path has plain names only; for the issue of a union,
    the issues of the options that were tried. *)
Fixpoint plain_issue (i : Zod.issue) : bool :=
  match i with
  | Zod.invalid_type _ _ p => Zod.plain_path p
  | Zod.invalid_union unionErrors _ =>
      forallb (λ err, forallb plain_issue err) unionErrors
  end.

(** When [services] is a mapping, its groups have plain names. *)
Definition plain_groups (config : value) : bool :=
  match get config "services" with
  | Some (JObj groups) => forallb (λ group, Zod.plain_key group.1) groups
  | _ => true
  end.

(** The reason given for a value that has not the expected type. *)
Definition reason (expected received : string) : string :=
  if decide (received = "undefined") then "Required"
  else "Expected " +:+ expected +:+ ", received " +:+ received.

(** The failures that an issue stands for, each with its field path and
    its reason: the issue of a union stands for the failures of all the
    options that were tried. *)
Fixpoint failures (i : Zod.issue) : list (list string * string) :=
  match i with
  | Zod.invalid_type expected received p =>
      [(Zod.key_of <$> p, reason expected received)]
  | Zod.invalid_union unionErrors _ =>
      concat (map (λ err, concat (map failures err)) unionErrors)
  end.

Definition all_failures (issues : list Zod.issue) : list (list string * string) :=
  concat (map failures issues).


(** The field path [p] leads to a failure: it is the path of one, or the
    beginning of it. *)
Definition leads_to (fs : list (list string * string)) (p : list string) : Prop :=
  ∃ f, f ∈ fs ∧ p `prefix_of` f.1.

(** A node of the report: an object with its own reasons under [_errors]
    and a node under every other name. *)
#[local] Unset Elimination Schemes.
Inductive node : value → Prop :=
| node_of ps reasons :
    NoDup ps.*1 →
    assoc_get "_errors" ps = Some (JArr (JStr <$> reasons)) →
    Forall (λ kv, kv.1 ≠ "_errors" → node kv.2) ps →
    node (JObj ps).
#[local] Set Elimination Schemes.

(** The list found under [_errors] at the field path [p] of a report. *)
Definition reasons_in (report : value) (p : list string) : list value :=
  match get_path report (p ++ ["_errors"]) with
  | Some (JArr xs) => xs
  | _ => []
  end.

(** The reasons among [fs] that are given for the field path [p]. *)
Definition given_at (p : list string) (fs : list (list string * string))
  : list value :=
  JStr <$> (filter (λ f, f.1 = p) fs).*2.

(** The report [r] is the report [fe] with the failures [fs] written into
    it: their reasons come after the ones that were there, and the nodes on
    their paths are there. *)
Definition grown (fe r : value) (fs : list (list string * string)) : Prop :=
  node r
  ∧ (∀ q, "_errors" ∉ q → reasons_in r q = reasons_in fe q ++ given_at q fs)
  ∧ (∀ q, "_errors" ∉ q →
          is_Some (get_path r q) ↔ is_Some (get_path fe q) ∨ leads_to fs q).

(** A schema whose issues have plain paths when they are found below a
    plain path: the names of its shapes are plain, and a record in it
    takes any value. *)
Fixpoint tame (s : Zod.schema) : bool :=
  match s with
  | Zod.z_optional inner | Zod.z_nullable inner => tame inner
  | Zod.z_array element => tame element
  | Zod.z_record Zod.z_any => true
  | Zod.z_record _ => false
  | Zod.z_object shape => forallb (λ ks, Zod.plain_key ks.1 && tame ks.2) shape
  | Zod.z_union options => forallb tame options
  | _ => true
  end.

(** ** The index of the services

    [extractServicesFromConfig] (lines 168-176). *)

(** ToString on the values of a document: the name under which a value is
    used as a property key.  An array is joined with commas, [null]
    elements giving the empty string.  An integer is printed by its digits,
    as JavaScript prints the integers of the safe range (below 2^53 in
    absolute value). *)
Fixpoint to_string (v : value) : string :=
  match v with
  | JNull => "null"
  | JBool true => "true"
  | JBool false => "false"
  | JNum (Int n) => pretty n
  | JNum NegZero => "0"
  | JNum NaN => "NaN"
  | JNum PosInfinity => "Infinity"
  | JNum NegInfinity => "-Infinity"
  | JStr s => s
  | JArr xs =>
      String.concat ","
        (map (λ x, match x with
                   | JNull => ""
                   | _ => to_string x
                   end) xs)
  | JObj _ => "[object Object]"
  end.

Definition property_key (v : option value) : string :=
  match v with
  | Some w => to_string w
  | None => "undefined"
  end.

(** [v.k] inside library-free code: reading a property of [null] throws. *)
Definition read_prop (v : value) (k : string) : Throw.t (option value) :=
  match v with
  | JNull => inl ("Cannot read properties of null (reading '" +:+ k +:+ "')")
  | _ => inr (get v k)
  end.

(** What [for (const x of v)] goes through: the elements of an array, the
    characters of a string; nothing else in a document is iterable. *)
Definition iterate (what : string) (v : option value) : Throw.t (list value) :=
  match v with
  | Some (JArr xs) => inr xs
  | Some (JStr s) => inr ((λ c, JStr (String c "")) <$> list_ascii_of_string s)
  | _ => inl (what +:+ " is not iterable")
  end.

(** [acc[item.id] = item].  The accumulator is an ordinary object: the key
    [__proto__] reaches the setter of its prototype and creates no property
    of its own. *)
Definition index_item (item : value) (acc : list (string * value))
  : Throw.t (list (string * value)) :=
  id ←! read_prop item "id";
  let key := property_key id in
  inr (if decide (key = "__proto__") then acc else assoc_set key item acc).

(** The callback of [config.services.reduce]. *)
Definition index_group (group : value) (acc : list (string * value))
  : Throw.t (list (string * value)) :=
  items ←! read_prop group "items";
  xs ←! iterate "group.items" items;
  Throw.foldM index_item xs acc.

Definition extractServicesFromConfig (config : value) : Throw.t value :=
  services ←! read_prop config "services";
  match services with
  | Some (JArr groups) =>
      acc ←! Throw.foldM index_group groups [];
      inr (JObj acc)
  | Some _ => inl "config.services.reduce is not a function"
  | None => inl "Cannot read properties of undefined (reading 'reduce')"
  end.

(** ** Further definitions used by the statements *)

(** The service [s] has the identifier [id]. *)
Definition has_id (id : string) (s : value) : bool :=
  match get s "id" with
  | Some (JStr i) => bool_decide (i = id)
  | _ => false
  end.

(** The reasons a load can fail with before the document is looked at: no
    file, a storage that throws, a text that the parser refuses. *)
Inductive fails_early (env : Env) (msg : string) : Prop :=
| no_file :
    hasItem env = inr false → msg = "Config not found" → fails_early env msg
| has_throws : hasItem env = inl (Error msg) → fails_early env msg
| get_throws :
    hasItem env = inr true → getItem env = inl (Error msg) → fails_early env msg
| parse_throws raw :
    hasItem env = inr true → getItem env = inr raw →
    yaml_parse env (default "" raw) = inl msg → fails_early env msg.

(** The document that [loadLocalConfig] works on is [config]. *)
Definition document (env : Env) (config : value) : Prop :=
  ∃ raw parsed,
    hasItem env = inr true
    ∧ getItem env = inr raw
    ∧ yaml_parse env (default "" raw) = inr parsed
    ∧ config = or_else (Some parsed) (JObj []).

(** A value that is truthy and is no array: [(v || []).map] and
    [(v || []).reduce] are not functions. *)
Definition no_list (v : option value) : Prop :=
  truthy v = true ∧ isArray v = false.

(** Declared tags that [createTagMap] cannot go through: no array, or an
    array with a [null] in it, of which [tag.name] cannot be read. *)
Definition unreadable_tags (v : option value) : Prop :=
  no_list v ∨ ∃ declared, v = Some (JArr declared) ∧ JNull ∈ declared.

(** One service entered into the index, under the name its identifier
    gives. *)
Definition entered (acc : list (string * value)) (s : value)
  : list (string * value) :=
  assoc_set (property_key (get s "id")) s acc.

(** A service that can be indexed: its identifier is a string, and not the
    name [__proto__]. *)
Definition indexable (s : value) : Prop :=
  ∃ id, get s "id" = Some (JStr id) ∧ id ≠ "__proto__".

(** A group that has its array of items. *)
Definition has_items (group : value) : Prop :=
  ∃ items, get group "items" = Some (JArr items).



(** The name [k1] may come before the name [k2] when an object is
    enumerated: array indices come in increasing order and before the other
    names. *)
Definition key_before (k1 k2 : string) : Prop :=
  match array_index k1, array_index k2 with
  | Some n, Some m => (n < m)%N
  | Some _, None => True
  | None, Some _ => False
  | None, None => True
  end.

(** Names in an order in which they can be enumerated. *)
Fixpoint enumerated_keys (ks : list string) : Prop :=
  match ks with
  | [] => True
  | k :: r => Forall (key_before k) r ∧ enumerated_keys r
  end.

(** The properties of an object in the order in which they are
    enumerated, as [JSON.parse] creates them. *)
Definition enumerated {A} (ps : list (string * A)) : Prop :=
  enumerated_keys ps.*1.

(** An entry with the array index that its name is, if it is one; the
    entries of a list that are tagged with the index of their name. *)
Definition index_of_entry {A} (kv : string * A) : option (N * (string * A)) :=
  match array_index kv.1 with
  | Some n => Some (n, kv)
  | None => None
  end.

Definition tagged {A} (l : list (N * (string * A))) : Prop :=
  Forall (λ p, array_index p.2.1 = Some p.1) l.

(** A schema whose answer is a fixed point of validation: validating the
    value it returns gives that value again. *)
Definition stable (s : Zod.schema) : Prop :=
  ∀ p p' d d',
    wf d = true → (Zod.parse s p d).2 = Some d' → (Zod.parse s p' d').2 = Some d'.

(** A schema without unions, whose objects name each key once and do not
    name [__proto__]. *)
Fixpoint tidy (s : Zod.schema) : bool :=
  match s with
  | Zod.z_optional inner | Zod.z_nullable inner => tidy inner
  | Zod.z_array element => tidy element
  | Zod.z_record valueType => tidy valueType
  | Zod.z_object shape =>
      bool_decide (NoDup shape.*1)
      && bool_decide ("__proto__" ∉ shape.*1)
      && forallb (λ ks, tidy ks.2) shape
  | Zod.z_union _ => false
  | _ => true
  end.
(** * Properties *)

(** ** Objects and their enumeration order *)

Section own_entries_facts.
Context {A : Type}.
Implicit Types (ps : list (string * A)) (k : string).

Lemma insert_by_index_perm {B} n (x : B) l :
  insert_by_index n x l ≡ₚ (n, x) :: l.
Proof.
  induction l as [|[m y] r IH]; simpl; [done|].
  destruct (n <? m)%N; [done|].
  rewrite IH. apply perm_swap.
Qed.

Lemma sort_by_index_perm {B} (l : list (N * B)) : sort_by_index l ≡ₚ l.
Proof.
  induction l as [|[n x] r IH]; simpl; [done|].
  rewrite insert_by_index_perm. by f_equiv.
Qed.

Lemma index_entries_perm ps :
  (omap (λ kv : string * A,
           match array_index kv.1 with
           | Some n => Some (n, kv)
           | None => None
           end) ps).*2
  = filter (λ kv, is_index kv.1 = true) ps.
Proof.
  induction ps as [|[k v] r IH]; simpl; [done|].
  rewrite filter_cons. simpl.
  destruct (array_index k) as [n|] eqn:E; simpl.
  - rewrite decide_True by (unfold is_index; by rewrite E). by f_equal.
  - rewrite decide_False by (unfold is_index; by rewrite E). done.
Qed.

Lemma own_entries_perm ps : own_entries ps ≡ₚ ps.
Proof.
  unfold own_entries.
  rewrite sort_by_index_perm, index_entries_perm.
  rewrite (list_filter_iff (λ kv : string * A, is_index kv.1 = false)
             (λ kv, ¬ is_index kv.1 = true)).
  - apply filter_app_complement.
  - intros [k v]. simpl. destruct (is_index k); naive_solver.
Qed.

Lemma own_entries_no_index ps :
  Forall (λ kv, is_index kv.1 = false) ps → own_entries ps = ps.
Proof.
  intros H. unfold own_entries.
  assert (omap (λ kv : string * A,
                  match array_index kv.1 with
                  | Some n => Some (n, kv)
                  | None => None
                  end) ps = []) as ->.
  { induction H as [|[k v] r Hk _ IH]; [done|].
    simpl in *. unfold is_index in Hk.
    by destruct (array_index k). }
  simpl. induction H as [|[k v] r Hk _ IH]; [done|].
  rewrite filter_cons, decide_True by done. by f_equal.
Qed.

Lemma own_entries_length ps : length (own_entries ps) = length ps.
Proof. by rewrite own_entries_perm. Qed.

Lemma own_entries_keys_NoDup ps : NoDup ps.*1 → NoDup (own_entries ps).*1.
Proof. intros H. by rewrite own_entries_perm. Qed.

End own_entries_facts.

Section assoc_facts.
Context {A : Type}.
Implicit Types (ps : list (string * A)) (k : string) (v : A).

Lemma assoc_get_Some_elem ps k v : assoc_get k ps = Some v → (k, v) ∈ ps.
Proof.
  induction ps as [|[k' v'] r IH]; simpl; [done|].
  case_decide; [intros [= ->]; subst; left | right; auto].
Qed.

Lemma assoc_get_None ps k : assoc_get k ps = None ↔ k ∉ ps.*1.
Proof.
  induction ps as [|[k' v'] r IH]; simpl.
  - split; [intros _; apply not_elem_of_nil | done].
  - rewrite not_elem_of_cons. case_decide as Hk.
    + split; [done | intros [? _]; done].
    + rewrite IH. split; [done | by intros [_ ?]].
Qed.

Lemma assoc_get_elem ps k v :
  NoDup ps.*1 → (k, v) ∈ ps → assoc_get k ps = Some v.
Proof.
  induction ps as [|[k' v'] r IH]; simpl; [by intros _ ?%elem_of_nil|].
  intros [Hk Hr]%NoDup_cons [[= -> ->]|Hin]%elem_of_cons.
  - by rewrite decide_True.
  - rewrite decide_False; [auto|].
    intros ->. apply Hk. apply list_elem_of_fmap. by exists (k', v).
Qed.

Lemma assoc_get_perm ps ps' k :
  NoDup ps.*1 → ps ≡ₚ ps' → assoc_get k ps = assoc_get k ps'.
Proof.
  intros Hnd Hp.
  assert (NoDup ps'.*1) as Hnd' by by rewrite <- Hp.
  destruct (assoc_get k ps) as [v|] eqn:E.
  - symmetry. apply assoc_get_elem; [done|].
    rewrite <- Hp. by apply assoc_get_Some_elem.
  - symmetry. apply assoc_get_None. rewrite <- Hp. by apply assoc_get_None.
Qed.

Lemma assoc_get_own_entries ps k :
  NoDup ps.*1 → assoc_get k (own_entries ps) = assoc_get k ps.
Proof.
  intros H. apply assoc_get_perm; [by apply own_entries_keys_NoDup|].
  apply own_entries_perm.
Qed.

Lemma assoc_get_set_eq ps k v : assoc_get k (assoc_set k v ps) = Some v.
Proof.
  induction ps as [|[k' v'] r IH]; simpl.
  - by rewrite decide_True.
  - case_decide; simpl; [by rewrite decide_True | by rewrite decide_False].
Qed.

Lemma assoc_get_set_ne ps k k' v :
  k ≠ k' → assoc_get k' (assoc_set k v ps) = assoc_get k' ps.
Proof.
  intros Hne. induction ps as [|[k0 v0] r IH]; simpl.
  - destruct (decide (k' = k)); [congruence | done].
  - destruct (decide (k = k0)) as [->|Hk]; simpl.
    + destruct (decide (k' = k0)); [congruence | done].
    + case_decide; [done | apply IH].
Qed.

Lemma assoc_get_set ps k k' v :
  assoc_get k' (assoc_set k v ps)
  = if decide (k = k') then Some v else assoc_get k' ps.
Proof.
  case_decide; [subst; apply assoc_get_set_eq | by apply assoc_get_set_ne].
Qed.

Lemma assoc_set_keys ps k v :
  (assoc_set k v ps).*1 = if decide (k ∈ ps.*1) then ps.*1 else ps.*1 ++ [k].
Proof.
  induction ps as [|[k' v'] r IH].
  - destruct (decide (k ∈ ([] : list (string * A)).*1)) as [Hin|Hin]; [|done].
    by apply elem_of_nil in Hin.
  - cbn [assoc_set]. destruct (decide (k = k')) as [->|Hk].
    + destruct (decide (k' ∈ ((k', v') :: r).*1)) as [Hin|Hin]; [done|].
      exfalso. apply Hin. left.
    + rewrite fmap_cons, IH. cbn [fst].
      destruct (decide (k ∈ r.*1)) as [Hin|Hin];
        destruct (decide (k ∈ ((k', v') :: r).*1)) as [Hin'|Hin']; try done.
      * exfalso. apply Hin'. by right.
      * apply elem_of_cons in Hin' as [?|?]; done.
Qed.

Lemma assoc_set_NoDup ps k v : NoDup ps.*1 → NoDup (assoc_set k v ps).*1.
Proof.
  intros H. rewrite assoc_set_keys. case_decide as Hk; [done|].
  apply NoDup_app. split_and!; [done | | apply NoDup_singleton].
  intros x Hx ->%list_elem_of_singleton. done.
Qed.

Lemma assoc_get_fmap {B} (f : A → B) ps k :
  assoc_get k (prod_map id f <$> ps) = f <$> assoc_get k ps.
Proof.
  induction ps as [|[k' v'] r IH]; simpl; [done|].
  case_decide; [done | apply IH].
Qed.

End assoc_facts.

Lemma forallb_Forall {A} (f : A → bool) l :
  forallb f l = true ↔ Forall (λ x, f x = true) l.
Proof.
  induction l as [|x r IH]; cbn.
  - split; [constructor|done].
  - rewrite andb_true_iff, IH, Forall_cons. done.
Qed.

(** ** The merge over the defaults *)

Section defu_facts.
Import Defu.

Lemma assign_lookup_eq object key member :
  assoc_get key (assign object (key, member))
  = assigned (assoc_get key object) key member.
Proof.
  unfold assign, assigned. simpl.
  destruct (skipped_key key); [done|].
  destruct member as [v merge]. simpl.
  destruct v; try apply assoc_get_set_eq; try done;
    destruct (assoc_get key object) as [[]|]; by rewrite ?assoc_get_set_eq.
Qed.

Lemma assign_lookup_ne object key member k :
  key ≠ k → assoc_get k (assign object (key, member)) = assoc_get k object.
Proof.
  intros Hne. unfold assign. simpl.
  destruct (skipped_key key); [done|].
  destruct member as [v merge]. simpl.
  destruct v; try (by apply assoc_get_set_ne); try done;
    destruct (assoc_get key object) as [[]|]; by rewrite ?assoc_get_set_ne.
Qed.

Lemma assign_NoDup object m : NoDup object.*1 → NoDup (assign object m).*1.
Proof.
  intros H. unfold assign. destruct m as [key [v merge]]. simpl.
  destruct (skipped_key key); [done|].
  destruct v; try (by apply assoc_set_NoDup); try done;
    destruct (assoc_get key object) as [[]|]; by apply assoc_set_NoDup.
Qed.

Lemma foldl_assign_NoDup ms object :
  NoDup object.*1 → NoDup (foldl assign object ms).*1.
Proof.
  revert object. induction ms as [|m r IH]; intros object H; simpl; [done|].
  apply IH. by apply assign_NoDup.
Qed.

Lemma foldl_assign_lookup ms object k :
  NoDup ms.*1 →
  assoc_get k (foldl assign object ms)
  = match assoc_get k ms with
    | Some member => assigned (assoc_get k object) k member
    | None => assoc_get k object
    end.
Proof.
  revert object. induction ms as [|[key member] r IH]; intros object Hnd.
  - done.
  - apply NoDup_cons in Hnd as [Hkey Hnd]. cbn [foldl assoc_get]. cbn [fst] in Hkey.
    rewrite IH by done. destruct (decide (k = key)) as [->|Hne].
    + apply assoc_get_None in Hkey. rewrite Hkey.
      apply assign_lookup_eq.
    + rewrite assign_lookup_ne by done. done.
Qed.

Lemma keys_prod_map {A B} (f : A → B) (l : list (string * A)) :
  (prod_map id f <$> l).*1 = l.*1.
Proof. induction l as [|[k v] r IH]; [done|]. rewrite !fmap_cons, IH. done. Qed.

Lemma _defu_obj ps defaults :
  _defu (JObj ps) defaults
  = JObj (foldl assign
            (match defaults with JObj ds => own_entries ds | _ => [] end)
            (own_entries (prod_map id (λ v, (v, _defu v)) <$> ps))).
Proof.
  cbn [_defu]. do 3 f_equal.
  induction ps as [|[k v] r IH]; [done|]. rewrite fmap_cons. by f_equal.
Qed.

(** The property found at [k] after [_defu(base, defaults)]. *)
Lemma _defu_lookup ps ds k :
  NoDup ps.*1 → NoDup ds.*1 →
  get (_defu (JObj ps) (JObj ds)) k
  = match assoc_get k ps with
    | Some v => assigned (assoc_get k ds) k (v, _defu v)
    | None => assoc_get k ds
    end.
Proof.
  intros Hps Hds. rewrite _defu_obj. cbn [get].
  rewrite foldl_assign_lookup
    by (apply own_entries_keys_NoDup; by rewrite keys_prod_map).
  rewrite !assoc_get_own_entries by (by rewrite ?keys_prod_map).
  rewrite assoc_get_fmap. by destruct (assoc_get k ps).
Qed.

Lemma _defu_keys_NoDup ps ds :
  NoDup ds.*1 → ∃ rs, _defu (JObj ps) (JObj ds) = JObj rs ∧ NoDup rs.*1.
Proof.
  intros Hds. rewrite _defu_obj. eexists. split; [done|].
  apply foldl_assign_NoDup. by apply own_entries_keys_NoDup.
Qed.

Lemma defu_obj ps defaults :
  defu (JObj ps) defaults = _defu (JObj (own_entries ps)) defaults.
Proof. unfold defu. by rewrite (_defu_obj []). Qed.

Lemma defu_lookup ps ds k :
  NoDup ps.*1 → NoDup ds.*1 →
  get (defu (JObj ps) (JObj ds)) k
  = match assoc_get k ps with
    | Some v => assigned (assoc_get k ds) k (v, _defu v)
    | None => assoc_get k ds
    end.
Proof.
  intros Hps Hds. rewrite defu_obj, _defu_lookup; [|by apply own_entries_keys_NoDup|done].
  by rewrite assoc_get_own_entries.
Qed.

End defu_facts.

(** ** Running the loader's monad *)

Lemma throw_bind_inr {A B} (m : Throw.t A) (k : A → Throw.t B) b :
  Throw.bind m k = inr b → ∃ a, m = inr a ∧ k a = inr b.
Proof. destruct m as [e|a]; simpl; [discriminate | eauto]. Qed.

Lemma bind_inr {A B} (m : M A) (k : A → M B) n b n' :
  bind m k n = inr (b, n') ↔ ∃ a n1, m n = inr (a, n1) ∧ k a n1 = inr (b, n').
Proof.
  unfold bind. destruct (m n) as [e|[a n1]]; split.
  - done.
  - by intros (? & ? & [=] & _).
  - eauto.
  - by intros (? & ? & [= -> ->] & ?).
Qed.

Lemma bind_inl {A B} (m : M A) (k : A → M B) n e :
  bind m k n = inl e ↔
  m n = inl e ∨ ∃ a n1, m n = inr (a, n1) ∧ k a n1 = inl e.
Proof.
  unfold bind. destruct (m n) as [e'|[a n1]]; split.
  - intros [= ->]. by left.
  - intros [[= ->]|(? & ? & [=] & _)]. done.
  - right. eauto.
  - intros [[=]|(? & ? & [= -> ->] & ?)]. done.
Qed.

Lemma mapM'_inr {A B} (f : A → M B) l n ys n' :
  mapM' f l n = inr (ys, n') →
  Forall2 (λ x y, ∃ a b, f x a = inr (y, b)) l ys.
Proof.
  revert n ys. induction l as [|x r IH]; intros n ys; simpl.
  - intros [= <- _]. constructor.
  - intros (y & n1 & Hx & (ys' & n2 & Hr & [= <- <-])%bind_inr)%bind_inr.
    constructor; [by exists n, n1 | by eapply IH].
Qed.

(** ** The failure path *)

(** C10.  When the value caught by [loadLocalConfig] is not an [Error]
    instance, the function returns the default configuration as it is, with
    no [error] field: the caller cannot see that the load failed. *)
Theorem non_error_failure_is_silent (env : Env) (v : value) :
  load env getDefaultConfig 0 = inl (Thrown v) →
  loadLocalConfig env = Return getDefaultConfig
  ∧ get getDefaultConfig "error" = None.
Proof.
  intros H. unfold loadLocalConfig. rewrite H. done.
Qed.

Lemma non_error_failure_is_silent_witness :
  let env := {| hasItem := inl (Thrown (JStr "storage is down"));
                getItem := inr None;
                yaml_parse := λ _, inr JNull;
                randomUUID := λ n, pretty n |} in
  loadLocalConfig env = Return getDefaultConfig
  ∧ get getDefaultConfig "error" = None.
Proof.
  intros env.
  apply (non_error_failure_is_silent env (JStr "storage is down")).
  reflexivity.
Defined.

(** ** The merge over the built-in defaults *)

Lemma default_arrays_empty k ys :
  get getDefaultConfig k = Some (JArr ys) → ys = [].
Proof.
  cbn. repeat (case_decide; [by intros [=]|]). done.
Qed.

Lemma default_objects k ds :
  get getDefaultConfig k = Some (JObj ds) →
  k = "behaviour" ∧ JObj ds = default_behaviour.
Proof.
  cbn. repeat (case_decide; [subst; intros [=]; by subst|]). done.
Qed.

Lemma defu_default_lookup doc k :
  NoDup doc.*1 →
  get (Defu.defu (JObj doc) getDefaultConfig) k
  = match assoc_get k doc with
    | Some v => Defu.assigned (get getDefaultConfig k) k (v, Defu._defu v)
    | None => get getDefaultConfig k
    end.
Proof. intros H. apply (defu_lookup doc _ k H). compute_done. Qed.

Lemma defu_behaviour_lookup ps k :
  NoDup ps.*1 →
  get (Defu._defu (JObj ps) default_behaviour) k
  = match assoc_get k ps with
    | Some v => Defu.assigned (get default_behaviour k) k (v, Defu._defu v)
    | None => get default_behaviour k
    end.
Proof. intros H. apply (_defu_lookup ps _ k H). compute_done. Qed.

Lemma skipped_key_default k :
  Defu.skipped_key k = true →
  get getDefaultConfig k = None ∧ get default_behaviour k = None.
Proof.
  unfold Defu.skipped_key.
  intros [->%bool_decide_eq_true | ->%bool_decide_eq_true]%orb_true_iff; done.
Qed.


(** ** Schema validation *)

Section zod_facts.
Import Zod.

Lemma parse_object shape p ps :
  parse (z_object shape) p (JObj ps)
  = (concat ((λ kr, kr.2.1) <$> (member p ps <$> shape)),
     mergeObjectSync ((λ kr, (kr.1, kr.2.2)) <$> (member p ps <$> shape))).
Proof.
  cbn [parse]. cbv zeta.
  match goal with
  | |- context [?f shape] =>
      assert (f shape = member p ps <$> shape) as ->; [|done]
  end.
  induction shape as [|[k sk] r IH]; [done|].
  rewrite fmap_cons, <- IH. unfold member at 1. cbn [fst snd].
  by destruct (assoc_get k ps).
Qed.

Lemma mergeObjectSync_Some pairs v :
  mergeObjectSync pairs = Some v → Forall (λ kr, is_Some kr.2) pairs.
Proof.
  unfold mergeObjectSync.
  destruct (forallb _ pairs) eqn:E; [intros _|done].
  apply Forall_forall. intros kr Hin.
  rewrite forallb_forall in E. apply list_elem_of_In, E in Hin.
  by apply bool_decide_eq_true in Hin.
Qed.

Lemma mergeObjectSync_is_Some pairs :
  Forall (λ kr, is_Some kr.2) pairs → is_Some (mergeObjectSync pairs).
Proof.
  intros H. unfold mergeObjectSync.
  assert (forallb (λ kr : string * option (option value),
                     bool_decide (is_Some kr.2)) pairs = true) as ->; [|done].
  apply forallb_forall. intros kr Hin%list_elem_of_In.
  apply bool_decide_eq_true. by eapply Forall_forall in H.
Qed.

Lemma accepted_iff ps :
  accepted (JObj ps) ↔
  Forall (λ kr, is_Some kr.2.2) (member [] ps <$> Schema.schema_shape).
Proof.
  unfold accepted, validateConfigSchema, schema_parse, Schema.schema.
  fold Schema.schema_shape. rewrite parse_object. split.
  - intros [v Hv].
    destruct (mergeObjectSync _) as [v'|] eqn:E; [|done].
    apply mergeObjectSync_Some in E.
    by rewrite Forall_fmap in E.
  - intros H.
    destruct (mergeObjectSync_is_Some
                ((λ kr, (kr.1, kr.2.2)) <$> (member [] ps <$> Schema.schema_shape)))
      as [v Hv]; [by rewrite Forall_fmap|].
    rewrite Hv. eauto.
Qed.

End zod_facts.

Lemma assoc_get_filter_ne {A} (ps : list (string * A)) k k' :
  k' ≠ k → assoc_get k' (filter (λ kv, kv.1 ≠ k) ps) = assoc_get k' ps.
Proof.
  intros Hne. induction ps as [|[k0 v0] r IH]; [done|].
  rewrite filter_cons. cbn [fst]. destruct (decide (k0 ≠ k)) as [H|H].
  - cbn [assoc_get]. by rewrite IH.
  - cbn [assoc_get]. rewrite IH.
    destruct (decide (k' = k0)) as [->|]; [|done].
    exfalso. apply H. done.
Qed.

Lemma assoc_get_filter_eq {A} (ps : list (string * A)) k :
  assoc_get k (filter (λ kv, kv.1 ≠ k) ps) = None.
Proof.
  apply assoc_get_None. intros ((k' & v) & -> & Hin%list_elem_of_filter)%list_elem_of_fmap.
  by destruct Hin as [? _].
Qed.

Lemma rejects_non_objects config :
  (∀ ps, config ≠ JObj ps) → ∃ issues, validateConfigSchema config = inl issues.
Proof.
  intros H. destruct config; try (eexists; reflexivity). by destruct (H props).
Qed.

(** C9.  A document that has no [services] field is rejected by
    [validateConfigSchema], whatever else it holds; and [services] is the
    only field that must be there: the document made of an empty [services]
    alone is accepted, and taking any other field out of an accepted
    document leaves it accepted. *)
Theorem services_is_the_mandatory_field :
  (∀ config, get config "services" = None →
             ∃ issues, validateConfigSchema config = inl issues)
  ∧ accepted (JObj [("services", JArr [])])
  ∧ (∀ ps k, k ≠ "services" → accepted (JObj ps) →
             accepted (JObj (filter (λ kv, kv.1 ≠ k) ps))).
Proof.
  split_and!.
  - intros config Hget.
    destruct (validateConfigSchema config) as [issues|v] eqn:E; [eauto|].
    exfalso. destruct config as [| | | | |ps]; try done.
    assert (accepted (JObj ps)) as Hacc by (by exists v).
    apply accepted_iff in Hacc. cbn [get] in Hget.
    rewrite Forall_fmap in Hacc.
    assert (("services", Zod.z_union [Zod.z_array Schema.service;
                                      Zod.z_record (Zod.z_array Schema.service)])
              ∈ Schema.schema_shape) as Hin by (unfold Schema.schema_shape; set_solver).
    eapply Forall_forall in Hacc; [|exact Hin].
    revert Hacc. unfold member, compose. cbn [fst snd]. rewrite Hget.
    cbn. by intros [? [=]].
  - by eexists.
  - intros ps k Hk Hacc. apply accepted_iff. apply accepted_iff in Hacc.
    rewrite Forall_fmap, Forall_forall. rewrite Forall_fmap, Forall_forall in Hacc.
    intros [key sk] Hin. specialize (Hacc _ Hin).
    unfold compose, member in *. cbn [fst snd] in *.
    destruct (decide (key = k)) as [->|Hne].
    + rewrite assoc_get_filter_eq. clear Hacc.
      unfold Schema.schema_shape in Hin.
      repeat (apply elem_of_cons in Hin as [[= -> ->]|Hin];
              [first [done | cbn; eauto]|]).
      by apply elem_of_nil in Hin.
    + by rewrite assoc_get_filter_ne.
Qed.

Section strip_facts.
Import Zod.

Lemma parse_array element p xs :
  parse (z_array element) p (JArr xs)
  = (concat (imap (λ i x, parse element (p ++ [PIdx i]) x) xs).*1,
     mergeArray (imap (λ i x, parse element (p ++ [PIdx i]) x) xs).*2).
Proof. done. Qed.

Lemma parse_record valueType p ps :
  parse (z_record valueType) p (JObj ps)
  = (concat ((λ kv, (parse valueType (p ++ [PKey kv.1]) kv.2).1) <$> own_entries ps),
     mergeObjectSync
       ((λ kv, (kv.1, Some <$> (parse valueType (p ++ [PKey kv.1]) kv.2).2))
          <$> own_entries ps)).
Proof.
  cbn [parse]. cbv zeta. rewrite <- !list_fmap_compose. done.
Qed.

Lemma parse_union options p d :
  parse (z_union options) p d = try_options p d options [].
Proof. done. Qed.

Lemma try_options_result p d opts tried :
  (try_options p d opts tried).2
  = (let o := list_find (λ o, is_Some (parse o p d).2) opts in
     o ≫= λ io, (parse io.2 p d).2).
Proof.
  revert tried. induction opts as [|o rest IH]; intros tried; [done|].
  cbn [try_options list_find]. cbv zeta.
  destruct (parse o p d).2 as [v|] eqn:E.
  - rewrite decide_True by eauto. cbn. by rewrite E.
  - rewrite decide_False by (by intros [? [=]]).
    rewrite IH. cbv zeta. by destruct (list_find _ rest) as [[i o']|].
Qed.

Lemma parse_undefined_path s p p' :
  (parse_undefined s p).2 = (parse_undefined s p').2.
Proof.
  induction s using schema_ind; try done.
  cbn [parse_undefined].
  generalize (@nil (list issue)) at 1 as t1.
  generalize (@nil (list issue)) as t2.
  induction H as [|o rest Ho _ IH]; intros t2 t1; [done|].
  rewrite <- Ho. destruct (parse_undefined o p).2; [done|]. apply IH.
Qed.

Lemma mergeObjectSync_ext pairs pairs' :
  pairs = pairs' → mergeObjectSync pairs = mergeObjectSync pairs'.
Proof. by intros ->. Qed.

Lemma imap_snd_ext {A B C} (f g : nat → A → B * C) (xs : list A) :
  (∀ i x, (f i x).2 = (g i x).2) → (imap f xs).*2 = (imap g xs).*2.
Proof.
  revert f g. induction xs as [|x r IH]; intros f g H; [done|].
  cbn [imap fmap list_fmap]. f_equal; [apply H|].
  apply IH. intros i y. apply H.
Qed.

Lemma parse_path s : ∀ p p' d, (parse s p d).2 = (parse s p' d).2.
Proof.
  induction s as [| | | |s IH|s IH|s IH|s IH|shape IH|options IH]
    using schema_ind; intros p p' d.
  - by destruct d.
  - by destruct d as [| |[]| | |].
  - by destruct d.
  - done.
  - apply IH.
  - destruct d; try done; apply IH.
  - destruct d as [| | | |xs|]; try done. rewrite !parse_array. cbn [snd].
    f_equal. apply imap_snd_ext. intros i x. apply IH.
  - destruct d as [| | | | |ps]; try done. rewrite !parse_record. cbn [snd].
    f_equal. apply list_fmap_ext. intros _ [k v] _. cbn [fst snd].
    by rewrite (IH _ (p' ++ [PKey k])).
  - destruct d as [| | | | |ps]; try done. rewrite !parse_object. cbn [snd].
    f_equal. rewrite <- !list_fmap_compose.
    apply Forall_fmap_ext. eapply Forall_impl; [exact IH|].
    intros [k sk] Hsk. unfold compose, member. cbn [fst snd] in *.
    destruct (assoc_get k ps) as [x|]; cbn [fst snd].
    + by rewrite (Hsk _ (p' ++ [PKey k])).
    + by rewrite (parse_undefined_path _ _ (p' ++ [PKey k])).
  - rewrite !parse_union, !try_options_result. cbv zeta.
    assert (list_find (λ o, is_Some (parse o p d).2) options
            = list_find (λ o, is_Some (parse o p' d).2) options) as ->.
    { induction IH as [|o rest Ho _ IHr]; [done|].
      cbn [list_find]. rewrite (Ho p p' d).
      destruct (decide (is_Some (parse o p' d).2)); [done|].
      by rewrite IHr. }
    destruct (list_find _ options) as [[i o]|] eqn:E; [|done].
    cbn. apply list_find_Some in E as (Hin%list_elem_of_lookup_2 & _).
    rewrite Forall_forall in IH. by apply IH.
Qed.


Lemma strip_scalar s d :
  (∀ xs, d ≠ JArr xs) → (∀ ps, d ≠ JObj ps) → strip s d = d.
Proof.
  intros Harr Hobj.
  induction s as [| | | |s IH|s IH|s IH|s IH|shape IH|options IH]
    using schema_ind; try done.
  - destruct d; try done. by destruct (Harr elems).
  - destruct d; try done. by destruct (Hobj props).
  - destruct d; try done. by destruct (Hobj props).
  - cbn [strip]. induction IH as [|o rest Ho _ IHr]; [done|].
    rewrite Ho, IHr. by destruct (accepts o d).
Qed.

Lemma mapM_id_imap {A} (f : nat → A → list issue * option value)
    (g : A → value) xs ys :
  mapM id (imap f xs).*2 = Some ys →
  (∀ i x y, (f i x).2 = Some y → y = g x) →
  ys = g <$> xs.
Proof.
  revert f ys. induction xs as [|x r IH]; intros f ys.
  - by intros [= <-] _.
  - cbn [imap fmap list_fmap mapM]. intros Hm Hf.
    destruct (f 0%nat x).2 as [y|] eqn:E; [|done].
    destruct (mapM id (imap (f ∘ S) r).*2) as [ys'|] eqn:E'; [|done].
    cbn in Hm. injection Hm as <-.
    f_equal; [by eapply Hf|].
    apply (IH (f ∘ S)); [done|]. intros i x' y'. apply Hf.
Qed.

Lemma mergeObjectSync_inv pairs v :
  mergeObjectSync pairs = Some v →
  Forall (λ kr, is_Some kr.2) pairs
  ∧ v = JObj (omap (λ kr : string * option (option value),
                      match kr.2 with
                      | Some (Some v) =>
                          if decide (kr.1 = "__proto__") then None
                          else Some (kr.1, v)
                      | _ => None
                      end) pairs).
Proof.
  intros H. split; [by eapply mergeObjectSync_Some|].
  revert H. unfold mergeObjectSync. destruct (forallb _ pairs); [|done].
  by intros [= <-].
Qed.

Lemma record_members (f : string * value → option value) (g : value → value)
    (l : list (string * value)) :
  Forall (λ kv, is_Some (Some <$> f kv)) l →
  (∀ kv y, f kv = Some y → y = g kv.2) →
  omap (λ kr : string * option (option value),
          match kr.2 with
          | Some (Some v) =>
              if decide (kr.1 = "__proto__") then None else Some (kr.1, v)
          | _ => None
          end) ((λ kv, (kv.1, Some <$> f kv)) <$> l)
  = omap (λ kv, if decide (kv.1 = "__proto__") then None
                else Some (kv.1, g kv.2)) l.
Proof.
  intros Hall Hf. induction Hall as [|[k x] r Hx _ IH]; [done|].
  rewrite fmap_cons. cbn [omap list_omap fst snd].
  destruct (f (k, x)) as [y|] eqn:E; [|by destruct Hx].
  cbn [fmap option_fmap option_map]. apply Hf in E as ->. cbn [snd].
  destruct (decide (k = "__proto__")); [exact IH | by f_equal].
Qed.

Lemma member_present p ps k sk x :
  assoc_get k ps = Some x →
  member p ps (k, sk)
  = (k, ((parse sk (p ++ [PKey k]) x).1, Some <$> (parse sk (p ++ [PKey k]) x).2)).
Proof. unfold member. cbn [fst snd]. by intros ->. Qed.

Lemma member_absent p ps k sk :
  assoc_get k ps = None →
  member p ps (k, sk)
  = (k, ((parse_undefined sk (p ++ [PKey k])).1,
         if (parse_undefined sk (p ++ [PKey k])).2 then Some None else None)).
Proof. unfold member. cbn [fst snd]. by intros ->. Qed.

(** What [validateConfigSchema] returns is the restriction of its input. *)
Lemma parse_strip s : ∀ p d d', (parse s p d).2 = Some d' → d' = strip s d.
Proof.
  induction s as [| | | |s IH|s IH|s IH|s IH|shape IH|options IH]
    using schema_ind; intros p d d'.
  - destruct d; cbn; congruence.
  - destruct d as [| |[]| | |]; cbn; congruence.
  - destruct d; cbn; congruence.
  - cbn. congruence.
  - apply IH.
  - destruct d; try apply IH. cbn [parse snd]. intros [= <-].
    by rewrite strip_scalar.
  - destruct d as [| | | |xs|]; try done. rewrite parse_array. cbn [snd strip].
    unfold mergeArray. destruct (mapM id _) as [ys|] eqn:E; [|done].
    intros [= <-]. f_equal. eapply mapM_id_imap; [exact E|].
    intros i x y. apply IH.
  - destruct d as [| | | | |ps]; try done. rewrite parse_record. cbn [snd strip].
    intros [Hall ->]%mergeObjectSync_inv. f_equal.
    rewrite Forall_fmap in Hall.
    apply (record_members (λ kv, (parse s (p ++ [PKey kv.1]) kv.2).2) (strip s));
      [exact Hall|].
    intros [k x] y. apply IH.
  - destruct d as [| | | | |ps]; try done. rewrite parse_object. cbn [snd strip].
    intros [Hall ->]%mergeObjectSync_inv. f_equal.
    rewrite !Forall_fmap in Hall.
    induction IH as [|[k sk] rest Hsk _ IHr]; [done|].
    apply Forall_cons in Hall as [Hk Hall].
    rewrite !fmap_cons. cbn [omap list_omap]. unfold compose in Hk.
    destruct (assoc_get k ps) as [x|] eqn:Ek.
    + rewrite (member_present _ _ _ _ _ Ek) in *. cbn [fst snd] in *.
      destruct (parse sk (p ++ [PKey k]) x).2 as [y|] eqn:E; [|by destruct Hk].
      cbn [fmap option_fmap option_map]. apply Hsk in E as ->.
      destruct (decide (k = "__proto__")); [by apply IHr | f_equal; by apply IHr].
    + rewrite (member_absent _ _ _ _ Ek) in *. cbn [fst snd] in *.
      destruct (parse_undefined sk (p ++ [PKey k])).2; [|by destruct Hk].
      by apply IHr.
  - rewrite parse_union, try_options_result. cbv zeta. cbn [strip].
    induction IH as [|o rest Ho _ IHr]; [done|].
    cbn [list_find]. unfold accepts at 1.
    rewrite (parse_path o [] p d).
    destruct (parse o p d).2 as [v|] eqn:E.
    + rewrite decide_True by eauto. cbn. rewrite E. intros [= <-].
      by eapply Ho.
    + rewrite decide_False by (by intros [? [=]]).
      intros H. apply IHr. revert H.
      destruct (list_find _ rest) as [[i o']|]; [|done]. done.
Qed.

End strip_facts.

Section validation_result.
Import Zod.

Lemma strip_object shape ps :
  strip (z_object shape) (JObj ps)
  = JObj (omap (λ ks, if decide (ks.1 = "__proto__") then None
                      else (λ x, (ks.1, strip ks.2 x)) <$> assoc_get ks.1 ps)
            shape).
Proof.
  cbn [strip]. f_equal. induction shape as [|[k sk] rest IH]; [done|].
  cbn [omap list_omap fst snd]. rewrite IH.
  destruct (assoc_get k ps); destruct (decide (k = "__proto__")); done.
Qed.

Lemma strip_object_lookup shape ps k :
  NoDup shape.*1 → k ≠ "__proto__" →
  get (strip (z_object shape) (JObj ps)) k
  = match assoc_get k shape with
    | Some sk => strip sk <$> assoc_get k ps
    | None => None
    end.
Proof.
  intros Hnd Hk. rewrite strip_object. cbn [get].
  induction shape as [|[k' sk] rest IH]; [done|].
  apply NoDup_cons in Hnd as [Hk' Hnd]. cbn [fst] in Hk'.
  cbn [omap list_omap assoc_get fst snd].
  destruct (decide (k = k')) as [<-|Hne].
  - rewrite decide_False by done.
    destruct (assoc_get k ps) as [x|]; cbn.
    + by rewrite decide_True.
    + rewrite IH by done. apply assoc_get_None in Hk'. by rewrite Hk'.
  - destruct (decide (k' = "__proto__")); [by apply IH|].
    destruct (assoc_get k' ps) as [x|]; cbn; [|by apply IH].
    rewrite decide_False by done. by apply IH.
Qed.

Lemma strip_object_proto shape ps :
  get (strip (z_object shape) (JObj ps)) "__proto__" = None.
Proof.
  rewrite strip_object. cbn [get].
  induction shape as [|[k sk] rest IH]; [done|].
  cbn [omap list_omap fst snd].
  destruct (decide (k = "__proto__")) as [->|Hne]; [done|].
  destruct (assoc_get k ps); cbn; [|done].
  by rewrite decide_False by done.
Qed.

(** C4, as amended.  What [validateConfigSchema] returns for an input it
    accepts is the input restricted to the keys the schema names: a key the
    schema does not name is dropped (at the top level and, in the same way,
    in each tag, service, icon and status), and the values that are kept
    are not coerced: the strings and the boolean of the top level are those
    of the input. *)
Theorem validation_returns_the_restriction (config validated : value) :
  validateConfigSchema config = inr validated →
  validated = strip Schema.schema config
  ∧ (∀ k, k ∉ Schema.schema_shape.*1 → get validated k = None)
  ∧ (∀ k, k ∈ ["title"; "lang"; "theme"; "checkUpdates"] →
          get validated k = get config k).
Proof.
  unfold validateConfigSchema, schema_parse.
  destruct (parse Schema.schema [] config) as [issues [v|]] eqn:E; [|done].
  intros [= <-].
  assert (v = strip Schema.schema config) as ->.
  { apply (parse_strip _ []). by rewrite E. }
  split; [done|].
  destruct config as [| | | | |ps]; try done.
  unfold Schema.schema. split.
  - intros k Hk.
    destruct (decide (k = "__proto__")) as [->|Hp].
    + apply strip_object_proto.
    + rewrite strip_object_lookup; [|compute_done|done].
      apply assoc_get_None in Hk. by rewrite Hk.
  - intros k Hk.
    rewrite strip_object_lookup; [|compute_done|].
    + repeat (apply elem_of_cons in Hk as [->|Hk]; [cbn; by destruct (assoc_get _ ps)|]).
      by apply elem_of_nil in Hk.
    + intros ->.
      repeat (apply elem_of_cons in Hk as [Hk|Hk]; [discriminate|]).
      by apply elem_of_nil in Hk.
Qed.

Lemma validation_returns_the_restriction_witness :
  let config := JObj [("title", JStr "Home");
                      ("services", JArr [JObj [("title", JStr "Git"); ("tags", JArr [JStr "x"])]])] in
  let validated := JObj [("title", JStr "Home");
                         ("services", JArr [JObj [("title", JStr "Git")]])] in
  validated = strip Schema.schema config
  ∧ get validated "title" = get config "title".
Proof.
  intros config validated.
  destruct (validation_returns_the_restriction config validated eq_refl)
    as (H1 & _ & H3).
  split; [exact H1|]. apply H3. set_solver.
Defined.

(** C4 fails as stated: a field that the schema does not name is dropped
    from the returned value. *)
Lemma validation_drops_unknown_fields :
  let config := JObj [("services", JArr []);
                      ("behaviour", JObj [("target", JStr "_self")])] in
  validateConfigSchema config = inr (JObj [("services", JArr [])])
  ∧ JObj [("services", JArr [])] ≠ config.
Proof. split; [reflexivity | discriminate]. Qed.

End validation_result.

(** ** Normalisation of the services *)

Lemma mapM'_ret {A B} (g : A → B) l n :
  mapM' (λ x, ret (g x)) l n = inr (g <$> l, n).
Proof.
  induction l as [|x r IH]; [done|].
  cbn [mapM']. unfold bind at 1. cbn. unfold bind. by rewrite IH.
Qed.

Lemma determineItem_inr env tags item n service n' :
  determineItem env tags item n = inr (service, n') →
  n' = S n ∧ service = normalized tags (randomUUID env n) item ∧ item_ok item.
Proof.
  unfold determineItem, normalized, tag_refs, item_ok.
  intros (id & n1 & [= <- <-] & H)%bind_inr.
  apply bind_inr in H as (item_tags & n2 & Hp & H).
  assert (item ≠ JNull ∧ item_tags = get item "tags" ∧ n2 = S n) as (Hnn & -> & ->).
  { destruct item; try done; by injection Hp as <- <-. }
  apply bind_inr in H as (resolved & n3 & Hr & [= <- <-]).
  destruct (or_else (get item "tags") (JArr [])) as [| | | |refs|] eqn:E;
    try done.
  cbn [js_map] in Hr. rewrite mapM'_ret in Hr. injection Hr as <- <-.
  eauto.
Qed.

Lemma determineItem_ok env tags item n :
  item_ok item →
  determineItem env tags item n
  = inr (normalized tags (randomUUID env n) item, S n).
Proof.
  intros [Hnn [refs Hrefs]]. unfold determineItem, normalized, tag_refs.
  unfold bind at 1. cbn [uuid].
  assert (prop item "tags" (S n) = inr (get item "tags", S n)) as Hp
    by (by destruct item).
  unfold bind at 1. rewrite Hp. rewrite Hrefs.
  unfold bind at 1. cbn [js_map]. by rewrite mapM'_ret.
Qed.

Lemma determineService_inr env items tags n services n' :
  determineService env items tags n = inr (services, n') →
  ∃ xs, items = JArr xs
        ∧ n' = (n + length xs)%nat
        ∧ services = imap (λ i, normalized tags (randomUUID env (n + i))) xs
        ∧ Forall item_ok xs.
Proof.
  unfold determineService. destruct items as [| | | |xs|]; try done.
  cbn [js_map]. intros H. exists xs. split; [done|].
  revert n n' services H. induction xs as [|x r IH]; intros n n' services.
  - intros [= <- <-]. rewrite Nat.add_0_r. by repeat split.
  - cbn [mapM'].
    intros (s & n1 & (-> & -> & Hok)%determineItem_inr & H)%bind_inr.
    apply bind_inr in H as (ss & n2 & (-> & -> & Hall)%IH & [= <- <-]).
    cbn [length imap]. rewrite Nat.add_0_r. split_and!.
    + lia.
    + f_equal. apply imap_ext. intros i y _. cbn. do 2 f_equal. lia.
    + by constructor.
Qed.

(** ** Tags *)


Lemma declares_name name t :
  declares name t = true ↔ get t "name" = Some (JStr name).
Proof.
  unfold declares. split.
  - destruct (get t "name") as [[]|]; try done. by intros ->%bool_decide_eq_true.
  - intros ->. by apply bool_decide_eq_true.
Qed.

Lemma createTagMap_inr declared n tags n' :
  createTagMap (JArr declared) n = inr (tags, n') →
  n' = n
  ∧ Forall (λ t, t ≠ JNull) declared
  ∧ ∀ name, tags !! name = last (filter (λ t, declares name t = true) declared).
Proof.
  cbn [createTagMap]. revert tags n'.
  induction declared as [|x xs IH] using rev_ind; intros tags n'.
  - intros [= <- <-]. split_and!; [done|constructor|]. intros name.
    apply lookup_empty.
  - rewrite foldl_app. cbn [foldl].
    intros (m & n1 & (-> & Hall & Hm)%IH & H)%bind_inr.
    apply bind_inr in H as (nm & n2 & Hp & [= <- <-]).
    assert (x ≠ JNull ∧ nm = get x "name" ∧ n2 = n) as (Hx & -> & ->).
    { destruct x; try done; by injection Hp as <- <-. }
    split_and!; [done|apply Forall_app; by repeat constructor|].
    intros name. rewrite filter_app, filter_cons, filter_nil.
    destruct (decide (declares name x = true)) as [Hd|Hd].
    + rewrite last_snoc. apply declares_name in Hd. rewrite Hd.
      apply lookup_insert_eq.
    + rewrite app_nil_r, <- Hm.
      destruct (get x "name") as [[| | |k| |]|] eqn:E; try done.
      apply lookup_insert_ne. intros ->. apply Hd. by apply declares_name.
Qed.

Lemma last_filter_elem {A} (P : A → Prop) `{!∀ x, Decision (P x)} l x :
  last (filter P l) = Some x → P x ∧ x ∈ l.
Proof.
  intros Hl. apply last_Some in Hl as [l' Hl].
  assert (x ∈ filter P l) as Hin by (rewrite Hl; set_solver).
  by apply list_elem_of_filter in Hin.
Qed.



Lemma determineService_ok env xs tags n :
  Forall item_ok xs →
  determineService env (JArr xs) tags n
  = inr (imap (λ i, normalized tags (randomUUID env (n + i))) xs,
         (n + length xs)%nat).
Proof.
  unfold determineService. cbn [js_map]. intros H. revert n.
  induction H as [|x r Hx _ IH]; intros n.
  - cbn. by rewrite Nat.add_0_r.
  - cbn [mapM']. unfold bind at 1. rewrite determineItem_ok by done.
    unfold bind at 1. rewrite IH. cbn [ret imap length].
    rewrite Nat.add_0_r. unfold ret.
    replace (n + S (length r))%nat with (S n + length r)%nat by lia.
    do 3 f_equal. apply imap_ext. intros i y _. cbn. do 2 f_equal. lia.
Qed.

(** The groups of a [services] mapping. *)
Lemma groups_inr env tags entries n groups n' :
  mapM' (λ entry : string * value,
           items ⇐ determineService env entry.2 tags;
           ret (JObj [("title", JStr entry.1); ("items", JArr items)]))
    entries n = inr (groups, n') →
  groups = groups_of env tags n entries
  ∧ n' = (n + length (entries ≫= λ entry, elements entry.2))%nat
  ∧ Forall (λ entry, ∃ xs, entry.2 = JArr xs ∧ Forall item_ok xs) entries.
Proof.
  revert n n' groups. induction entries as [|[k v] rest IH]; intros n n' groups.
  - intros [= <- <-]. rewrite Nat.add_0_r. by repeat split.
  - cbn [mapM']. intros (g & n1 & Hg & H)%bind_inr.
    apply bind_inr in Hg as (items & n2 & Hitems & [= <- <-]).
    apply determineService_inr in Hitems as (xs & Hv & -> & -> & Hok).
    cbn [snd] in Hv. subst v.
    apply bind_inr in H as (gs & n3 & (-> & -> & Hall)%IH & [= <- <-]).
    cbn [groups_of snd elements fst mbind list_bind]. split_and!.
    + done.
    + rewrite length_app. cbn [elements]. lia.
    + constructor; [by exists xs | done].
Qed.

Lemma groups_ok env tags entries n :
  Forall (λ entry, ∃ xs, entry.2 = JArr xs ∧ Forall item_ok xs) entries →
  mapM' (λ entry : string * value,
           items ⇐ determineService env entry.2 tags;
           ret (JObj [("title", JStr entry.1); ("items", JArr items)]))
    entries n
  = inr (groups_of env tags n entries,
         (n + length (entries ≫= λ entry, elements entry.2))%nat).
Proof.
  intros H. revert n. induction H as [|[k v] rest (xs & Hv & Hok) _ IH]; intros n.
  - cbn. by rewrite Nat.add_0_r.
  - cbn [snd] in Hv. subst v. cbn [mapM'].
    unfold bind at 1. unfold bind at 1. cbn [snd fst].
    rewrite determineService_ok by done. cbn [ret].
    unfold bind at 1. rewrite IH. cbn [groups_of snd elements mbind list_bind].
    rewrite length_app. unfold ret, group_of. cbn [fst snd elements].
    by rewrite Nat.add_assoc.
Qed.

Lemma group_of_items env tags n entry :
  elements (default JNull (get (group_of env tags n entry) "items"))
  = imap (λ i, normalized tags (randomUUID env (n + i))) (elements entry.2).
Proof. done. Qed.

Lemma groups_of_items env tags entries n :
  (groups_of env tags n entries
     ≫= λ group, elements (default JNull (get group "items")))
  = imap (λ i, normalized tags (randomUUID env (n + i)))
      (entries ≫= λ entry, elements entry.2).
Proof.
  revert n. induction entries as [|entry rest IH]; intros n; [done|].
  cbn [groups_of mbind list_bind]. rewrite imap_app, IH, group_of_items.
  f_equal. apply imap_ext. intros i y _. cbn. do 2 f_equal. lia.
Qed.

Lemma groups_of_length env tags entries n :
  length (groups_of env tags n entries) = length entries.
Proof.
  revert n. induction entries as [|entry rest IH]; intros n; [done|].
  cbn. by rewrite IH.
Qed.

Lemma groups_of_titles env tags entries n :
  (λ group, get group "title") <$> groups_of env tags n entries
  = (λ entry, Some (JStr entry.1)) <$> entries.
Proof.
  revert n. induction entries as [|entry rest IH]; intros n; [done|].
  cbn [groups_of]. rewrite !fmap_cons, IH. done.
Qed.

(** What [normalizeServices] builds, shape by shape. *)
Lemma normalizeServices_inr env config tags n groups n' :
  normalizeServices env config tags n = inr (groups, n') →
  n' = (n + length (document_services config))%nat
  ∧ Forall item_ok (document_services config)
  ∧ config_services (JObj [("services", JArr groups)])
    = imap (λ i, normalized tags (randomUUID env (n + i)))
        (document_services config)
  ∧ match get config "services" with
    | Some (JArr xs) =>
        groups = [JObj [("items",
                         JArr (imap (λ i, normalized tags (randomUUID env (n + i))) xs))]]
    | Some (JObj ps) =>
        groups = groups_of env tags n (own_entries ps)
        ∧ Forall (λ entry, ∃ xs, entry.2 = JArr xs) (own_entries ps)
    | _ => groups = []
    end.
Proof.
  unfold normalizeServices, document_services, config_services.
  destruct (get config "services") as [[|b|z|s|xs|ps]|] eqn:E;
    cbn [isArray default or_else].
  - intros [= <- <-]. rewrite Nat.add_0_r. by repeat split.
  - destruct b; intros [= <- <-]; rewrite Nat.add_0_r; by repeat split.
  - destruct z as [z| | | |]; cbn; [destruct (z =? 0)%Z; cbn|..];
      intros [= <- <-]; rewrite Nat.add_0_r; by repeat split.
  - destruct s as [|a s]; [intros [= <- <-]; rewrite Nat.add_0_r; by repeat split|].
    cbn. by unfold bind.
  - intros (items & n1 & (ys & [= <-] & -> & -> & Hok)%determineService_inr
             & [= <- <-])%bind_inr.
    split_and!; [done..| |done]. cbn [get assoc_get].
    rewrite decide_True by done. cbn. by rewrite app_nil_r.
  - cbn [truthy spread]. intros (-> & -> & Hall)%groups_inr.
    split_and!; [done| | |done|].
    + apply Forall_bind. eapply Forall_impl; [exact Hall|].
      intros [k v] (xs & Hv & Hxs). cbn [snd] in *. by subst v.
    + cbn [get assoc_get]. rewrite decide_True by done. apply groups_of_items.
    + eapply Forall_impl; [exact Hall|]. intros [k v] (xs & Hv & _). by eexists.
  - intros [= <- <-]. rewrite Nat.add_0_r. by repeat split.
Qed.

Section accepted_shape.
Import Zod.

Lemma mapM_id_is_Some {A} (l : list (option A)) :
  is_Some (mapM id l) → Forall is_Some l.
Proof.
  induction l as [|[x|] r IH]; [constructor| |].
  - cbn. destruct (mapM id r); [|by intros [? [=]]].
    intros _. constructor; [by eexists | apply IH; by eexists].
  - cbn. by intros [? [=]].
Qed.

Lemma imap_Forall {A B} (P : B → Prop) (f : nat → A → B) (l : list A) :
  Forall P (imap f l) → Forall (λ x, ∃ i, P (f i x)) l.
Proof.
  revert f. induction l as [|x r IH]; intros f; [constructor|].
  cbn [imap]. intros [Hx Hr]%Forall_cons. constructor; [by eexists|].
  apply IH in Hr. eapply Forall_impl; [exact Hr|].
  intros y [i Hy]. by exists (S i).
Qed.

Lemma valid_array e p d :
  is_Some (parse (z_array e) p d).2 →
  ∃ xs, d = JArr xs ∧ Forall (λ x, accepts e x = true) xs.
Proof.
  destruct d as [| | | |xs|]; try by intros [? [=]].
  rewrite parse_array. cbn [snd]. unfold mergeArray.
  intros Hs. exists xs. split; [done|].
  assert (is_Some (mapM id (imap (λ i x, parse e (p ++ [PIdx i]) x) xs).*2)) as Hm.
  { destruct (mapM id _); [by eexists | by destruct Hs as [? [=]]]. }
  apply mapM_id_is_Some in Hm. rewrite Forall_fmap in Hm.
  apply imap_Forall in Hm. eapply Forall_impl; [exact Hm|].
  intros x [i Hx]. unfold accepts. cbn in Hx.
  rewrite (parse_path e [] (p ++ [PIdx i])). by destruct Hx as [y ->].
Qed.

Lemma valid_object shape p d :
  is_Some (parse (z_object shape) p d).2 → is_object d.
Proof.
  destruct d; try by intros [? [=]]. intros _. by eexists.
Qed.

Lemma valid_record e p d :
  is_Some (parse (z_record e) p d).2 →
  ∃ ps, d = JObj ps ∧ Forall (λ kv, accepts e kv.2 = true) (own_entries ps).
Proof.
  destruct d as [| | | | |ps]; try by intros [? [=]].
  rewrite parse_record. cbn [snd]. intros [v Hv]. exists ps. split; [done|].
  apply mergeObjectSync_Some in Hv. rewrite Forall_fmap in Hv.
  eapply Forall_impl; [exact Hv|]. intros [k x]. unfold compose, accepts.
  cbn [fst snd]. rewrite (parse_path e [] (p ++ [PKey k])).
  by destruct (parse e (p ++ [PKey k]) x).2; [|intros [? [=]]].
Qed.

Lemma accepts_service_object x : accepts Schema.service x = true → is_object x.
Proof.
  unfold accepts, Schema.service. intros H.
  eapply (valid_object _ [] x).
  destruct (parse _ [] x).2 eqn:E; [|done]. rewrite E. by eexists.
Qed.

Lemma accepts_services xs :
  Forall (λ x, accepts Schema.service x = true) xs → Forall is_object xs.
Proof. intros H. eapply Forall_impl; [exact H | apply accepts_service_object]. Qed.

(** The two shapes of [services] in a document that passes validation. *)
Lemma accepted_services config :
  accepted config →
  (∃ xs, get config "services" = Some (JArr xs) ∧ Forall is_object xs)
  ∨ (∃ ps, get config "services" = Some (JObj ps)
           ∧ Forall (λ kv, ∃ xs, kv.2 = JArr xs ∧ Forall is_object xs)
               (own_entries ps)).
Proof.
  intros Hacc.
  destruct config as [| | | | |ps];
    try (destruct Hacc as [v Hv];
         match type of Hv with
         | validateConfigSchema ?c = _ =>
             destruct (rejects_non_objects c) as [i Hi]; [done|congruence]
         end).
  apply accepted_iff in Hacc. rewrite Forall_fmap in Hacc.
  assert (("services", Zod.z_union [Zod.z_array Schema.service;
                                    Zod.z_record (Zod.z_array Schema.service)])
            ∈ Schema.schema_shape) as Hin by (unfold Schema.schema_shape; set_solver).
  eapply Forall_forall in Hacc; [|exact Hin]. unfold compose in Hacc.
  cbn [get]. destruct (assoc_get "services" ps) as [v|] eqn:E.
  - rewrite (member_present _ _ _ _ _ E) in Hacc. cbn [snd] in Hacc.
    rewrite parse_union in Hacc. cbn [try_options] in Hacc. cbv zeta in Hacc.
    destruct (parse (z_array Schema.service) _ v).2 as [y|] eqn:E1.
    + left. destruct (valid_array Schema.service ([] ++ [PKey "services"]) v)
        as (xs & -> & Hxs); [by rewrite E1|].
      exists xs. split; [done|]. by apply accepts_services.
    + destruct (parse (z_record (z_array Schema.service)) _ v).2 as [y|] eqn:E2;
        [|by destruct Hacc as [? [=]]].
      right.
      destruct (valid_record (z_array Schema.service) ([] ++ [PKey "services"]) v)
        as (qs & -> & Hqs); [by rewrite E2|].
      exists qs. split; [done|]. eapply Forall_impl; [exact Hqs|].
      intros [k x] Hx. unfold accepts in Hx. cbn [snd] in *.
      destruct (valid_array Schema.service [] x) as (xs & -> & Hxs).
      { by destruct (parse (z_array Schema.service) [] x).2. }
      exists xs. split; [done|]. by apply accepts_services.
  - rewrite (member_absent _ _ _ _ E) in Hacc. by destruct Hacc as [? [=]].
Qed.

End accepted_shape.

Lemma normalizeServices_ok env config tags n :
  accepted config →
  Forall tags_ok (document_services config) →
  ∃ groups,
    normalizeServices env config tags n
    = inr (groups, (n + length (document_services config))%nat).
Proof.
  intros Hacc Htags. unfold normalizeServices.
  assert (∀ xs, Forall is_object xs → Forall tags_ok xs → Forall item_ok xs)
    as Hitems.
  { intros xs Hobj Hok. apply Forall_forall. intros x Hx.
    rewrite Forall_forall in Hobj, Hok.
    destruct (Hobj x Hx) as [ps ->]. split; [done | by apply Hok]. }
  destruct (accepted_services config Hacc)
    as [(xs & E & Hobj)|(ps & E & Hobj)];
    unfold document_services in *; rewrite E in *; cbn [isArray from_option id or_else truthy spread].
  - eexists. unfold bind. rewrite determineService_ok by auto. done.
  - eexists. apply groups_ok.
    apply Forall_forall. intros [k v] Hin.
    rewrite Forall_forall in Hobj. destruct (Hobj _ Hin) as (xs & Hv & Hxs).
    cbn [snd] in *. subst v. exists xs. split; [done|].
    apply Hitems; [done|].
    apply Forall_forall. intros x Hx. rewrite Forall_forall in Htags.
    apply Htags. apply list_elem_of_bind. exists (k, JArr xs). done.
Qed.

(** C5, as amended.  For a document that passes validation and whose
    services all have a [tags] that is absent, falsy or an array,
    normalisation returns.  When [services] is a sequence it yields exactly
    one group, which has no title and whose items are the services of the
    sequence, normalised in order.  When [services] is a mapping it yields
    one group per key, each with the key as its title and the normalised
    services of that key as its items; the groups come in the order in which
    the keys of an object are enumerated: the keys that are array indices
    first, by increasing value, then the other keys as declared; so they
    come in declared order when no key is an array index. *)
Theorem services_are_grouped (env : Env) (config : value) (tags : TagMap) (n : nat) :
  accepted config →
  Forall tags_ok (document_services config) →
  ∃ groups n',
    normalizeServices env config tags n = inr (groups, n')
    ∧ (∀ xs, get config "services" = Some (JArr xs) →
         ∃ items,
           determineService env (JArr xs) tags n = inr (items, n')
           ∧ groups = [JObj [("items", JArr items)]]
           ∧ length items = length xs)
    ∧ (∀ ps, get config "services" = Some (JObj ps) →
         length groups = length ps
         ∧ (λ group, get group "title") <$> groups
           = (λ entry, Some (JStr entry.1)) <$> own_entries ps
         ∧ Forall2 (λ entry group,
                      ∃ items m,
                        determineService env entry.2 tags m
                        = inr (items, (m + length items)%nat)
                        ∧ group = JObj [("title", JStr entry.1);
                                        ("items", JArr items)])
             (own_entries ps) groups
         ∧ (Forall (λ entry, is_index entry.1 = false) ps →
            (λ group, get group "title") <$> groups
            = (λ entry, Some (JStr entry.1)) <$> ps)).
Proof.
  intros Hacc Htags.
  destruct (normalizeServices_ok env config tags n Hacc Htags) as [groups Hn].
  exists groups, (n + length (document_services config))%nat.
  split; [exact Hn|].
  pose proof (normalizeServices_inr _ _ _ _ _ _ Hn) as (_ & Hok & _ & Hshape).
  split.
  - intros xs E. rewrite E in Hshape. unfold document_services in *.
    rewrite E in *. eexists. split_and!; [|exact Hshape|].
    + by apply determineService_ok.
    + by rewrite length_imap.
  - intros ps E. rewrite E in Hshape. destruct Hshape as [-> Harr].
    assert ((λ group, get group "title") <$> groups_of env tags n (own_entries ps)
            = (λ entry, Some (JStr entry.1)) <$> own_entries ps) as Htitles
      by apply groups_of_titles.
    split_and!.
    + by rewrite groups_of_length, own_entries_length.
    + exact Htitles.
    + unfold document_services in Hok. rewrite E in Hok.
      clear Htitles Hn E Htags. revert n.
      induction (own_entries ps) as [|[k v] rest IH]; intros n; [constructor|].
      apply Forall_cons in Harr as [[xs Hv] Harr]. cbn [snd] in Hv. subst v.
      cbn [mbind list_bind elements snd] in Hok.
      apply Forall_app in Hok as [Hxs Hok].
      cbn [groups_of]. constructor; [|by apply IH].
      exists (imap (λ i, normalized tags (randomUUID env (n + i))) xs), n.
      cbn [fst snd]. rewrite determineService_ok by done.
      split; [by rewrite length_imap | done].
    + intros Hno. by rewrite Htitles, own_entries_no_index.
Qed.

Lemma services_are_grouped_witness :
  let env := {| hasItem := inr true; getItem := inr None;
                yaml_parse := λ _, inr JNull; randomUUID := λ n, pretty n |} in
  let config := JObj [("services",
                       JObj [("Dev", JArr [JObj [("title", JStr "Git")]]);
                             ("Media", JArr [])])] in
  ∃ groups n',
    normalizeServices env config ∅ 0 = inr (groups, n')
    ∧ (λ group, get group "title") <$> groups
      = [Some (JStr "Dev"); Some (JStr "Media")].
Proof.
  intros env config.
  assert (accepted config) as Hacc by (by eexists).
  assert (Forall tags_ok (document_services config)) as Htags.
  { repeat constructor. by exists []. }
  destruct (services_are_grouped env config ∅ 0 Hacc Htags)
    as (groups & n' & Hn & _ & Hmap).
  exists groups, n'. split; [exact Hn|].
  destruct (Hmap _ eq_refl) as (_ & _ & _ & Hdecl).
  apply Hdecl. by repeat constructor.
Defined.

(** C5 fails as stated: the groups of a mapping do not always come in the
    declared order of its keys. *)
Lemma groups_not_in_declared_order :
  let env := {| hasItem := inr true; getItem := inr None;
                yaml_parse := λ _, inr JNull; randomUUID := λ n, pretty n |} in
  let declared := [("b", JArr []); ("1", JArr [])] in
  let config := JObj [("services", JObj declared)] in
  accepted config
  ∧ normalizeServices env config ∅ 0
    = inr ([JObj [("title", JStr "1"); ("items", JArr [])];
            JObj [("title", JStr "b"); ("items", JArr [])]], 0%nat)
  ∧ [JStr "1"; JStr "b"] ≠ (λ entry, JStr entry.1) <$> declared.
Proof. split_and!; [by eexists | reflexivity | discriminate]. Qed.

(** ** The error report *)

Section report_facts.
Import Zod.

Lemma report_ok_empty_node : report_ok empty_node.
Proof.
  apply report_obj; [by eexists|].
  apply Forall_cons_2; [|apply Forall_nil_2].
  split; [intros _; by eexists | apply report_arr, Forall_nil_2].
Qed.

Lemma report_ok_get curr k v :
  report_ok curr → get curr k = Some v → report_ok v.
Proof.
  intros Hok. inversion Hok as [| | |s|xs Hxs|ps Herr Hps]; subst; cbn [get]; try done.
  - case_decide; [intros [= <-]; constructor|].
    destruct (array_index k); [|done]. unfold char_at.
    destruct (String.get _ s); [|done]. intros [= <-]. constructor.
  - case_decide; [intros [= <-]; constructor|].
    destruct (array_index k); [|done].
    intros Hin%list_elem_of_lookup_2. by eapply Forall_forall in Hxs.
  - intros Hin%assoc_get_Some_elem. eapply Forall_forall in Hps; [|exact Hin].
    apply Hps.
Qed.

Lemma report_ok_child curr k :
  report_ok curr → report_ok (or_else (get curr k) empty_node).
Proof.
  intros Hok. unfold or_else. destruct (get curr k) as [v|] eqn:E;
    [|apply report_ok_empty_node].
  destruct (truthy (Some v)); [by eapply report_ok_get | apply report_ok_empty_node].
Qed.

Lemma Forall_assoc_set {A} (P : string * A → Prop) k v (ps : list (string * A)) :
  Forall P ps → P (k, v) → Forall P (assoc_set k v ps).
Proof.
  intros Hps Hkv. induction Hps as [|[k' v'] r Hx Hr IH]; cbn [assoc_set].
  - by apply Forall_cons_2.
  - case_decide; by apply Forall_cons_2.
Qed.

Lemma put_ok curr k child r :
  report_ok curr → report_ok child →
  (k = "_errors" → is_object curr → is_array child) →
  put curr k child = inr r →
  report_ok r ∧ (is_array curr → is_array r) ∧ (is_object curr → is_object r).
Proof.
  intros Hok Hchild Hk.
  inversion Hok as [| | |s|xs Hxs|ps [ys Herr] Hps]; subst; cbn [put]; try done.
  - destruct (array_index k) as [n|].
    + intros [= <-]. split_and!; [|by eexists|by intros [? [=]]].
      constructor. case_decide.
      * apply Forall_insert; done.
      * apply Forall_app. split; [done|]. apply Forall_app. split.
        -- apply Forall_replicate. constructor.
        -- by repeat constructor.
    + intros [= <-]. split_and!; [done|by eexists|by intros [? [=]]].
  - intros [= <-]. split_and!; [|by intros [? [=]]|by eexists].
    apply report_obj.
    + rewrite assoc_get_set. case_decide as Hke; [|by eexists].
      destruct (Hk Hke) as [zs ->]; by eexists.
    + apply Forall_assoc_set; [done|]. cbn [fst snd]. split; [|done].
      intros Hke. apply Hk; [done | by eexists].
Qed.

Lemma push_error_ok node msg r :
  report_ok node → push_error node msg = inr r →
  report_ok r ∧ is_object node ∧ is_object r.
Proof.
  intros Hok. unfold push_error.
  destruct (get node "_errors") as [[| | | |xs|]|] eqn:E; try done.
  assert (is_object node) as [ps ->].
  { destruct node; try done. by eexists. }
  intros H. split_and!; [|by eexists|].
  - eapply put_ok; [exact Hok| |by eexists|exact H].
    constructor. apply Forall_app. split; [|by repeat constructor].
    apply report_ok_get in E; [|done]. by inversion E.
  - eapply put_ok in H as (_ & _ & Hobj); [by apply Hobj; eexists|done| |by eexists].
    constructor. apply Forall_app. split; [|by repeat constructor].
    apply report_ok_get in E; [|done]. by inversion E.
Qed.

Lemma errors_child ps :
  report_ok (JObj ps) → is_array (or_else (get (JObj ps) "_errors") empty_node).
Proof.
  intros Hok. inversion Hok as [| | | | |? [xs Hxs] _]; subst.
  cbn [get]. rewrite Hxs. by eexists.
Qed.

Lemma and_then_inr {A B} (m : run A) (k : A → run B) b :
  and_then m k = Some (inr b) → ∃ a, m = Some (inr a) ∧ k a = Some (inr b).
Proof. destruct m as [[e|a]|]; try done. intros H. by exists a. Qed.

Lemma insert_at_ok els msg : ∀ curr r,
  report_ok curr → insert_at els msg curr = Some (inr r) →
  report_ok r ∧ (is_array curr → is_array r) ∧ (is_object curr → is_object r).
Proof.
  induction els as [|el rest IH]; intros curr r Hok.
  - by intros [= <-].
  - cbn [insert_at]. cbv zeta.
    set (k := key_of el). set (child := or_else (get curr k) empty_node).
    destruct (reads_realm curr k).
    { destruct curr, rest as [|[] rest']; try done.
      destruct (negb _ && _); [|done]. by intros [= <-]. }
    assert (report_ok child) as Hchild by by apply report_ok_child.
    assert (k = "_errors" → is_object curr → is_array child) as Hk.
    { intros -> [ps ->]. by apply errors_child. }
    intros (curr1 & E1 & H)%and_then_inr.
    apply and_then_inr in H as (child' & Hc & [= Hput]).
    assert (report_ok child' ∧ (is_array child → is_array child')) as [Hc' Harr].
    { destruct rest as [|el' rest'].
      - injection Hc as Hc.
        apply push_error_ok in Hc as (? & [ps ->] & ?); [|done].
        split; [done|]. by intros [? [=]].
      - apply IH in Hc as (? & ? & ?); done. }
    eapply put_ok; [done|exact Hc'| |exact Hput]. auto.
Qed.

Lemma processError_ok i : ∀ fe r,
  report_ok fe → is_object fe → processError i fe = Some (inr r) →
  report_ok r ∧ is_object r.
Proof.
  induction i as [expected received p|unionErrors p IH] using issue_ind;
    intros fe r Hok Hobj.
  - cbn [processError]. destruct p as [|el rest].
    + intros [= (? & ? & ?)%push_error_ok]; done.
    + intros (? & ? & ?)%insert_at_ok; auto.
  - cbn [processError]. revert fe Hok Hobj.
    induction IH as [|err errs Herr _ IHerrs]; intros fe Hok Hobj.
    + by intros [= <-].
    + intros (fe' & Hfe' & Hrest)%and_then_inr.
      enough (report_ok fe' ∧ is_object fe') as [? ?] by by eapply IHerrs.
      clear Hrest IHerrs. revert fe Hok Hobj Hfe'.
      induction Herr as [|i' l' Hi' _ IHl]; intros fe Hok Hobj.
      * by intros [= <-].
      * intros (fe1 & H1 & H2)%and_then_inr.
        apply Hi' in H1 as [? ?]; [|done..]. by eapply IHl.
Qed.

Lemma format_ok issues report :
  format issues = Some (inr report) → report_ok report ∧ is_object report.
Proof.
  unfold format.
  assert (report_ok empty_node ∧ is_object empty_node) as H
    by (split; [apply report_ok_empty_node | by eexists]).
  revert H. generalize empty_node as fe.
  induction issues as [|i rest IH]; intros fe [Hok Hobj].
  - by intros [= <-].
  - cbn [processErrors]. intros (fe' & H1 & H2)%and_then_inr.
    apply processError_ok in H1; [|done..]. by eapply IH.
Qed.

End report_facts.

Section report_text.

Lemma pretty_N_go_head x : ∀ s c r,
  (∀ c' r', s = String c' r' → is_digit c' = true) →
  pretty_N_go x s = String c r → is_digit c = true.
Proof.
  induction (N.lt_wf_0 x) as [x _ IH]; intros s c r Hs.
  destruct (decide (x = 0)%N) as [->|Hx].
  - rewrite pretty_N_go_0. apply Hs.
  - rewrite pretty_N_go_step by lia. apply IH.
    + apply N.div_lt; lia.
    + intros c' r' [= <- _]. unfold pretty_N_char.
      by repeat case_match.
Qed.

Lemma pretty_nat_head (i : nat) c r :
  pretty i = String c r → is_digit c = true.
Proof.
  unfold pretty, pretty_nat, pretty, pretty_N. case_decide.
  - by intros [= <- _].
  - apply pretty_N_go_head. by intros c' r' [=].
Qed.

Lemma pretty_nat_ne_errors (i : nat) : pretty i ≠ "_errors".
Proof. intros H. by apply pretty_nat_head in H. Qed.

Lemma report_replacer_key key v :
  key ≠ "_errors" → report_replacer key v = inr false.
Proof. intros H. unfold report_replacer. by rewrite decide_False. Qed.

Lemma report_replacer_errors xs :
  report_replacer "_errors" (JArr xs) = inr (empty_errors "_errors" (JArr xs)).
Proof. unfold report_replacer. cbn. by destruct xs. Qed.

Lemma report_replacer_ok key v :
  (key = "_errors" → is_array v) →
  report_replacer key v = inr (empty_errors key v).
Proof.
  intros H. destruct (decide (key = "_errors")) as [->|Hne].
  - destruct H as [xs ->]; [done|]. apply report_replacer_errors.
  - rewrite report_replacer_key by done. unfold empty_errors.
    by rewrite bool_decide_eq_false_2.
Qed.

Lemma empty_errors_object key ps : empty_errors key (JObj ps) = false.
Proof. unfold empty_errors. by destruct (bool_decide _). Qed.

(** What [JSON.stringify] writes of a report is the pruned report. *)
Lemma serialize_report v : ∀ key,
  report_ok v → (key = "_errors" → is_array v) →
  Json.serialize report_replacer key v
  = inr (if empty_errors key v then None else Some (prune v)).
Proof.
  induction v as [|b|n|s|xs IH|ps IH] using value_ind; intros key Hok Hkey.
  3: inversion Hok as [| |z| | |]; subst.
  1-4: cbn [Json.serialize]; rewrite report_replacer_ok by done; cbn [Throw.bind];
       unfold empty_errors; by destruct (bool_decide _).
  - cbn [Json.serialize]. rewrite report_replacer_ok by done. cbn [Throw.bind].
    destruct (empty_errors key (JArr xs)); [done|].
    inversion Hok as [| | | |? Hxs|]; subst.
    assert (∀ i, (fix elems (i : nat) (l : list value) : Throw.t (list value) :=
                    match l with
                    | [] => inr []
                    | x :: l' =>
                        t ←! Json.serialize report_replacer (pretty i) x;
                        ts ←! elems (S i) l';
                        inr (default JNull t :: ts)
                    end) i xs = inr (prune <$> xs)) as Hel.
    2: { rewrite Hel. done. }
    clear Hok Hkey. revert Hxs.
    induction IH as [|x r Hx _ IHr]; intros Hxs i; [done|].
    apply Forall_cons in Hxs as [Hx' Hr'].
    rewrite Hx; [|done|by intros ?%pretty_nat_ne_errors].
    unfold empty_errors at 1.
    rewrite bool_decide_eq_false_2 by apply pretty_nat_ne_errors.
    cbn [andb Throw.bind]. rewrite IHr by done. done.
  - cbn [Json.serialize]. rewrite report_replacer_ok by done. cbn [Throw.bind].
    rewrite empty_errors_object.
    inversion Hok as [| | | | |? _ Hps]; subst.
    assert ((fix members (l : list (string * value))
               : Throw.t (list (string * value)) :=
               match l with
               | [] => inr []
               | (k, x) :: l' =>
                   t ←! Json.serialize report_replacer k x;
                   ts ←! members l';
                   inr (match t with
                        | Some t' => (k, t') :: ts
                        | None => ts
                        end)
               end) ps
            = inr ((fix members (l : list (string * value)) :=
                      match l with
                      | [] => []
                      | (k, x) :: l' =>
                          if empty_errors k x then members l'
                          else (k, prune x) :: members l'
                      end) ps)) as ->; [|done].
    clear Hok Hkey. revert Hps.
    induction IH as [|[k x] r Hx _ IHr]; intros Hps; [done|].
    apply Forall_cons in Hps as [[Hk Hx'] Hr']. cbn [fst snd] in *.
    rewrite Hx by done. cbn [Throw.bind]. rewrite IHr by done.
    cbn [Throw.bind]. by destruct (empty_errors k x).
Qed.

Lemma stringify_report report :
  report_ok report →
  Json.stringify report report_replacer " "
  = inr (Some (Json.render " " "" (prune report))).
Proof.
  intros Hok. unfold Json.stringify.
  rewrite serialize_report by done. done.
Qed.



End report_text.

(** ** The outcomes of a load *)

Lemma set_error_default (msg : string) (previous : option string) :
  set_error (Some msg) (set_error previous getDefaultConfig)
  = set_error (Some msg) getDefaultConfig.
Proof. by destruct previous. Qed.


Lemma recover_Error msg :
  recover (Error msg) getDefaultConfig
  = Return (set_error (Some msg) getDefaultConfig).
Proof. done. Qed.

Lemma recover_Thrown v : recover (Thrown v) getDefaultConfig = Return getDefaultConfig.
Proof. done. Qed.

Lemma recover_ZodError issues :
  recover (ZodError issues) getDefaultConfig
  = match Zod.format issues with
    | Some (inl msg) => Raise (Error msg)
    | Some (inr report) =>
        Return (set_error (Some (Json.render " " "" (prune report)))
                  getDefaultConfig)
    | None => Beyond
    end.
Proof.
  unfold recover. destruct (Zod.format issues) as [[msg|report]|] eqn:E; [done| |done].
  cbn [Throw.bind]. apply format_ok in E as [Hok _].
  rewrite stringify_report by done.
  cbn [exn_message]. by rewrite set_error_default.
Qed.

(** The services of a configuration returned on the failure path. *)
Lemma recover_services e cfg :
  recover e getDefaultConfig = Return cfg → get cfg "services" = Some (JArr []).
Proof.
  destruct e as [msg|issues|v].
  - rewrite recover_Error. by intros [= <-].
  - rewrite recover_ZodError. destruct (Zod.format issues) as [[msg|report]|];
      [done| |done].
    by intros [= <-].
  - rewrite recover_Thrown. by intros [= <-].
Qed.

Lemma createTagMap_state v n tags n' :
  createTagMap v n = inr (tags, n') → n' = n.
Proof.
  destruct v; try done. by intros (-> & _)%createTagMap_inr.
Qed.

Lemma build_inr env config d n cfg n' :
  build env config d n = inr (cfg, n') →
  ∃ tags groups,
    createTagMap (or_else (get config "tags") (JArr [])) n = inr (tags, n)
    ∧ accepted config
    ∧ normalizeServices env config tags n = inr (groups, n')
    ∧ cfg = Defu.defu (JObj (assoc_set "services" (JArr groups) (spread config))) d.
Proof.
  unfold build. intros (tags & n1 & Htags & H)%bind_inr.
  pose proof (createTagMap_state _ _ _ _ Htags) as ->.
  apply bind_inr in H as (validated & n2 & Hv & H).
  destruct (validateConfigSchema config) as [issues|checked] eqn:E; [done|].
  injection Hv as <- <-.
  apply bind_inr in H as (groups & n3 & Hg & [= <- <-]).
  exists tags, groups. split_and!; try done. by exists checked.
Qed.

Lemma load_inr env d n cfg n' :
  load env d n = inr (cfg, n') →
  ∃ raw parsed,
    hasItem env = inr true
    ∧ getItem env = inr raw
    ∧ yaml_parse env (default "" raw) = inr parsed
    ∧ build env (or_else (Some parsed) (JObj [])) d n = inr (cfg, n').
Proof.
  unfold load. intros (has & n1 & Hhas & H)%bind_inr.
  destruct (hasItem env) as [e|b] eqn:E1; [done|]. injection Hhas as <- <-.
  destruct b; [|done]. cbn [negb] in H.
  apply bind_inr in H as (raw & n2 & Hraw & H).
  destruct (getItem env) as [e|raw'] eqn:E2; [done|]. injection Hraw as -> ->.
  apply bind_inr in H as (config & n3 & Hconfig & H).
  unfold parseDocument in Hconfig.
  apply bind_inr in Hconfig as (parsed & n4 & Hp & [= <- <-]).
  destruct (yaml_parse env (default "" raw)) as [e|parsed'] eqn:E3; [done|].
  injection Hp as -> ->. by exists raw, parsed.
Qed.

Lemma wf_object ps : wf (JObj ps) = true → NoDup ps.*1.
Proof. cbn [wf]. by intros [?%bool_decide_eq_true _]%andb_true_iff. Qed.

Lemma wf_or_else parsed : wf parsed = true → wf (or_else (Some parsed) (JObj [])) = true.
Proof. intros H. unfold or_else. by destruct (truthy (Some parsed)). Qed.

Lemma accepted_object config : accepted config → is_object config.
Proof.
  intros [v Hv]. destruct config as [| | | | |ps]; [..|by exists ps].
  all: exfalso;
       match type of Hv with
       | validateConfigSchema ?c = _ =>
           destruct (rejects_non_objects c) as [i Hi]; [done|congruence]
       end.
Qed.

(** The merged configuration of a successful load, field by field. *)
Lemma merged_lookup ps groups k :
  NoDup ps.*1 →
  get (Defu.defu (JObj (assoc_set "services" (JArr groups) (spread (JObj ps))))
         getDefaultConfig) k
  = if decide (k = "services") then Some (JArr groups)
    else match assoc_get k ps with
         | Some v => Defu.assigned (get getDefaultConfig k) k (v, Defu._defu v)
         | None => get getDefaultConfig k
         end.
Proof.
  intros Hnd. cbn [spread].
  rewrite defu_default_lookup
    by (apply assoc_set_NoDup; by apply own_entries_keys_NoDup).
  rewrite assoc_get_set. destruct (decide ("services" = k)) as [<-|Hne].
  - rewrite decide_True by done.
    change (get getDefaultConfig "services") with (Some (JArr (@nil value))).
    unfold Defu.assigned. change (Defu.skipped_key "services") with false.
    cbn [fst snd]. by rewrite app_nil_r.
  - rewrite decide_False by done. by rewrite assoc_get_own_entries.
Qed.
(** ** What the report holds *)

Section report_content.
Import Zod.

Lemma plain_key_errors k : plain_key k = true → k ≠ "_errors".
Proof.
  unfold plain_key. intros [H _]%andb_true_iff. apply negb_true_iff in H.
  by apply bool_decide_eq_false in H.
Qed.

Lemma plain_key_inherited k : plain_key k = true → inherited k = false.
Proof.
  unfold plain_key. intros [_ H]%andb_true_iff. by apply negb_true_iff in H.
Qed.

Lemma node_empty_node : node empty_node.
Proof.
  apply (node_of _ []); [|done|].
  - apply NoDup_singleton.
  - by apply Forall_singleton.
Qed.

Lemma node_object v : node v → ∃ ps, v = JObj ps.
Proof. intros H. inversion H. by eexists. Qed.

Lemma node_lookup ps k v :
  node (JObj ps) → k ≠ "_errors" → assoc_get k ps = Some v → node v.
Proof.
  intros Hn Hk Hin%assoc_get_Some_elem.
  inversion Hn as [? reasons _ _ Hps]; subst.
  eapply Forall_forall in Hps; [|exact Hin]. by apply Hps.
Qed.

Lemma node_child ps k :
  node (JObj ps) → k ≠ "_errors" →
  node (or_else (get (JObj ps) k) empty_node)
  ∧ or_else (get (JObj ps) k) empty_node
    = default empty_node (assoc_get k ps).
Proof.
  intros Hn Hk. cbn [get]. destruct (assoc_get k ps) as [v|] eqn:E.
  - pose proof (node_lookup _ _ _ Hn Hk E) as Hv.
    inversion Hv; subst. done.
  - split; [apply node_empty_node|done].
Qed.

Lemma node_put ps k child :
  node (JObj ps) → k ≠ "_errors" → node child →
  node (JObj (assoc_set k child ps)).
Proof.
  intros Hn Hk Hc. inversion Hn as [? reasons Hnd Herr Hps]; subst.
  apply (node_of _ reasons).
  - by apply assoc_set_NoDup.
  - by rewrite assoc_get_set_ne.
  - by apply Forall_assoc_set.
Qed.

Lemma reasons_in_nil v :
  reasons_in v [] = match get v "_errors" with
                    | Some (JArr xs) => xs
                    | _ => []
                    end.
Proof. unfold reasons_in. cbn. by destruct (get v "_errors") as [[]|]. Qed.

Lemma reasons_in_cons v k q :
  reasons_in v (k :: q) = match get v k with
                          | Some w => reasons_in w q
                          | None => []
                          end.
Proof. unfold reasons_in. cbn. by destruct (get v k). Qed.

Lemma reasons_in_empty_node q : "_errors" ∉ q → reasons_in empty_node q = [].
Proof.
  destruct q as [|k q]; [done|]. intros [Hk _]%not_elem_of_cons.
  rewrite reasons_in_cons. cbn. rewrite decide_False; [done|]. by intros ->.
Qed.

Lemma get_path_empty_node q :
  "_errors" ∉ q → is_Some (get_path empty_node q) → q = [].
Proof.
  destruct q as [|k q]; [done|]. intros [Hk _]%not_elem_of_cons.
  cbn. rewrite decide_False by (by intros ->). by intros [? [=]].
Qed.

Lemma given_at_app q fs fs' : given_at q (fs ++ fs') = given_at q fs ++ given_at q fs'.
Proof. unfold given_at. by rewrite filter_app, !fmap_app. Qed.

Lemma given_at_one q p msg :
  given_at q [(p, msg)] = if decide (q = p) then [JStr msg] else [].
Proof.
  unfold given_at. rewrite filter_cons, filter_nil. cbn [fst].
  destruct (decide (p = q)) as [->|Hne].
  - by rewrite decide_True.
  - by rewrite decide_False.
Qed.

Lemma leads_to_one q p msg : leads_to [(p, msg)] q ↔ q `prefix_of` p.
Proof.
  unfold leads_to. split.
  - intros (f & Hf & Hpre). apply list_elem_of_singleton in Hf. by subst.
  - intros Hpre. exists (p, msg). split; [by apply list_elem_of_singleton|done].
Qed.

Lemma leads_to_app q fs fs' : leads_to (fs ++ fs') q ↔ leads_to fs q ∨ leads_to fs' q.
Proof.
  unfold leads_to. split.
  - intros (f & Hf & Hpre). apply elem_of_app in Hf as [?|?];
      [left|right]; by exists f.
  - intros [(f & ? & ?)|(f & ? & ?)]; exists f; split; try done;
      apply elem_of_app; auto.
Qed.

Lemma grown_refl v : node v → grown v v [].
Proof.
  intros Hn. split; [done|]. split.
  - intros q _. by rewrite app_nil_r.
  - intros q _. split; [auto|]. intros [?|(f & []%elem_of_nil & _)]. done.
Qed.

Lemma grown_trans a b c fs fs' :
  grown a b fs → grown b c fs' → grown a c (fs ++ fs').
Proof.
  intros (_ & Hr & Hp) (Hn & Hr' & Hp'). split; [done|]. split.
  - intros q Hq. by rewrite (Hr' q Hq), (Hr q Hq), given_at_app, app_assoc.
  - intros q Hq. rewrite (Hp' q Hq), (Hp q Hq), leads_to_app. tauto.
Qed.

Lemma push_error_node ps msg :
  node (JObj ps) →
  ∃ r, push_error (JObj ps) msg = inr r ∧ grown (JObj ps) r [([], msg)].
Proof.
  intros Hn. inversion Hn as [? reasons Hnd Herr Hps]; subst.
  unfold push_error. cbn [get put]. rewrite Herr.
  eexists. split; [done|]. split; [|split].
  - apply (node_of _ (reasons ++ [msg])).
    + by apply assoc_set_NoDup.
    + rewrite assoc_get_set_eq. by rewrite fmap_app.
    + apply Forall_assoc_set; [done|]. done.
  - intros [|k q] Hq; rewrite given_at_one.
    + rewrite !reasons_in_nil. cbn [get].
      rewrite assoc_get_set_eq, Herr. by rewrite decide_True.
    + apply not_elem_of_cons in Hq as [Hk' _].
      rewrite !reasons_in_cons. cbn [get].
      rewrite assoc_get_set_ne by done. rewrite decide_False by done.
      by rewrite app_nil_r.
  - intros [|k q] Hq.
    + cbn. split; [auto|]. by eexists.
    + apply not_elem_of_cons in Hq as [Hk' _]. cbn [get_path get].
      rewrite assoc_get_set_ne by done. rewrite leads_to_one.
      split; [auto|]. intros [?|Hpre]; [done|].
      by apply prefix_nil_inv in Hpre.
Qed.

(** One issue written into the report. *)
Lemma insert_at_plain p msg : ∀ ps,
  node (JObj ps) → plain_path p = true → p ≠ [] →
  ∃ r, insert_at p msg (JObj ps) = Some (inr r)
       ∧ grown (JObj ps) r [(key_of <$> p, msg)].
Proof.
  induction p as [|el rest IH]; intros ps Hn Hp Hne; [done|].
  cbn [plain_path forallb] in Hp. apply andb_true_iff in Hp as [Hk Hrest].
  pose proof (plain_key_errors _ Hk) as Hke.
  cbn [insert_at]. cbv zeta. set (k := key_of el) in *.
  assert (reads_realm (JObj ps) k = false) as ->.
  { cbn [reads_realm]. by rewrite (plain_key_inherited _ Hk). }
  destruct (node_child ps k Hn Hke) as [Hchild Echild].
  set (child := or_else (get (JObj ps) k) empty_node) in *.
  cbn [put and_then].
  destruct (node_object _ Hchild) as [cs Ecs].
  match goal with
  | |- context [and_then ?m _] =>
      assert (∃ child',
                m = Some (inr child')
                ∧ grown child child' [(key_of <$> rest, msg)])
        as (child' & -> & Hc' & Hreasons & Hpresent)
  end.
  { rewrite Ecs in *. destruct rest as [|el' rest'].
    - destruct (push_error_node cs msg Hchild) as (r & -> & Hg). by exists r.
    - apply IH; done. }
  cbn [and_then]. eexists. split; [done|]. split; [by apply node_put|].
  rewrite fmap_cons. fold k. split.
  - intros [|k' q] Hq; rewrite given_at_one.
    + rewrite !reasons_in_nil. cbn [get]. rewrite assoc_get_set_ne by done.
      rewrite decide_False by done. by rewrite app_nil_r.
    + apply not_elem_of_cons in Hq as [Hk' Hq].
      rewrite !reasons_in_cons. cbn [get].
      destruct (decide (k = k')) as [<-|Hkk].
      * rewrite assoc_get_set_eq, (Hreasons q Hq), given_at_one. rewrite Echild.
        assert (reasons_in (default empty_node (assoc_get k ps)) q
                = match assoc_get k ps with
                  | Some w => reasons_in w q
                  | None => []
                  end) as ->.
        { destruct (assoc_get k ps); [done|]. by apply reasons_in_empty_node. }
        f_equal. destruct (decide (q = key_of <$> rest)) as [->|Hqr].
        -- by rewrite decide_True.
        -- rewrite decide_False; [done|]. by intros [= ?].
      * rewrite assoc_get_set_ne by done.
        rewrite decide_False by (by intros [= ?]). by rewrite app_nil_r.
  - intros [|k' q] Hq; rewrite leads_to_one.
    + cbn. split; [auto|]. by eexists.
    + apply not_elem_of_cons in Hq as [Hk' Hq]. cbn [get_path get].
      destruct (decide (k = k')) as [<-|Hkk].
      * rewrite assoc_get_set_eq, (Hpresent q Hq), leads_to_one. rewrite Echild.
        split.
        -- intros [Hsome|Hpre]; [|right; by apply prefix_cons].
           destruct (assoc_get k ps); [by left|]. right.
           apply get_path_empty_node in Hsome as ->; [|done].
           apply prefix_cons, prefix_nil.
        -- intros [Hsome|Hpre]; [|right; by apply prefix_cons_inv_2 in Hpre].
           left. by destruct (assoc_get k ps).
      * rewrite assoc_get_set_ne by done. split; [auto|].
        intros [?|Hpre]; [done|]. by apply prefix_cons_inv_1 in Hpre.
Qed.

Lemma processError_plain i : ∀ ps,
  plain_issue i = true → node (JObj ps) →
  ∃ r, processError i (JObj ps) = Some (inr r)
       ∧ grown (JObj ps) r (failures i).
Proof.
  induction i as [expected received p|unionErrors p IH] using issue_ind;
    intros ps Hplain Hn.
  - cbn [processError failures plain_issue] in *.
    change (message (invalid_type expected received p))
      with (reason expected received).
    destruct p as [|el rest].
    + destruct (push_error_node ps (reason expected received) Hn) as (r & -> & Hr).
      by exists r.
    + by apply insert_at_plain.
  - cbn [processError failures plain_issue] in *.
    revert ps Hn Hplain.
    induction IH as [|err errs Herr _ IHerrs]; intros ps Hn Hplain.
    + exists (JObj ps). split; [done|]. by apply grown_refl.
    + cbn [forallb] in Hplain. apply andb_true_iff in Hplain as [Hperr Hperrs].
      assert (∃ r, (fix issues (l : list issue) (fe : value) : run value :=
                      match l with
                      | [] => Some (inr fe)
                      | i' :: l' => fe' ←? processError i' fe; issues l' fe'
                      end) err (JObj ps) = Some (inr r)
                   ∧ grown (JObj ps) r (concat (map failures err)))
        as (r1 & -> & Hr1).
      { clear IHerrs Hperrs. revert ps Hn Hperr.
        induction Herr as [|i' l' Hi' _ IHl]; intros ps Hn Hperr.
        - exists (JObj ps). split; [done|]. by apply grown_refl.
        - cbn [forallb] in Hperr. apply andb_true_iff in Hperr as [Hpi Hpl].
          destruct (Hi' ps Hpi Hn) as (r & -> & Hr). cbn [and_then].
          destruct (node_object r (proj1 Hr)) as [rs ->].
          destruct (IHl rs (proj1 Hr) Hpl) as (r' & -> & Hr').
          exists r'. split; [done|]. cbn [map concat]. by eapply grown_trans. }
      cbn [and_then]. destruct (node_object r1 (proj1 Hr1)) as [rs ->].
      destruct (IHerrs rs (proj1 Hr1) Hperrs) as (r' & -> & Hr').
      exists r'. split; [done|]. cbn [map concat]. by eapply grown_trans.
Qed.

(** The report of issues with plain paths is built: it holds at every
    field path the reasons of the failures there, and it has a node at the
    field paths that lead to a failure and nowhere else. *)
Lemma format_plain issues :
  forallb plain_issue issues = true →
  ∃ report,
    format issues = Some (inr report)
    ∧ grown empty_node report (all_failures issues).
Proof.
  intros Hplain. unfold format, all_failures.
  destruct (node_object _ node_empty_node) as [ps Eps]. rewrite Eps.
  pose proof node_empty_node as Hn. rewrite Eps in Hn. clear Eps.
  revert ps Hn.
  induction issues as [|i rest IH]; intros ps Hn.
  - exists (JObj ps). split; [done|]. by apply grown_refl.
  - cbn [forallb] in Hplain. apply andb_true_iff in Hplain as [Hi Hrest].
    cbn [processErrors].
    destruct (processError_plain i ps Hi Hn) as (r & -> & Hr).
    cbn [and_then]. destruct (node_object r (proj1 Hr)) as [rs ->].
    destruct (IH Hrest rs (proj1 Hr)) as (r' & -> & Hr').
    exists r'. split; [done|]. cbn [map concat]. by eapply grown_trans.
Qed.

End report_content.
(** ** The pruned report *)

Section pruned_report.
Import Zod.












End pruned_report.
(** ** The paths of the issues of a rejected document *)

Section issue_paths.
Import Zod.

Lemma plain_key_index (i : nat) : plain_key (pretty i) = true.
Proof.
  unfold plain_key. apply andb_true_iff. split; apply negb_true_iff.
  - apply bool_decide_eq_false. apply pretty_nat_ne_errors.
  - unfold inherited. apply bool_decide_eq_false. intros Hin.
    destruct (pretty i) as [|c r] eqn:E.
    + by repeat (apply elem_of_cons in Hin as [?|Hin]; [done|]);
        apply elem_of_nil in Hin.
    + apply pretty_nat_head in E.
      repeat (apply elem_of_cons in Hin as [[= -> _]|Hin]; [done|]).
      by apply elem_of_nil in Hin.
Qed.

Lemma plain_path_app p el :
  plain_path p = true → plain_key (key_of el) = true →
  plain_path (p ++ [el]) = true.
Proof.
  unfold plain_path. rewrite forallb_app. intros -> H. cbn. by rewrite H.
Qed.

Lemma plain_union tried p :
  plain_issue (invalid_union tried p) = true
  ↔ Forall (Forall (λ i, plain_issue i = true)) tried.
Proof.
  cbn [plain_issue]. rewrite forallb_Forall. apply Forall_proper; [|done].
  intros err. apply forallb_Forall.
Qed.

Lemma push_issues_plain tried iss :
  Forall (Forall (λ i, plain_issue i = true)) tried →
  Forall (λ i, plain_issue i = true) iss →
  Forall (Forall (λ i, plain_issue i = true)) (push_issues tried iss).
Proof.
  intros Ht Hi. destruct iss; [done|]. cbn [push_issues].
  apply Forall_app. split; [done|]. by apply Forall_singleton.
Qed.

Lemma parse_undefined_plain s : ∀ p,
  plain_path p = true →
  Forall (λ i, plain_issue i = true) (parse_undefined s p).1.
Proof.
  induction s as [| | | |s IH|s IH|s IH|s IH|shape IH|options IH]
    using schema_ind; intros p Hp; cbn [parse_undefined fst];
    try (by apply Forall_singleton); try done.
  - by apply IH.
  - assert (Forall (Forall (λ i, plain_issue i = true)) []) as Htried by done.
    revert Htried. generalize (@nil (list issue)) as tried.
    induction IH as [|o rest Ho _ IHrest]; intros tried Htried.
    + apply Forall_singleton. by apply plain_union.
    + cbv zeta. destruct (parse_undefined o p).2 eqn:E; [done|].
      apply IHrest, push_issues_plain; [done|]. by apply Ho.
Qed.

Lemma try_options_plain p d opts : ∀ tried,
  Forall (Forall (λ i, plain_issue i = true)) tried →
  Forall (λ o, Forall (λ i, plain_issue i = true) (parse o p d).1) opts →
  Forall (λ i, plain_issue i = true) (try_options p d opts tried).1.
Proof.
  induction opts as [|o rest IH]; intros tried Htried Hopts.
  - apply Forall_singleton. by apply plain_union.
  - apply Forall_cons in Hopts as [Ho Hrest].
    cbn [try_options]. cbv zeta. destruct (parse o p d).2 eqn:E; [done|].
    apply IH; [|done]. by apply push_issues_plain.
Qed.

Lemma parse_array_plain element p d :
  plain_path p = true →
  (∀ p' x, plain_path p' = true →
           Forall (λ i, plain_issue i = true) (parse element p' x).1) →
  Forall (λ i, plain_issue i = true) (parse (z_array element) p d).1.
Proof.
  intros Hp He. destruct d as [| | | |xs|]; try by apply Forall_singleton.
  rewrite parse_array. cbn [fst]. apply Forall_concat.
  apply Forall_fmap, Forall_forall. intros r Hin.
  apply list_elem_of_lookup in Hin as [i Hi].
  rewrite list_lookup_imap in Hi. destruct (xs !! i) as [x|]; [|done].
  injection Hi as <-. cbn. apply He.
  apply plain_path_app; [done|]. apply plain_key_index.
Qed.

Lemma parse_record_plain valueType p d :
  plain_path p = true →
  (∀ k x, (∀ ps, d = JObj ps → (k, x) ∈ ps) →
          Forall (λ i, plain_issue i = true)
            (parse valueType (p ++ [PKey k]) x).1) →
  Forall (λ i, plain_issue i = true) (parse (z_record valueType) p d).1.
Proof.
  intros Hp He. destruct d as [| | | | |ps]; try by apply Forall_singleton.
  rewrite parse_record. cbn [fst]. apply Forall_concat.
  apply Forall_fmap, Forall_forall. intros [k x] Hin. cbn.
  apply He. intros ? [= <-]. by rewrite own_entries_perm in Hin.
Qed.

Lemma member_plain p ps k sk :
  plain_path p = true → plain_key k = true →
  (∀ p' x, plain_path p' = true →
           Forall (λ i, plain_issue i = true) (parse sk p' x).1) →
  Forall (λ i, plain_issue i = true) (member p ps (k, sk)).2.1.
Proof.
  intros Hp Hk Hsk. unfold member. cbn [fst snd].
  assert (plain_path (p ++ [PKey k]) = true) as Hpk by by apply plain_path_app.
  destruct (assoc_get k ps) as [x|]; cbn [fst snd].
  - by apply Hsk.
  - by apply parse_undefined_plain.
Qed.

(** The issues that a tame schema finds below a plain path have plain
    paths. *)
Lemma parse_plain s :
  tame s = true →
  ∀ p d, plain_path p = true →
         Forall (λ i, plain_issue i = true) (parse s p d).1.
Proof.
  induction s as [| | | |s IH|s IH|s IH|s IH|shape IH|options IH]
    using schema_ind; cbn [tame]; intros Ht p d Hp.
  - destruct d; try done; by apply Forall_singleton.
  - destruct d as [| |[]| | |]; try done; by apply Forall_singleton.
  - destruct d; try done; by apply Forall_singleton.
  - done.
  - by apply IH.
  - destruct d; try done; by apply IH.
  - apply parse_array_plain; [done|]. intros p' x. by apply IH.
  - destruct s; try done. apply parse_record_plain; [done|]. by intros.
  - destruct d as [| | | | |ps]; try by apply Forall_singleton.
    rewrite parse_object. cbn [fst]. apply Forall_concat.
    rewrite <- list_fmap_compose. apply Forall_fmap.
    apply forallb_Forall in Ht.
    assert (Forall (λ ks, (plain_key ks.1 && tame ks.2 = true)
                          ∧ (tame ks.2 = true →
                             ∀ p d, plain_path p = true →
                                    Forall (λ i, plain_issue i = true)
                                      (parse ks.2 p d).1)) shape) as Hall.
    { clear -Ht IH. induction IH as [|ks r Hks _ IHr]; [done|].
      apply Forall_cons in Ht as [? ?]. apply Forall_cons_2; [done|]. by apply IHr. }
    eapply Forall_impl; [exact Hall|].
    intros [k sk] [[Hk Hsk]%andb_true_iff Hparse]. cbn [fst snd compose] in *.
    apply member_plain; [done..|]. intros p' x. by apply Hparse.
  - rewrite parse_union. apply try_options_plain; [done|].
    apply forallb_Forall in Ht.
    clear -Ht IH Hp. induction IH as [|o r Ho _ IHr]; [done|].
    apply Forall_cons in Ht as [? ?]. apply Forall_cons_2; [by apply Ho|]. by apply IHr.
Qed.

(** When the groups of [services] have plain names, the issues of the
    document have plain paths. *)
Lemma rejected_plain config issues :
  plain_groups config = true →
  validateConfigSchema config = inl issues →
  forallb plain_issue issues = true.
Proof.
  intros Hgroups. unfold validateConfigSchema, schema_parse.
  destruct (parse Schema.schema [] config) as [iss [v|]] eqn:E; [done|].
  intros [= <-]. apply forallb_Forall.
  change iss with (iss, @None value).1. rewrite <- E. clear E.
  destruct config as [| | | | |ps]; try by apply Forall_singleton.
  unfold Schema.schema. rewrite parse_object. cbn [fst]. apply Forall_concat.
  rewrite <- list_fmap_compose. apply Forall_fmap.
  unfold Schema.schema_shape.
  repeat apply Forall_cons_2; [..|apply Forall_nil_2]; unfold compose.
  1-5: apply member_plain; [done..|]; intros p' x; by apply parse_plain.
  unfold member. cbn [fst snd].
  unfold plain_groups in Hgroups. cbn [get] in Hgroups.
  destruct (assoc_get "services" ps) as [x|]; cbn [fst snd].
  - rewrite parse_union. apply try_options_plain; [done|].
    repeat apply Forall_cons_2; [..|apply Forall_nil_2].
    + by apply parse_plain.
    + destruct x as [| | | | |groups]; try by apply Forall_singleton.
      apply parse_record_plain; [done|]. intros k y Hin.
      apply parse_plain; [done|].
      apply plain_path_app; [done|]. cbn [key_of].
      apply forallb_Forall in Hgroups.
      eapply Forall_forall in Hgroups; [|exact (Hin _ eq_refl)]. done.
  - by apply parse_undefined_plain.
Qed.

End issue_paths.







Lemma normalized_id tags id item :
  get (normalized tags id item) "id" = Some (JStr id).
Proof.
  unfold normalized. cbn [get].
  rewrite assoc_get_set_ne by done. apply assoc_get_set_eq.
Qed.

Lemma imap_const_index {A B} (f : nat → B) (l : list A) :
  imap (λ i _, f i) l = f <$> seq 0 (length l).
Proof.
  revert f. induction l as [|x r IH]; intros f; [done|].
  cbn [imap length seq fmap list_fmap]. f_equal.
  rewrite <- fmap_S_seq, <- list_fmap_compose, <- (IH (f ∘ S)). done.
Qed.

(** C7.  When the identifier generator never returns the same string
    twice, the services of the configuration returned by a load all have an
    identifier, and no two of them, in the same group or not, have the same
    one. *)
Theorem service_ids_are_unique (env : Env) (cfg : value) :
  (∀ i j, randomUUID env i = randomUUID env j → i = j) →
  (∀ text doc, yaml_parse env text = inr doc → wf doc = true) →
  loadLocalConfig env = Return cfg →
  NoDup (service_ids cfg)
  ∧ Forall (λ id, ∃ i, id = Some (JStr (randomUUID env i))) (service_ids cfg).
Proof.
  intros Hinj Hwf. unfold loadLocalConfig.
  destruct (load env getDefaultConfig 0) as [e|[merged n']] eqn:E.
  - intros Hs%recover_services. unfold service_ids, config_services.
    rewrite Hs. split; constructor.
  - intros [= <-].
    apply load_inr in E as (raw & parsed & _ & _ & Hparse & Hbuild).
    apply build_inr in Hbuild as (tags & groups & _ & Hacc & Hnorm & ->).
    destruct (accepted_object _ Hacc) as [ps Hps]. rewrite Hps in *.
    assert (NoDup ps.*1) as Hnd.
    { apply wf_object. rewrite <- Hps. eapply wf_or_else, Hwf, Hparse. }
    apply normalizeServices_inr in Hnorm as (_ & _ & Hservices & _).
    unfold service_ids. unfold config_services at 1 2.
    rewrite merged_lookup by done. rewrite decide_True by done.
    unfold config_services in Hservices. cbn [get assoc_get] in Hservices.
    rewrite decide_True in Hservices by done. rewrite Hservices.
    rewrite fmap_imap.
    rewrite (imap_ext _ (λ i _, Some (JStr (randomUUID env i))))
      by (intros i x _; apply normalized_id).
    rewrite imap_const_index.
    split.
    + apply NoDup_fmap_2; [|apply NoDup_seq].
      intros i j [= Hij]. by apply Hinj.
    + apply Forall_fmap, Forall_forall. intros i _. by exists i.
Qed.

Lemma service_ids_are_unique_witness :
  let doc := JObj [("services",
                    JObj [("Dev", JArr [JObj [("title", JStr "Git")];
                                        JObj [("title", JStr "CI")]]);
                          ("Media", JArr [JObj [("title", JStr "Radio")]])])] in
  let env := {| hasItem := inr true; getItem := inr (Some "services: ...");
                yaml_parse := λ _, inr doc; randomUUID := λ n, pretty n |} in
  ∃ cfg,
    loadLocalConfig env = Return cfg
    ∧ service_ids cfg = [Some (JStr "0"); Some (JStr "1"); Some (JStr "2")]
    ∧ NoDup (service_ids cfg).
Proof.
  intros doc env.
  destruct (loadLocalConfig env) as [cfg|e|] eqn:E; [|by vm_compute in E..].
  assert (∀ i j, randomUUID env i = randomUUID env j → i = j) as Hinj.
  { intros i j. cbn. apply (inj pretty). }
  assert (∀ text doc', yaml_parse env text = inr doc' → wf doc' = true) as Hwf.
  { intros text doc'. cbn. by intros [= <-]. }
  exists cfg. split; [done|]. split.
  - vm_compute in E. injection E as <-. reflexivity.
  - exact (proj1 (service_ids_are_unique env cfg Hinj Hwf E)).
Defined.




(** A load that raises: the document is rejected by the schema and a group
    of its [services] is named [_errors], so that [format] takes the list of
    reasons of [services] for the node of that group. *)
Lemma report_collision_raises :
  let doc := JObj [("services", JObj [("_errors", JNum 5)])] in
  let env := {| hasItem := inr true; getItem := inr (Some "services: ...");
                yaml_parse := λ _, inr doc; randomUUID := λ n, pretty n |} in
  loadLocalConfig env
  = Raise (Error "Cannot read properties of undefined (reading 'push')").
Proof. reflexivity. Qed.

(** ** The safe view *)

Section redact_facts.

Lemma redact_obj ps :
  redact (JObj ps)
  = JObj (own_entries
            (omap (λ kv, if decide (kv.1 = "secrets") then None
                         else Some (kv.1, redact kv.2)) ps)).
Proof.
  cbn [redact]. do 2 f_equal.
  induction ps as [|[k x] r IH]; [done|].
  cbn [omap list_omap fst snd]. rewrite IH. by destruct (decide (k = "secrets")).
Qed.

Lemma pretty_nat_ne_secrets (i : nat) : pretty i ≠ "secrets".
Proof. intros H. by apply pretty_nat_head in H. Qed.

(** What [JSON.stringify] writes under the replacer of the safe view. *)
Lemma serialize_secrets v : ∀ key,
  Json.serialize secrets_replacer key v
  = inr (if bool_decide (key = "secrets") then None else Some (redact v)).
Proof.
  induction v as [|b|n|s|xs IH|ps IH] using value_ind; intros key.
  3: destruct n.
  1-8: cbn; by destruct (bool_decide _).
  - cbn [Json.serialize]. unfold secrets_replacer at 1. cbn [Throw.bind].
    destruct (bool_decide (key = "secrets")); [done|].
    assert (∀ i, (fix elems (i : nat) (l : list value) : Throw.t (list value) :=
                    match l with
                    | [] => inr []
                    | x :: l' =>
                        t ←! Json.serialize secrets_replacer (pretty i) x;
                        ts ←! elems (S i) l';
                        inr (default JNull t :: ts)
                    end) i xs = inr (redact <$> xs)) as Hel.
    2: { rewrite Hel. done. }
    induction IH as [|x r Hx _ IHr]; intros i; [done|].
    rewrite Hx. rewrite bool_decide_eq_false_2 by apply pretty_nat_ne_secrets.
    cbn [Throw.bind]. by rewrite IHr.
  - cbn [Json.serialize]. unfold secrets_replacer at 1. cbn [Throw.bind].
    destruct (bool_decide (key = "secrets")); [done|].
    rewrite redact_obj.
    assert ((fix members (l : list (string * value))
               : Throw.t (list (string * value)) :=
               match l with
               | [] => inr []
               | (k, x) :: l' =>
                   t ←! Json.serialize secrets_replacer k x;
                   ts ←! members l';
                   inr (match t with
                        | Some t' => (k, t') :: ts
                        | None => ts
                        end)
               end) ps
            = inr (omap (λ kv, if decide (kv.1 = "secrets") then None
                               else Some (kv.1, redact kv.2)) ps)) as ->; [|done].
    induction IH as [|[k x] r Hx _ IHr]; [done|].
    cbn [snd] in Hx. rewrite Hx. cbn [Throw.bind]. rewrite IHr.
    cbn [Throw.bind omap list_omap fst snd].
    destruct (decide (k = "secrets")) as [->|Hne].
    + by rewrite bool_decide_eq_true_2.
    + by rewrite bool_decide_eq_false_2.
Qed.

Lemma extractSafelyConfig_redact v : extractSafelyConfig v = inr (redact v).
Proof.
  unfold extractSafelyConfig, Json.parse_stringify.
  by rewrite serialize_secrets.
Qed.

Lemma no_secrets_redact v : no_secrets (redact v) = true.
Proof.
  induction v as [|b|n|s|xs IH|ps IH] using value_ind; try done.
  - by destruct n.
  - cbn [redact no_secrets]. apply forallb_Forall. by apply Forall_fmap.
  - rewrite redact_obj. cbn [no_secrets]. apply forallb_Forall.
    rewrite own_entries_perm.
    induction IH as [|[k x] r Hx _ IHr]; [constructor|].
    cbn [omap list_omap fst snd] in *.
    destruct (decide (k = "secrets")) as [->|Hne]; [done|].
    apply Forall_cons_2; [|done]. cbn [fst snd].
    by rewrite bool_decide_eq_false_2, Hx.
Qed.

Lemma assoc_get_omap_redact ps k :
  assoc_get k (omap (λ kv, if decide (kv.1 = "secrets") then None
                           else Some (kv.1, redact kv.2)) ps)
  = if decide (k = "secrets") then None else redact <$> assoc_get k ps.
Proof.
  induction ps as [|[k' x] r IH]; [by destruct (decide _)|].
  cbn [omap list_omap fst snd assoc_get].
  destruct (decide (k' = "secrets")) as [->|Hne].
  - rewrite IH. by destruct (decide (k = "secrets")).
  - cbn [assoc_get]. destruct (decide (k = k')) as [->|Hk]; [|apply IH].
    by destruct (decide (k' = "secrets")).
Qed.

Lemma redact_keys_NoDup ps :
  NoDup ps.*1 →
  NoDup (omap (λ kv, if decide (kv.1 = "secrets") then None
                     else Some (kv.1, redact kv.2)) ps).*1.
Proof.
  induction ps as [|[k x] r IH]; [done|].
  intros [Hk Hr]%NoDup_cons. cbn [omap list_omap fst snd].
  destruct (decide (k = "secrets")); [by apply IH|].
  rewrite fmap_cons. apply NoDup_cons. split; [|by apply IH]. cbn [fst] in *.
  intros ((k' & y) & -> & Hin)%list_elem_of_fmap. apply Hk.
  apply list_elem_of_omap in Hin as ((k'' & z) & Hin & Heq).
  cbn [fst snd] in Heq. destruct (decide (k'' = "secrets")); [done|].
  injection Heq as -> _. apply list_elem_of_fmap. by exists (k', z).
Qed.

(** Every property of the copy is the redacted property of the input, and
    the properties named [secrets] are gone. *)
Lemma redact_lookup v k :
  (∀ ps, v = JObj ps → NoDup ps.*1) →
  get (redact v) k
  = if decide (k = "secrets") then None else redact <$> get v k.
Proof.
  intros Hnd. destruct v as [|b|n|s|xs|ps]; try by destruct (decide _).
  - destruct n; by destruct (decide _).
  - cbn [redact get]. destruct (decide (k = "secrets")) as [->|Hne].
    + done.
    + case_decide; [done|]. destruct (array_index k); [|done].
      unfold char_at. by destruct (String.get _ s).
  - cbn [redact get]. rewrite length_fmap.
    destruct (decide (k = "secrets")) as [->|Hne]; [done|].
    case_decide; [done|]. destruct (array_index k); [|done].
    by rewrite list_lookup_fmap.
  - rewrite redact_obj. cbn [get].
    rewrite assoc_get_own_entries by (apply redact_keys_NoDup; by apply Hnd).
    apply assoc_get_omap_redact.
Qed.

End redact_facts.

Section heap_facts.
Import Heap.

Lemma ref_fresh_le n n' r : (n' ≤ n)%nat → ref_fresh n r → ref_fresh n' r.
Proof. destruct r; cbn; [done..|lia]. Qed.

Lemma cell_fresh_le n n' c : (n' ≤ n)%nat → cell_fresh n c → cell_fresh n' c.
Proof.
  intros Hle. destruct c as [rs|ps]; cbn; intros H;
    (eapply Forall_impl; [exact H|]).
  - intros r. by apply ref_fresh_le.
  - intros [k r]. by apply ref_fresh_le.
Qed.

(** Reading depends neither on cells added at the end of the heap nor on
    fuel that is left over. *)
Lemma read_more fuel : ∀ h r v fuel' fresh,
  read fuel h r = Some v → (fuel ≤ fuel')%nat →
  read fuel' (h ++ fresh) r = Some v.
Proof.
  induction fuel as [|fuel IH]; intros h r v fuel' fresh Hread Hle.
  - destruct r; try done; by destruct fuel'.
  - destruct r as [| | | |l]; try (by destruct fuel').
    destruct fuel' as [|fuel']; [lia|]. cbn [read] in *.
    destruct (h !! l) as [c|] eqn:E; [|done].
    rewrite (lookup_app_l_Some _ _ _ _ E).
    destruct c as [rs|ps].
    + destruct (mapM (read fuel h) rs) as [xs|] eqn:Em; [|done].
      apply mapM_Some in Em.
      assert (mapM (read fuel' (h ++ fresh)) rs = Some xs) as ->; [|done].
      apply mapM_Some. eapply Forall2_impl; [exact Em|].
      intros r' x Hx. cbn beta in *. eapply IH; [done|lia].
    + destruct (mapM _ ps) as [xs|] eqn:Em; [|done].
      apply mapM_Some in Em.
      assert (mapM (λ kr, pair kr.1 <$> read fuel' (h ++ fresh) kr.2) ps = Some xs)
        as ->; [|done].
      apply mapM_Some. eapply Forall2_impl; [exact Em|].
      intros [k r'] x Hx. cbn [fst snd] in *.
      destruct (read fuel h r') as [y|] eqn:Ey; [|done].
      by rewrite (IH _ _ _ fuel' fresh Ey) by lia.
Qed.

Lemma read_fuel fuel fuel' h r v :
  read fuel h r = Some v → (fuel ≤ fuel')%nat → read fuel' h r = Some v.
Proof.
  intros H Hle. rewrite <- (app_nil_r h). by eapply read_more.
Qed.

(** The cells of a structure that can be read are cells of the heap. *)
Lemma read_reachable fuel : ∀ h r v l,
  read fuel h r = Some v → reachable h r l → (l < length h)%nat.
Proof.
  induction fuel as [|fuel IH]; intros h r v l Hread Hreach.
  - inversion Hreach; subst; done.
  - inversion Hreach as [|l0 rs r' ? Hcell Hin Hr'|l0 ps k r' ? Hcell Hin Hr'];
      subst; cbn [read] in Hread.
    + destruct (h !! l) eqn:E; [|done]. by apply lookup_lt_Some in E.
    + rewrite Hcell in Hread.
      destruct (mapM (read fuel h) rs) as [xs|] eqn:Em; [|done].
      apply mapM_Some in Em.
      apply list_elem_of_lookup in Hin as [i Hi].
      destruct (Forall2_lookup_l _ _ _ _ _ Em Hi) as (x & _ & Hx).
      by eapply IH.
    + rewrite Hcell in Hread.
      destruct (mapM _ ps) as [xs|] eqn:Em; [|done].
      apply mapM_Some in Em.
      apply list_elem_of_lookup in Hin as [i Hi].
      destruct (Forall2_lookup_l _ _ _ _ _ Em Hi) as (x & _ & Hx).
      cbn [fst snd] in Hx. destruct (read fuel h r') as [y|] eqn:Ey; [|done].
      by eapply IH.
Qed.

(** A structure made of fresh cells only stays above the old heap. *)
Lemma reachable_fresh h fresh r l :
  reachable (h ++ fresh) r l →
  ref_fresh (length h) r → Forall (cell_fresh (length h)) fresh →
  (length h ≤ l)%nat.
Proof.
  intros Hreach Hr Hcells. remember (h ++ fresh) as h' eqn:Hh'.
  induction Hreach as [l|l0 rs r' l Hcell Hin _ IH|l0 ps k r' l Hcell Hin _ IH];
    subst h'.
  - done.
  - cbn in Hr. rewrite lookup_app_r in Hcell by done.
    apply list_elem_of_lookup_2 in Hcell.
    eapply Forall_forall in Hcells; [|exact Hcell]. cbn in Hcells.
    apply IH. by eapply Forall_forall in Hcells.
  - cbn in Hr. rewrite lookup_app_r in Hcell by done.
    apply list_elem_of_lookup_2 in Hcell.
    eapply Forall_forall in Hcells; [|exact Hcell]. cbn in Hcells.
    apply IH. eapply Forall_forall in Hcells; [|exact Hin]. exact Hcells.
Qed.

Lemma alloc_arr xs h :
  alloc (JArr xs) h
  = ((alloc_list xs h).1 ++ [CArr (alloc_list xs h).2],
     RPtr (length (alloc_list xs h).1)).
Proof.
  cbn [alloc]. cbv zeta.
  match goal with
  | |- ((?f xs h).1 ++ _, _) = _ =>
      assert (∀ h, f xs h = alloc_list xs h) as ->; [|done]
  end.
  induction xs as [|x r IH]; intros h'; [done|]. cbn. by rewrite IH.
Qed.

Lemma alloc_obj ps h :
  alloc (JObj ps) h
  = ((alloc_props ps h).1 ++ [CObj (alloc_props ps h).2],
     RPtr (length (alloc_props ps h).1)).
Proof.
  cbn [alloc]. cbv zeta.
  match goal with
  | |- ((?f ps h).1 ++ _, _) = _ =>
      assert (∀ h, f ps h = alloc_props ps h) as ->; [|done]
  end.
  induction ps as [|[k x] r IH]; intros h'; [done|]. cbn. by rewrite IH.
Qed.

Lemma depth_elem x xs :
  x ∈ xs → (depth x ≤ foldr (λ x d, depth x `max` d) 0 xs)%nat.
Proof.
  induction xs as [|y r IH]; [by intros ?%elem_of_nil|].
  intros [->|Hin]%elem_of_cons; cbn [foldr]; [lia|]. specialize (IH Hin). lia.
Qed.

Lemma depth_prop kv (ps : list (string * value)) :
  kv ∈ ps → (depth kv.2 ≤ foldr (λ kv d, depth kv.2 `max` d) 0 ps)%nat.
Proof.
  induction ps as [|y r IH]; [by intros ?%elem_of_nil|].
  intros [->|Hin]%elem_of_cons; cbn [foldr]; [lia|]. specialize (IH Hin). lia.
Qed.

Lemma alloc_list_spec xs :
  Forall alloc_spec xs →
  ∀ h, ∃ fresh,
    (alloc_list xs h).1 = h ++ fresh
    ∧ Forall (ref_fresh (length h)) (alloc_list xs h).2
    ∧ Forall (cell_fresh (length h)) fresh
    ∧ Forall2 (λ r x, read (depth x) (h ++ fresh) r = Some x)
        (alloc_list xs h).2 xs.
Proof.
  induction 1 as [|x r Hx _ IH]; intros h.
  - exists []. by rewrite app_nil_r.
  - destruct (Hx h) as (f1 & E1 & Hr1 & Hc1 & Hread1).
    destruct (IH (alloc x h).1) as (f2 & E2 & Hr2 & Hc2 & Hread2).
    rewrite E1 in *. cbn [alloc_list]. cbv zeta. cbn [fst snd].
    rewrite E1, E2, <- app_assoc. exists (f1 ++ f2). split_and!.
    + done.
    + apply Forall_cons_2; [done|]. eapply Forall_impl; [exact Hr2|].
      intros r'. apply ref_fresh_le. rewrite length_app. lia.
    + apply Forall_app. split; [done|]. eapply Forall_impl; [exact Hc2|].
      intros c. apply cell_fresh_le. rewrite length_app. lia.
    + constructor.
      * rewrite app_assoc. by eapply read_more.
      * by rewrite app_assoc.
Qed.

Lemma alloc_props_spec ps :
  Forall (λ kv, alloc_spec kv.2) ps →
  ∀ h, ∃ fresh,
    (alloc_props ps h).1 = h ++ fresh
    ∧ Forall (λ kr, ref_fresh (length h) kr.2) (alloc_props ps h).2
    ∧ Forall (cell_fresh (length h)) fresh
    ∧ Forall2 (λ kr kv, kr.1 = kv.1
                        ∧ read (depth kv.2) (h ++ fresh) kr.2 = Some kv.2)
        (alloc_props ps h).2 ps.
Proof.
  induction 1 as [|[k x] r Hx _ IH]; intros h.
  - exists []. by rewrite app_nil_r.
  - cbn [snd] in Hx. destruct (Hx h) as (f1 & E1 & Hr1 & Hc1 & Hread1).
    destruct (IH (alloc x h).1) as (f2 & E2 & Hr2 & Hc2 & Hread2).
    rewrite E1 in *. cbn [alloc_props]. cbv zeta. cbn [fst snd].
    rewrite E1, E2, <- app_assoc. exists (f1 ++ f2). split_and!.
    + done.
    + apply Forall_cons_2; [done|]. eapply Forall_impl; [exact Hr2|].
      intros r'. apply ref_fresh_le. rewrite length_app. lia.
    + apply Forall_app. split; [done|]. eapply Forall_impl; [exact Hc2|].
      intros c. apply cell_fresh_le. rewrite length_app. lia.
    + constructor.
      * split; [done|]. cbn [snd]. rewrite app_assoc. by eapply read_more.
      * by rewrite app_assoc.
Qed.

Lemma alloc_ok v : alloc_spec v.
Proof.
  induction v as [|b|n|s|xs IH|ps IH] using value_ind.
  1-4: intros h; exists []; by rewrite app_nil_r.
  - intros h. rewrite alloc_arr. cbn [fst snd].
    destruct (alloc_list_spec xs IH h) as (fresh & E & Hrs & Hcells & Hread).
    rewrite E. exists (fresh ++ [CArr (alloc_list xs h).2]). split_and!.
    + by rewrite app_assoc.
    + cbn. rewrite length_app. lia.
    + apply Forall_app. split; [done|]. by apply Forall_singleton.
    + cbn [depth read]. rewrite list_lookup_middle by done.
      assert (mapM (read (foldr (λ x d, depth x `max` d) 0%nat xs)
                      ((h ++ fresh) ++ [CArr (alloc_list xs h).2]))
                (alloc_list xs h).2 = Some xs) as ->; [|done].
      apply mapM_Some. apply Forall2_same_length_lookup.
      split; [by eapply Forall2_length|]. intros i r x Hr Hx.
      eapply read_more.
      * eapply Forall2_lookup_lr in Hread; [exact Hread|done..].
      * apply depth_elem. by eapply list_elem_of_lookup_2.
  - intros h. rewrite alloc_obj. cbn [fst snd].
    destruct (alloc_props_spec ps IH h) as (fresh & E & Hrs & Hcells & Hread).
    rewrite E. exists (fresh ++ [CObj (alloc_props ps h).2]). split_and!.
    + by rewrite app_assoc.
    + cbn. rewrite length_app. lia.
    + apply Forall_app. split; [done|]. by apply Forall_singleton.
    + cbn [depth read]. rewrite list_lookup_middle by done.
      assert (mapM (λ kr, pair kr.1 <$>
                      read (foldr (λ kv d, depth kv.2 `max` d) 0%nat ps)
                        ((h ++ fresh) ++ [CObj (alloc_props ps h).2]) kr.2)
                (alloc_props ps h).2 = Some ps) as ->; [|done].
      apply mapM_Some. apply Forall2_same_length_lookup.
      split; [by eapply Forall2_length|]. intros i [k r] [k' x] Hr Hx.
      eapply Forall2_lookup_lr in Hread; [|done..].
      cbn [fst snd] in *. destruct Hread as [-> Hread].
      erewrite read_more; [done|exact Hread|].
      apply (depth_prop (k', x)). by eapply list_elem_of_lookup_2.
Qed.

End heap_facts.

Lemma wf_get v k w : wf v = true → get v k = Some w → wf w = true.
Proof.
  destruct v as [|b|n|s|xs|ps]; try done; cbn [wf get].
  - intros _. case_decide; [by intros [= <-]|].
    destruct (array_index k); [|done]. unfold char_at.
    destruct (String.get _ s); [|done]. by intros [= <-].
  - intros Hxs. case_decide; [by intros [= <-]|].
    destruct (array_index k); [|done]. intros Hin%list_elem_of_lookup_2.
    apply forallb_Forall in Hxs. by eapply Forall_forall in Hxs.
  - intros [_ Hps]%andb_true_iff Hin%assoc_get_Some_elem.
    apply forallb_Forall in Hps. eapply Forall_forall in Hps; [|exact Hin]. done.
Qed.

Lemma get_path_redact p : ∀ v,
  wf v = true →
  get_path (redact v) p
  = if decide ("secrets" ∈ p) then None else redact <$> get_path v p.
Proof.
  induction p as [|k p IH]; intros v Hwf.
  - rewrite decide_False by apply not_elem_of_nil. done.
  - cbn [get_path]. rewrite redact_lookup.
    2: { intros ps ->. by apply wf_object. }
    destruct (decide (k = "secrets")) as [->|Hk].
    + rewrite decide_True by left. done.
    + destruct (get v k) as [w|] eqn:E; cbn [fmap option_fmap option_map].
      * rewrite IH by by eapply wf_get.
        destruct (decide ("secrets" ∈ p)) as [Hin|Hin].
        -- rewrite decide_True by by right. done.
        -- rewrite decide_False; [done|]. by intros [?|?]%elem_of_cons.
      * by destruct (decide ("secrets" ∈ k :: p)).
Qed.

(** What the copy has where the input has the value [w]: the same value
    for [null], a boolean, a string or an integer; [0] for the negative
    zero and [null] for [NaN] and the infinities; an array of the same
    length for an array, an object for an object. *)
Lemma redact_shape w :
  match w with
  | JNull | JBool _ | JStr _ | JNum (Int _) => redact w = w
  | JNum NegZero => redact w = JNum 0
  | JNum _ => redact w = JNull
  | JArr xs => ∃ ys, redact w = JArr ys ∧ length ys = length xs
  | JObj _ => ∃ qs, redact w = JObj qs
  end.
Proof.
  destruct w as [|b|[]|s|xs|ps]; try done.
  - exists (redact <$> xs). by rewrite length_fmap.
  - by eexists.
Qed.

(** C2, as amended.  For a configuration held in memory that is plain data
    without cycles, no object having two properties of the same name,
    [extractSafelyConfig] returns a copy without the properties named
    [secrets]: at any path that does not go through the name [secrets] the
    copy has what the input has there, redacted in the same way below, and
    at a path through [secrets] it has nothing.  A number that is [NaN] or
    infinite comes back as [null] and the negative zero as [0]; [null],
    booleans, strings and the other numbers come back as they are, arrays
    with their length.  The copy is made of new cells only, so that it
    shares no array or object with the input, and the cells of the input
    are left as they were. *)
Theorem safe_view_is_a_redacted_copy
    (fuel : nat) (h : Heap.heap) (config : Heap.ref) (v : value) :
  Heap.read fuel h config = Some v →
  wf v = true →
  extractSafelyConfig v = inr (redact v)
  ∧ no_secrets (redact v) = true
  ∧ (∀ p, get_path (redact v) p
          = if decide ("secrets" ∈ p) then None else redact <$> get_path v p)
  ∧ (∀ p w, "secrets" ∉ p → get_path v p = Some w →
            match w with
            | JNull | JBool _ | JStr _ | JNum (Int _) =>
                get_path (redact v) p = Some w
            | JNum NegZero => get_path (redact v) p = Some (JNum 0)
            | JNum _ => get_path (redact v) p = Some JNull
            | JArr xs =>
                ∃ ys, get_path (redact v) p = Some (JArr ys)
                      ∧ length ys = length xs
            | JObj _ => ∃ qs, get_path (redact v) p = Some (JObj qs)
            end)
  ∧ ∃ h' copy,
      extractSafelyConfig_heap fuel h config = Some (inr (h', copy))
      ∧ (∃ fresh, h' = h ++ fresh)
      ∧ Heap.read fuel h' config = Some v
      ∧ Heap.read (depth (redact v)) h' copy = Some (redact v)
      ∧ ∀ l, Heap.reachable h' copy l →
             (length h ≤ l)%nat ∧ ¬ Heap.reachable h config l.
Proof.
  intros Hread Hwf. split_and!.
  - apply extractSafelyConfig_redact.
  - apply no_secrets_redact.
  - intros p. by apply get_path_redact.
  - intros p w Hp Hw. rewrite get_path_redact by done.
    rewrite decide_False by done. rewrite Hw.
    cbn [fmap option_fmap option_map].
    pose proof (redact_shape w) as Hshape.
    destruct w as [|b|[]|s|xs|ps]; try (by rewrite Hshape).
    + destruct Hshape as (ys & -> & ?). by exists ys.
    + destruct Hshape as (qs & ->). by exists qs.
  - destruct (alloc_ok (redact v) h) as (fresh & E & Hr & Hcells & Hcopy).
    exists (Heap.alloc (redact v) h).1, (Heap.alloc (redact v) h).2.
    split_and!.
    + unfold extractSafelyConfig_heap.
      rewrite Hread, extractSafelyConfig_redact. by destruct (Heap.alloc _ h).
    + by exists fresh.
    + rewrite E. by eapply read_more.
    + exact Hcopy.
    + intros l Hl. rewrite E in Hl.
      pose proof (reachable_fresh _ _ _ _ Hl Hr Hcells) as Hfresh.
      split; [done|]. intros Hold.
      pose proof (read_reachable _ _ _ _ _ Hread Hold). lia.
Qed.

Lemma safe_view_is_a_redacted_copy_witness :
  let h := [Heap.CObj [("token", Heap.RStr "t0p")];
            Heap.CObj [("title", Heap.RStr "Git"); ("secrets", Heap.RPtr 0);
                       ("weight", Heap.RNum NaN)];
            Heap.CArr [Heap.RPtr 1]] in
  let v := JArr [JObj [("title", JStr "Git");
                       ("secrets", JObj [("token", JStr "t0p")]);
                       ("weight", JNum NaN)]] in
  extractSafelyConfig v
  = inr (JArr [JObj [("title", JStr "Git"); ("weight", JNull)]])
  ∧ ∃ h' copy,
      extractSafelyConfig_heap 3 h (Heap.RPtr 2) = Some (inr (h', copy))
      ∧ Heap.read 3 h' (Heap.RPtr 2) = Some v
      ∧ ∀ l, Heap.reachable h' copy l → (3 ≤ l)%nat.
Proof.
  intros h v.
  destruct (safe_view_is_a_redacted_copy 3 h (Heap.RPtr 2) v eq_refl eq_refl)
    as (Hpure & _ & _ & _ & h' & copy & Hheap & _ & Hold & _ & Hnew).
  split; [exact Hpure|]. exists h', copy. split_and!; [done..|].
  intros l Hl. by destruct (Hnew l Hl).
Defined.

(** C2 fails as stated: not every field of the copy is the field of the
    input.  A document may give a number that is infinite (in YAML,
    [.inf]); validation accepts it as the [interval] of a [status], the
    loaded configuration has it, and the safe view has [null] in its
    place. *)
Lemma infinite_number_comes_back_null :
  let doc :=
    JObj [("services",
           JArr [JObj [("status", JObj [("interval", JNum PosInfinity)])]])] in
  let env := {| hasItem := inr true; getItem := inr (Some "services: ...");
                yaml_parse := λ _, inr doc; randomUUID := λ n, pretty n |} in
  let interval := ["services"; "0"; "items"; "0"; "status"; "interval"] in
  ∃ cfg copy,
    loadLocalConfig env = Return cfg
    ∧ extractSafelyConfig cfg = inr copy
    ∧ get_path cfg interval = Some (JNum PosInfinity)
    ∧ get_path copy interval = Some JNull.
Proof. intros doc env interval. do 2 eexists. split_and!; reflexivity. Qed.

(** ** The merge on references *)

Section keyed_lists.
Context {A B : Type} (Q : A → B → Prop).

Lemma keyed_insert_by_index n x y l1 l2 :
  Forall2 (λ a b, a.1 = b.1 ∧ a.2.1 = b.2.1 ∧ Q a.2.2 b.2.2) l1 l2 →
  x.1 = y.1 → Q x.2 y.2 →
  Forall2 (λ a b : N * (string * _), a.1 = b.1 ∧ a.2.1 = b.2.1 ∧ Q a.2.2 b.2.2)
    (insert_by_index n x l1) (insert_by_index n y l2).
Proof.
  intros H Hk Hq. induction H as [|[m a] [m' b] r1 r2 (Hm & Ha) Hr IH]; cbn.
  - by repeat constructor.
  - cbn in Hm. subst m'. destruct (n <? m)%N.
    + constructor; [done|]. by constructor.
    + by constructor.
Qed.

Lemma keyed_own_entries l1 l2 :
  keyed Q l1 l2 → keyed Q (own_entries l1) (own_entries l2).
Proof.
  intros H. unfold own_entries. apply Forall2_app.
  - apply Forall2_fmap.
    assert (Forall2 (λ a b : N * (string * _),
                       a.1 = b.1 ∧ a.2.1 = b.2.1 ∧ Q a.2.2 b.2.2)
              (sort_by_index (omap (λ kv : string * A,
                                      match array_index kv.1 with
                                      | Some n => Some (n, kv)
                                      | None => None
                                      end) l1))
              (sort_by_index (omap (λ kv : string * B,
                                      match array_index kv.1 with
                                      | Some n => Some (n, kv)
                                      | None => None
                                      end) l2))) as Hs.
    { induction H as [|[k a] [k' b] r1 r2 [Hk Hq] _ IH]; [constructor|].
      cbn [fst snd] in *. subst k'. cbn [omap list_omap fst].
      destruct (array_index k) as [n|]; [|exact IH].
      cbn [sort_by_index foldr fst snd]. by apply keyed_insert_by_index. }
    eapply Forall2_impl; [exact Hs|]. by intros [m a] [m' b] (_ & ? & ?).
  - induction H as [|[k a] [k' b] r1 r2 [Hk Hq] _ IH]; [constructor|].
    cbn [fst snd] in *. subst k'. rewrite !filter_cons. cbn [fst].
    destruct (decide (is_index k = false)); [|exact IH].
    constructor; [done | exact IH].
Qed.

Lemma keyed_assoc_get k l1 l2 :
  keyed Q l1 l2 →
  match assoc_get k l1, assoc_get k l2 with
  | Some a, Some b => Q a b
  | None, None => True
  | _, _ => False
  end.
Proof.
  induction 1 as [|[k1 a] [k2 b] r1 r2 [Hk Hq] _ IH]; [done|].
  cbn [fst snd assoc_get] in *. subst k2. by destruct (decide (k = k1)).
Qed.

Lemma keyed_assoc_set k a b l1 l2 :
  keyed Q l1 l2 → Q a b → keyed Q (assoc_set k a l1) (assoc_set k b l2).
Proof.
  intros H Hq. induction H as [|[k1 a'] [k2 b'] r1 r2 [Hk Hq'] Hr IH].
  - by repeat constructor.
  - cbn [fst snd assoc_set] in *. subst k2.
    destruct (decide (k = k1)); by constructor.
Qed.

End keyed_lists.

Section defu_heap.
Import Heap.

Lemma holds_more h fresh r v : holds h r v → holds (h ++ fresh) r v.
Proof. intros [fuel H]. exists fuel. by eapply read_more. Qed.

Lemma props_hold_more h fresh rs ps :
  props_hold h rs ps → props_hold (h ++ fresh) rs ps.
Proof.
  intros H. eapply Forall2_impl; [exact H|].
  intros kr kv [? ?]. split; [done | by apply holds_more].
Qed.

Lemma holds_scalar h r v :
  holds h r v → (∀ xs, v ≠ JArr xs) → (∀ ps, v ≠ JObj ps) →
  (∀ l, r ≠ RPtr l) ∧ ∀ h', holds h' r v.
Proof.
  intros [fuel H] Harr Hobj. destruct r as [| | | |l].
  1-4: split; [done|]; intros h'; exists 0%nat; by destruct fuel.
  exfalso. destruct fuel as [|fuel]; [done|]. cbn in H.
  destruct (h !! l) as [[rs|rps]|]; [| |done].
  - destruct (mapM _ rs); [|done]. injection H as <-. by eapply Harr.
  - destruct (mapM _ rps); [|done]. injection H as <-. by eapply Hobj.
Qed.

Lemma holds_null h r : holds h r JNull → r = RNull.
Proof.
  intros [fuel H]. destruct r as [| | | |l]; try by destruct fuel.
  destruct fuel as [|fuel]; [done|]. cbn in H.
  destruct (h !! l) as [[rs|rps]|]; [| |done].
  - by destruct (mapM _ rs).
  - by destruct (mapM _ rps).
Qed.

Lemma holds_array h r xs :
  holds h r (JArr xs) →
  ∃ l rs, r = RPtr l ∧ h !! l = Some (CArr rs) ∧ Forall2 (holds h) rs xs.
Proof.
  intros [fuel H]. destruct r as [| | | |l]; try by destruct fuel.
  destruct fuel as [|fuel]; [done|]. cbn in H.
  destruct (h !! l) as [[rs|rps]|] eqn:E; [| |done].
  - destruct (mapM _ rs) as [ys|] eqn:Em; [|done]. injection H as <-.
    exists l, rs. split_and!; [done..|].
    apply mapM_Some in Em. eapply Forall2_impl; [exact Em|].
    intros r' x Hx. by exists fuel.
  - by destruct (mapM _ rps).
Qed.

Lemma holds_object h r ps :
  holds h r (JObj ps) →
  ∃ l rps, r = RPtr l ∧ h !! l = Some (CObj rps) ∧ props_hold h rps ps.
Proof.
  intros [fuel H]. destruct r as [| | | |l]; try by destruct fuel.
  destruct fuel as [|fuel]; [done|]. cbn in H.
  destruct (h !! l) as [[rs|rps]|] eqn:E; [| |done].
  - by destruct (mapM _ rs).
  - destruct (mapM _ rps) as [qs|] eqn:Em; [|done]. injection H as <-.
    exists l, rps. split_and!; [done..|].
    apply mapM_Some in Em. eapply Forall2_impl; [exact Em|].
    intros [k r'] [k' x] Hx. cbn [fst snd] in *.
    destruct (read fuel h r') as [y|] eqn:Ey; [|done].
    injection Hx as <- <-. split; [done | by exists fuel].
Qed.

(** One fuel for all the elements. *)
Lemma holds_all h rs xs :
  Forall2 (holds h) rs xs →
  ∃ fuel, Forall2 (λ r x, read fuel h r = Some x) rs xs.
Proof.
  induction 1 as [|r x rs xs [f Hf] _ [fuel IH]].
  - exists 0%nat. constructor.
  - exists (f `max` fuel). constructor.
    + eapply read_fuel; [exact Hf | lia].
    + eapply Forall2_impl; [exact IH|]. intros r' x' H'.
      eapply read_fuel; [exact H' | lia].
Qed.

Lemma holds_array_cell h l rs xs :
  h !! l = Some (CArr rs) → Forall2 (holds h) rs xs → holds h (RPtr l) (JArr xs).
Proof.
  intros Hl [fuel H]%holds_all. exists (S fuel). cbn. rewrite Hl.
  assert (mapM (read fuel h) rs = Some xs) as ->; [|done]. by apply mapM_Some.
Qed.

Lemma holds_object_cell h l rps ps :
  h !! l = Some (CObj rps) → props_hold h rps ps → holds h (RPtr l) (JObj ps).
Proof.
  intros Hl H.
  assert (∃ fuel, Forall2 (λ kr kv, kr.1 = kv.1 ∧ read fuel h kr.2 = Some kv.2)
                    rps ps) as [fuel Hf].
  { unfold props_hold in H. clear Hl.
    induction H as [|kr kv rs' ps' [Hk [f Hf]] _ [fuel IH]].
    - exists 0%nat. constructor.
    - exists (f `max` fuel). constructor.
      + split; [done|]. eapply read_fuel; [exact Hf | lia].
      + eapply Forall2_impl; [exact IH|]. intros kr' kv' [? H'].
        split; [done|]. eapply read_fuel; [exact H' | lia]. }
  exists (S fuel). cbn. rewrite Hl.
  assert (mapM (λ kr, pair kr.1 <$> read fuel h kr.2) rps = Some ps) as ->; [|done].
  apply mapM_Some. eapply Forall2_impl; [exact Hf|].
  intros [k r] [k' x] [Hk Hr]. cbn [fst snd] in *. subst k'. by rewrite Hr.
Qed.


Lemma holds_ptr h l v :
  holds h (RPtr l) v →
  match h !! l with
  | Some (CArr rs) => ∃ xs, v = JArr xs ∧ Forall2 (holds h) rs xs
  | Some (CObj rps) => ∃ ps, v = JObj ps ∧ props_hold h rps ps
  | None => False
  end.
Proof.
  intros H. destruct v as [|b|n|s|xs|ps].
  1-4: by destruct (holds_scalar _ _ _ H) as [Hnp _]; [done..|destruct (Hnp l)].
  - destruct (holds_array _ _ _ H) as (l' & rs & [= <-] & -> & Hrs). by exists xs.
  - destruct (holds_object _ _ _ H) as (l' & rps & [= <-] & -> & Hrps). by exists ps.
Qed.

Lemma Forall2_impl_elem {A B} (P Q : A → B → Prop) l k :
  Forall2 P l k → (∀ x y, x ∈ l → y ∈ k → P x y → Q x y) → Forall2 Q l k.
Proof.
  induction 1 as [|x y l k Hxy _ IH]; intros HPQ; constructor.
  - apply HPQ; [left | left | done].
  - apply IH. intros x' y' Hin Hin'. apply HPQ; by right.
Qed.

Lemma Forall2_elem_l {A B} (P : A → B → Prop) l k x :
  Forall2 P l k → x ∈ l → ∃ y, P x y.
Proof.
  intros H [i Hi]%list_elem_of_lookup.
  destruct (Forall2_lookup_l _ _ _ _ _ H Hi) as (y & _ & Hy). by exists y.
Qed.

(** *** Reachability *)

Lemma reachable_more h fresh r l : reachable h r l → reachable (h ++ fresh) r l.
Proof.
  induction 1 as [l|l0 rs r l Hcell Hin _ IH|l0 ps k r l Hcell Hin _ IH].
  - constructor.
  - eapply reach_elem; [by apply lookup_app_l_Some|done..].
  - eapply reach_prop; [by apply lookup_app_l_Some|done..].
Qed.

(** What a reference holds does not reach into cells added later. *)
Lemma reachable_closed h fresh r v l :
  holds h r v → reachable (h ++ fresh) r l → reachable h r l.
Proof.
  intros Hv Hreach. revert v Hv. remember (h ++ fresh) as h' eqn:Hh'.
  induction Hreach as [l|l0 rs r l Hcell Hin _ IH|l0 ps k r l Hcell Hin _ IH];
    intros v Hv; subst h'.
  - constructor.
  - apply holds_ptr in Hv. destruct (h !! l0) as [c|] eqn:E; [|done].
    rewrite (lookup_app_l_Some _ _ _ _ E) in Hcell. injection Hcell as ->.
    destruct Hv as (xs & _ & Hrs).
    destruct (Forall2_elem_l _ _ _ _ Hrs Hin) as (x & Hx).
    eapply reach_elem; [done..|]. by eapply IH.
  - apply holds_ptr in Hv. destruct (h !! l0) as [c|] eqn:E; [|done].
    rewrite (lookup_app_l_Some _ _ _ _ E) in Hcell. injection Hcell as ->.
    destruct Hv as (qs & _ & Hps).
    destruct (Forall2_elem_l _ _ _ _ Hps Hin) as (x & _ & Hx).
    eapply reach_prop; [done..|]. by eapply IH.
Qed.

Lemma holds_reachable h r v l : holds h r v → reachable h r l → (l < length h)%nat.
Proof. intros [fuel H]. by eapply read_reachable. Qed.

(** A write to a cell that a reference does not reach changes neither what
    the reference holds nor what it reaches. *)
Lemma read_write lo c fuel : ∀ h r v,
  read fuel h r = Some v → ¬ reachable h r lo →
  read fuel (<[lo := c]> h) r = Some v.
Proof.
  induction fuel as [|fuel IH]; intros h r v Hread Hlo; [by destruct r|].
  destruct r as [| | | |l]; try done. cbn [read] in *.
  assert (l ≠ lo) as Hne by (intros ->; apply Hlo; constructor).
  rewrite list_lookup_insert_ne by done.
  destruct (h !! l) as [[rs|ps]|] eqn:E; [| |done].
  - destruct (mapM (read fuel h) rs) as [xs|] eqn:Em; [|done].
    apply mapM_Some in Em.
    assert (mapM (read fuel (<[lo := c]> h)) rs = Some xs) as ->; [|done].
    apply mapM_Some. eapply Forall2_impl_elem; [exact Em|].
    intros r' x Hin _ Hx. cbn beta in *. apply IH; [done|].
    intros Hr'. apply Hlo. by eapply reach_elem.
  - destruct (mapM _ ps) as [xs|] eqn:Em; [|done].
    apply mapM_Some in Em.
    assert (mapM (λ kr, pair kr.1 <$> read fuel (<[lo := c]> h) kr.2) ps = Some xs)
      as ->; [|done].
    apply mapM_Some. eapply Forall2_impl_elem; [exact Em|].
    intros [k r'] x Hin _ Hx. cbn [fst snd] in *.
    destruct (read fuel h r') as [y|] eqn:Ey; [|done].
    rewrite (IH _ _ _ Ey); [done|].
    intros Hr'. apply Hlo. by eapply reach_prop.
Qed.

Lemma reachable_write lo c h r l :
  reachable (<[lo := c]> h) r l → ¬ reachable h r lo → reachable h r l.
Proof.
  intros Hreach. remember (<[lo := c]> h) as h' eqn:Hh'.
  induction Hreach as [l|l0 rs r l Hcell Hin _ IH|l0 ps k r l Hcell Hin _ IH];
    intros Hlo; subst h'.
  - constructor.
  - assert (l0 ≠ lo) as Hne by (intros ->; apply Hlo; constructor).
    rewrite list_lookup_insert_ne in Hcell by done.
    eapply reach_elem; [done..|]. apply IH.
    intros Hr. apply Hlo. by eapply reach_elem.
  - assert (l0 ≠ lo) as Hne by (intros ->; apply Hlo; constructor).
    rewrite list_lookup_insert_ne in Hcell by done.
    eapply reach_prop; [done..|]. apply IH.
    intros Hr. apply Hlo. by eapply reach_prop.
Qed.

End defu_heap.

(** *** What a call of [_defu] keeps *)

Section kept_facts.
Import Heap.
Context (lo : nat) (R : nat → Prop) (HR : ∀ l, R l → (l < lo)%nat).

Lemma kept_unreachable h r v : kept lo R h r v → ¬ reachable h r lo.
Proof. intros [_ H] [?|?%HR]%H; lia. Qed.

Lemma kept_more h fresh r v : kept lo R h r v → kept lo R (h ++ fresh) r v.
Proof.
  intros [Hv H]. split; [by apply holds_more|].
  intros l Hl. apply H. by eapply reachable_closed.
Qed.

Lemma kept_write h c r v : kept lo R h r v → kept lo R (<[lo := c]> h) r v.
Proof.
  intros Hk. pose proof (kept_unreachable _ _ _ Hk) as Hlo.
  destruct Hk as [[fuel Hv] H]. split.
  - exists fuel. by apply read_write.
  - intros l Hl. apply H. by eapply reachable_write.
Qed.

Lemma frame_refl h : frame lo R h h.
Proof. by split_and!. Qed.

Lemma frame_trans h1 h2 h3 :
  frame lo R h1 h2 → frame lo R h2 h3 → frame lo R h1 h3.
Proof.
  intros (Ht & Hl & Hk) (Ht' & Hl' & Hk'). split_and!.
  - by rewrite Ht'.
  - lia.
  - intros r v H. by apply Hk', Hk.
Qed.

Lemma frame_more h fresh : (lo ≤ length h)%nat → frame lo R h (h ++ fresh).
Proof.
  intros Hlo. split_and!.
  - by rewrite take_app_le.
  - rewrite length_app. lia.
  - intros r v. apply kept_more.
Qed.

Lemma frame_write h c : frame lo R h (<[lo := c]> h).
Proof.
  split_and!.
  - rewrite take_insert. case_decide; [lia|done].
  - by rewrite length_insert.
  - intros r v. apply kept_write.
Qed.

Lemma frame_lookup h h' l : frame lo R h h' → (l < lo)%nat → h' !! l = h !! l.
Proof.
  intros (Ht & _ & _) Hl.
  assert (take lo h' !! l = take lo h !! l) as H by (by rewrite Ht).
  rewrite !lookup_take in H. by rewrite !decide_True in H.
Qed.

Lemma frame_props h h' rs ps :
  frame lo R h h' → keyed (kept lo R h) rs ps → keyed (kept lo R h') rs ps.
Proof.
  intros (_ & _ & Hk) H. eapply Forall2_impl; [exact H|].
  intros kr kv [? ?]. split; [done | by apply Hk].
Qed.

(** [object[key] = r]. *)
Lemma set_prop_sim h object pure_object key r v :
  h !! lo = Some (CObj object) →
  keyed (kept lo R h) object pure_object →
  kept lo R h r v →
  ∃ h' object',
    set_prop lo key r h = Some h'
    ∧ frame lo R h h'
    ∧ h' !! lo = Some (CObj object')
    ∧ keyed (kept lo R h') object' (assoc_set key v pure_object).
Proof.
  intros Hlo Hobj Hr. unfold set_prop. rewrite Hlo.
  eexists _, (assoc_set key r object). split_and!; [done|..].
  - apply frame_write.
  - apply list_lookup_insert_eq. by eapply lookup_lt_Some.
  - apply keyed_assoc_set; [|by apply kept_write].
    eapply frame_props; [apply frame_write | done].
Qed.

End kept_facts.

(** *** The merge on references computes the merge on values *)

Section tests.
Import Heap.

Lemma is_null_holds h r v :
  holds h r v → is_null r = match v with JNull => true | _ => false end.
Proof.
  intros H. destruct v as [|b|n|s|xs|ps].
  - by rewrite (holds_null _ _ H).
  - destruct r; try done. by destruct H as [[|?] ?].
  - destruct r; try done. by destruct H as [[|?] ?].
  - destruct r; try done. by destruct H as [[|?] ?].
  - by destruct (holds_array _ _ _ H) as (l & rs & -> & _).
  - by destruct (holds_object _ _ _ H) as (l & rs & -> & _).
Qed.

Lemma isArray_holds h r v :
  holds h r v → isArray h r = match v with JArr _ => true | _ => false end.
Proof.
  intros H. destruct r as [| | | |l].
  1-4: destruct H as [[|?] [= <-]]; done.
  apply holds_ptr in H. cbn. destruct (h !! l) as [[rs|rps]|]; [| |done].
  - by destruct H as (xs & -> & _).
  - by destruct H as (ps & -> & _).
Qed.

Lemma isPlainObject_holds h r v :
  holds h r v → isPlainObject h r = match v with JObj _ => true | _ => false end.
Proof.
  intros H. destruct r as [| | | |l].
  1-4: destruct H as [[|?] [= <-]]; done.
  apply holds_ptr in H. cbn. destruct (h !! l) as [[rs|rps]|]; [| |done].
  - by destruct H as (xs & -> & _).
  - by destruct H as (ps & -> & _).
Qed.

End tests.

Section turn.
Import Heap.
Context (merge : heap → ref → ref → option (heap * ref)) (bound : nat).
Context (Hmerge : ∀ h b d ps vd,
  holds h b (JObj ps) → holds h d vd → (depth (JObj ps) ≤ bound)%nat →
  ∃ fresh r',
    merge h b d = Some (h ++ fresh, r')
    ∧ holds (h ++ fresh) r' (Defu._defu (JObj ps) vd)
    ∧ ∀ l, reachable (h ++ fresh) r' l →
           (length h ≤ l)%nat ∨ reachable h b l ∨ reachable h d l).
Context (lo : nat) (R : nat → Prop) (HR : ∀ l, R l → (l < lo)%nat).

(** One turn of the loop on references does what the turn on values does,
    given that the nested merges do. *)
Lemma assign_sim h object pure_object key r v :
  h !! lo = Some (CObj object) →
  keyed (kept lo R h) object pure_object →
  kept lo R h r v → (depth v ≤ bound)%nat →
  ∃ h' object',
    assign merge lo (key, r) h = Some h'
    ∧ frame lo R h h'
    ∧ h' !! lo = Some (CObj object')
    ∧ keyed (kept lo R h') object'
        (Defu.assign pure_object (key, (v, Defu._defu v))).
Proof.
  intros Hlo Hobj Hr Hdepth.
  pose proof (lookup_lt_Some _ _ _ Hlo) as Hlt.
  pose proof (set_prop_sim lo R HR h object pure_object key r v Hlo Hobj Hr)
    as Hset.
  unfold assign, Defu.assign. cbn [fst snd].
  destruct (Defu.skipped_key key).
  { exists h, object. split_and!; [done|apply frame_refl|done..]. }
  rewrite (is_null_holds _ _ _ (proj1 Hr)).
  assert (v = JNull ∨ v ≠ JNull) as [->|Hnn] by (destruct v; auto).
  { exists h, object. split_and!; [done|apply frame_refl|done..]. }
  unfold get_prop. rewrite Hlo.
  pose proof (keyed_assoc_get (kept lo R h) key _ _ Hobj) as Hget.
  destruct (assoc_get key object) as [ro|], (assoc_get key pure_object) as [vo|];
    try done.
  2: { by destruct v. }
  rewrite (isArray_holds _ _ _ (proj1 Hr)), (isArray_holds _ _ _ (proj1 Hget)).
  rewrite (isPlainObject_holds _ _ _ (proj1 Hr)),
    (isPlainObject_holds _ _ _ (proj1 Hget)).
  destruct v as [|b|n|s|xs|ps]; [done|..]; cbn [andb]; try done.
  - (* two arrays *)
    destruct vo as [| | | |ys|qs]; cbn [andb]; try done.
    destruct (holds_array _ _ _ (proj1 Hr)) as (lv & rxs & -> & Hlv & Hxs).
    destruct (holds_array _ _ _ (proj1 Hget)) as (l' & rys & -> & Hl' & Hys).
    cbn [elems_of]. rewrite Hlv, Hl'.
    set (h1 := h ++ [CArr (rxs ++ rys)]).
    assert (frame lo R h h1) as Hframe by (apply frame_more; lia).
    destruct (set_prop_sim lo R HR h1 object pure_object key
                (RPtr (length h)) (JArr (xs ++ ys)))
      as (h' & object' & Hw & Hframe' & Hlo' & Hobj').
    + by apply lookup_app_l_Some.
    + by eapply frame_props.
    + split.
      * apply (holds_array_cell _ _ (rxs ++ rys)).
        -- by apply list_lookup_middle.
        -- apply Forall2_app; (eapply Forall2_impl; [eassumption|]);
             intros ? ?; apply holds_more.
      * intros l Hl.
        inversion Hl as [|l0 rs r' ? Hcell Hin Hr'|l0 ps k r' ? Hcell Hin Hr'];
          subst.
        -- left. lia.
        -- unfold h1 in Hcell. rewrite list_lookup_middle in Hcell by done.
           injection Hcell as <-.
           apply elem_of_app in Hin as [Hin|Hin].
           ++ destruct (Forall2_elem_l _ _ _ _ Hxs Hin) as (x & Hx).
              apply (proj2 Hr). eapply reach_elem; [done..|].
              by eapply reachable_closed.
           ++ destruct (Forall2_elem_l _ _ _ _ Hys Hin) as (x & Hx).
              apply (proj2 Hget). eapply reach_elem; [done..|].
              by eapply reachable_closed.
        -- unfold h1 in Hcell. by rewrite list_lookup_middle in Hcell.
    + exists h', object'. split_and!; [done| |done..].
      by eapply frame_trans.
  - (* two objects *)
    destruct vo as [| | | |ys|qs]; cbn [andb]; try done.
    destruct (Hmerge h r ro ps (JObj qs) (proj1 Hr) (proj1 Hget) Hdepth)
      as (fresh & r' & -> & Hr' & Hreach).
    cbn [fst snd].
    assert (frame lo R h (h ++ fresh)) as Hframe by (apply frame_more; lia).
    destruct (set_prop_sim lo R HR (h ++ fresh) object pure_object key
                r' (Defu._defu (JObj ps) (JObj qs)))
      as (h' & object' & Hw & Hframe' & Hlo' & Hobj').
    + by apply lookup_app_l_Some.
    + by eapply frame_props.
    + split; [done|]. intros l [Hl|[Hl|Hl]]%Hreach.
      * left. lia.
      * by apply (proj2 Hr).
      * by apply (proj2 Hget).
    + exists h', object'. split_and!; [done| |done..].
      by eapply frame_trans.
Qed.

(** The loop over the properties of [baseObject]. *)
Lemma loop_sim : ∀ members pure_members h object pure_object,
  keyed (λ r (m : value * (value → value)),
           kept lo R h r m.1 ∧ m.2 = Defu._defu m.1 ∧ (depth m.1 ≤ bound)%nat)
    members pure_members →
  h !! lo = Some (CObj object) →
  keyed (kept lo R h) object pure_object →
  ∃ h' object',
    loop (assign merge lo) members h = Some h'
    ∧ frame lo R h h'
    ∧ h' !! lo = Some (CObj object')
    ∧ keyed (kept lo R h') object' (foldl Defu.assign pure_object pure_members).
Proof.
  intros members. induction members as [|[key r] members IH];
    intros pure_members h object pure_object Hm Hlo Hobj.
  - apply Forall2_nil_inv_l in Hm as ->. exists h, object.
    split_and!; [done|apply frame_refl|done..].
  - apply Forall2_cons_inv_l in Hm
      as ([key' [v merge_v]] & rest & (Hk & Hr & Hv & Hd) & Hrest & ->).
    cbn [fst snd] in *. subst key' merge_v.
    destruct (assign_sim h object pure_object key r v Hlo Hobj Hr Hd)
      as (h1 & object1 & Hstep & Hframe & Hlo1 & Hobj1).
    destruct (IH rest h1 object1
                (Defu.assign pure_object (key, (v, Defu._defu v))))
      as (h' & object' & Hloop & Hframe' & Hlo' & Hobj'); [|done..|].
    { eapply Forall2_impl; [exact Hrest|].
      intros [k1 r1] [k2 m2] (? & ? & ? & ?).
      split_and!; [done| by apply Hframe |done..]. }
    exists h', object'. cbn [loop foldl]. rewrite Hstep.
    split_and!; [done| |done..]. by eapply frame_trans.
Qed.

End turn.

Section defu_sim.
Import Heap.

(** [_defu] on references computes what [_defu] on values does once the
    fuel covers the depth of [baseObject].  The heap is extended and the
    cells it had are left as they were; the result is made of new cells
    and of cells of the arguments. *)
Lemma _defu_sim fuel : ∀ h b d ps vd,
  holds h b (JObj ps) → holds h d vd → (depth (JObj ps) ≤ fuel)%nat →
  ∃ fresh r,
    _defu fuel h b d = Some (h ++ fresh, r)
    ∧ holds (h ++ fresh) r (Defu._defu (JObj ps) vd)
    ∧ ∀ l, reachable (h ++ fresh) r l →
           (length h ≤ l)%nat ∨ reachable h b l ∨ reachable h d l.
Proof.
  induction fuel as [|fuel IH]; intros h b d ps vd Hb Hd Hdepth.
  { cbn in Hdepth. lia. }
  destruct (holds_object _ _ _ Hb) as (lb & rps & -> & Hlb & Hps).
  rewrite _defu_obj. cbn [_defu]. rewrite (isPlainObject_holds _ _ _ Hd).
  set (R := λ l, reachable h (RPtr lb) l ∨ reachable h d l).
  set (pure_object := match vd with JObj ds => own_entries ds | _ => [] end).
  set (plain := match vd with JObj _ => true | _ => false end).
  assert (∃ pre,
            (if plain then h else h ++ [CObj []]) = h ++ pre
            ∧ keyed (λ x v, holds h x v ∧ ∀ l, reachable h x l → R l)
                (props_of (h ++ pre) (if plain then d else RPtr (length h)))
                pure_object) as (pre & -> & Hobj).
  { subst plain pure_object. destruct vd as [| | | |ys|ds].
    1-5: exists [CObj []]; split; [done|]; cbn [props_of];
         rewrite list_lookup_middle by done; constructor.
    exists []. rewrite app_nil_r. split; [done|].
    destruct (holds_object _ _ _ Hd) as (ld & rds & -> & Hld & Hds).
    cbn [props_of]. rewrite Hld. apply keyed_own_entries.
    eapply Forall2_impl_elem; [exact Hds|].
    intros [k x] [k' v] Hin _ [Hk Hx]. cbn [fst snd] in *.
    split_and!; [done..|]. intros l Hl. right. by eapply reach_prop. }
  set (h0 := h ++ pre) in *. set (lo := length h0).
  set (object := props_of h0 (if plain then d else RPtr (length h))) in *.
  assert (∀ l, R l → (l < lo)%nat) as HR.
  { intros l [Hl|Hl]; eapply holds_reachable in Hl; try done;
      unfold lo, h0; rewrite length_app; lia. }
  assert (∀ x v l, holds h x v → reachable (h0 ++ [CObj object]) x l →
            reachable h x l) as Hclosed.
  { intros x v l Hx Hl. unfold h0 in Hl. rewrite <- app_assoc in Hl.
    by eapply reachable_closed. }
  assert (props_of h0 (RPtr lb) = own_entries rps) as ->.
  { cbn [props_of]. unfold h0. by rewrite (lookup_app_l_Some _ _ _ _ Hlb). }
  destruct (loop_sim (_defu fuel) fuel IH lo R HR (own_entries rps)
              (own_entries (prod_map id (λ v, (v, Defu._defu v)) <$> ps))
              (h0 ++ [CObj object]) object pure_object)
    as (h' & object' & Hloop & Hframe & Hlo' & Hobj').
  { apply keyed_own_entries. apply Forall2_fmap_r.
    eapply Forall2_impl_elem; [exact Hps|].
    intros [k x] [k' v] Hin Hin' [Hk Hx]. cbn [fst snd] in *.
    split_and!; [done| |done|].
    - split; [by do 2 apply holds_more|].
      intros l Hl. right. left. eapply reach_prop; [done..|].
      by eapply Hclosed.
    - apply depth_prop in Hin'. cbn [snd] in Hin'.
      change (S (foldr (λ kv d, depth kv.2 `max` d) 0 ps) ≤ S fuel)%nat in Hdepth.
      change (depth v ≤ fuel)%nat. lia. }
  { by apply list_lookup_middle. }
  { eapply Forall2_impl; [exact Hobj|].
    intros [k x] [k' v] (Hk & Hx & Hreach). cbn [fst snd] in *.
    split; [done|]. split; [by do 2 apply holds_more|].
    intros l Hl. right. eapply Hreach. by eapply Hclosed. }
  rewrite Hloop.
  assert (h ++ (pre ++ drop lo h') = h') as Hh'.
  { destruct Hframe as (Htake & _ & _).
    unfold lo in Htake |- *. rewrite take_app_length in Htake.
    transitivity (take (length h0) h' ++ drop (length h0) h'); [|apply take_drop].
    rewrite Htake. unfold h0. by rewrite app_assoc. }
  exists (pre ++ drop lo h'), (RPtr lo). rewrite Hh'. split_and!; [done|..].
  - apply (holds_object_cell _ _ object'); [done|].
    eapply Forall2_impl; [exact Hobj'|]. by intros ? ? [? [? _]].
  - intros l Hl.
    inversion Hl as [|l0 rs r' ? Hcell Hin Hr'|l0 qs k r' ? Hcell Hin Hr'];
      subst.
    + left. unfold lo, h0. rewrite length_app. lia.
    + by rewrite Hlo' in Hcell.
    + rewrite Hlo' in Hcell. injection Hcell as <-.
      destruct (Forall2_elem_l _ _ _ _ Hobj' Hin) as (y & _ & _ & Hreach).
      cbn [snd] in Hreach. destruct (Hreach l Hr') as [Hlt|[Hx|Hx]].
      * left. unfold lo, h0 in Hlt. rewrite length_app in Hlt. lia.
      * right. by left.
      * right. by right.
Qed.

(** [defu(a, b)] on references: the cells that the heap had are left as
    they were. *)
Lemma defu_sim fuel h a b ps vd :
  holds h a (JObj ps) → holds h b vd → (depth (JObj ps) ≤ fuel)%nat →
  ∃ fresh r,
    defu fuel h a b = Some (h ++ fresh, r)
    ∧ holds (h ++ fresh) r (Defu.defu (JObj ps) vd).
Proof.
  intros Ha Hb Hdepth. unfold defu, Defu.defu.
  assert (1 ≤ fuel)%nat as Hfuel by (cbn in Hdepth; lia).
  destruct (_defu_sim fuel (h ++ [CObj []]) (RPtr (length h)) a [] (JObj ps))
    as (fresh1 & r1 & -> & Hr1 & _).
  { apply (holds_object_cell _ _ []); [by rewrite list_lookup_middle | constructor]. }
  { by apply holds_more. }
  { done. }
  cbn [fst snd].
  assert (∃ qs, Defu._defu (JObj []) (JObj ps) = JObj qs ∧ qs ≡ₚ ps)
    as (qs & Hqs & Hperm).
  { rewrite _defu_obj. eexists. split; [done|]. cbn. apply own_entries_perm. }
  rewrite Hqs in Hr1 |- *.
  destruct (_defu_sim fuel ((h ++ [CObj []]) ++ fresh1) r1 b qs vd)
    as (fresh2 & r2 & -> & Hr2 & _); [done| by do 2 apply holds_more | |].
  { cbn [depth] in *.
    assert (foldr (λ kv d, depth kv.2 `max` d) 0 qs
            = foldr (λ kv d, depth kv.2 `max` d) 0 ps)%nat as ->; [|done].
    apply (foldr_permutation (=) _ 0%nat); [|done].
    intros; lia. }
  exists ([CObj []] ++ fresh1 ++ fresh2), r2. by rewrite !app_assoc in *.
Qed.

End defu_sim.
(** ** The merge of the document over the defaults *)

(** C3, as amended.  In the merge of a document over the built-in default
    configuration, a field of the document that is not [null] and is not
    named [__proto__] or [constructor] decides the result: a string, number
    or boolean overrides the default, an array replaces the default array
    whole, and an object is merged key by key into a default that is an
    object ([behaviour]), by the same rule, and replaces any other default.
    A field that is absent from the document, or [null] in it, keeps the
    value of the default.  On a document and a default configuration held
    in memory, with fuel for the depth of the document, the merge returns
    this result in a heap that has new cells only: the cells it had are as
    they were, and the default configuration reads as before. *)
Theorem merge_over_defaults (doc : list (string * value)) (k : string) :
  NoDup doc.*1 →
  get (Defu.defu (JObj doc) getDefaultConfig) k
  = (if Defu.skipped_key k then None
     else match assoc_get k doc with
          | None | Some JNull => get getDefaultConfig k
          | Some (JObj ps) =>
              if decide (k = "behaviour")
              then Some (Defu._defu (JObj ps) default_behaviour)
              else Some (JObj ps)
          | Some v => Some v
          end)
  ∧ (∀ ps k',
      assoc_get k doc = Some (JObj ps) → NoDup ps.*1 →
      get (Defu._defu (JObj ps) default_behaviour) k'
      = if Defu.skipped_key k' then None
        else match assoc_get k' ps with
             | None | Some JNull => get default_behaviour k'
             | Some v => Some v
             end)
  ∧ ∀ fuel h document defaultConfig,
      holds h document (JObj doc) →
      holds h defaultConfig getDefaultConfig →
      (depth (JObj doc) ≤ fuel)%nat →
      ∃ fresh merged,
        Heap.defu fuel h document defaultConfig = Some (h ++ fresh, merged)
        ∧ holds (h ++ fresh) merged (Defu.defu (JObj doc) getDefaultConfig)
        ∧ holds (h ++ fresh) defaultConfig getDefaultConfig.
Proof.
  intros Hdoc. split_and!.
  - rewrite defu_default_lookup by done. unfold Defu.assigned.
    destruct (Defu.skipped_key k) eqn:Hs.
    + apply skipped_key_default in Hs as [-> _]. by destruct (assoc_get k doc).
    + destruct (assoc_get k doc) as [[| | | |xs|ps]|]; cbn [fst snd]; try done.
      * destruct (get getDefaultConfig k) as [[| | | |ys|]|] eqn:E; try done.
        apply default_arrays_empty in E as ->. by rewrite app_nil_r.
      * destruct (get getDefaultConfig k) as [[| | | | |ds]|] eqn:E;
          try (case_decide as Hk; [subst k; by compute in E | done]).
        apply default_objects in E as [-> ->]. by rewrite decide_True.
  - intros ps k' _ Hps. rewrite defu_behaviour_lookup by done.
    unfold Defu.assigned.
    destruct (Defu.skipped_key k') eqn:Hs.
    + apply skipped_key_default in Hs as [_ ->]. by destruct (assoc_get k' ps).
    + destruct (assoc_get k' ps) as [[| | | |xs|qs]|]; cbn [fst snd]; try done.
      * destruct (get default_behaviour k') as [[]|] eqn:E; try done.
        exfalso. revert E. cbn. case_decide; done.
      * destruct (get default_behaviour k') as [[]|] eqn:E; try done.
        exfalso. revert E. cbn. case_decide; done.
  - intros fuel h document defaultConfig Hdocument Hdefault Hfuel.
    destruct (defu_sim fuel h document defaultConfig doc getDefaultConfig
                Hdocument Hdefault Hfuel) as (fresh & merged & Hrun & Hmerged).
    exists fresh, merged. split_and!; [done..|]. by apply holds_more.
Qed.

Lemma merge_over_defaults_witness :
  let doc := [("theme", JStr "dark");
              ("behaviour", JObj [("target", JStr "_self")]);
              ("services", JArr [])] in
  let document := Heap.alloc (JObj doc) [] in
  let defaultConfig := Heap.alloc getDefaultConfig document.1 in
  let h := defaultConfig.1 in
  get (Defu.defu (JObj doc) getDefaultConfig) "theme" = Some (JStr "dark")
  ∧ get (Defu._defu (JObj [("target", JStr "_self")]) default_behaviour) "target"
    = Some (JStr "_self")
  ∧ ∃ fresh merged,
      Heap.defu 2 h document.2 defaultConfig.2 = Some (h ++ fresh, merged)
      ∧ holds (h ++ fresh) merged (Defu.defu (JObj doc) getDefaultConfig)
      ∧ holds (h ++ fresh) defaultConfig.2 getDefaultConfig.
Proof.
  intros doc document defaultConfig h.
  assert (NoDup doc.*1) as Hdoc by compute_done.
  assert (NoDup [("target", JStr "_self")].*1) as Hb
    by compute_done.
  assert (holds h document.2 (JObj doc)) as Hdocument by (by exists 2%nat).
  assert (holds h defaultConfig.2 getDefaultConfig) as Hdefault
    by (by exists 2%nat).
  assert (depth (JObj doc) ≤ 2)%nat as Hfuel by (cbn; lia).
  split_and!.
  - exact (proj1 (merge_over_defaults doc "theme" Hdoc)).
  - exact (proj1 (proj2 (merge_over_defaults doc "behaviour" Hdoc))
             [("target", JStr "_self")] "target" eq_refl Hb).
  - exact (proj2 (proj2 (merge_over_defaults doc "theme" Hdoc))
             2%nat h document.2 defaultConfig.2 Hdocument Hdefault Hfuel).
Defined.

(** C3 fails as stated: a document field that is [null] is a scalar, and it
    does not override the default. *)
Lemma null_field_keeps_default :
  let doc := [("behaviour", JNull); ("services", JArr [])] in
  assoc_get "behaviour" doc = Some JNull
  ∧ get (Defu.defu (JObj doc) getDefaultConfig) "behaviour"
    = Some default_behaviour
  ∧ get (Defu.defu (JObj doc) getDefaultConfig) "behaviour" ≠ Some JNull.
Proof. by vm_compute. Qed.

(** ** The index of the services *)

Section index_facts.

Lemma indexable_key s id :
  get s "id" = Some (JStr id) → property_key (get s "id") = id.
Proof. by intros ->. Qed.

Lemma indexable_has_id s id id' :
  get s "id" = Some (JStr id) → has_id id' s = bool_decide (id = id').
Proof. unfold has_id. by intros ->. Qed.

Lemma index_item_entered s acc :
  indexable s → index_item s acc = inr (entered acc s).
Proof.
  intros (id & Hid & Hne). unfold index_item, entered.
  assert (read_prop s "id" = inr (get s "id")) as -> by (by destruct s).
  cbn [Throw.bind]. rewrite (indexable_key _ _ Hid). by rewrite decide_False.
Qed.

Lemma foldM_index_item xs : ∀ acc,
  Forall indexable xs → Throw.foldM index_item xs acc = inr (foldl entered acc xs).
Proof.
  induction xs as [|x xs IH]; intros acc Hxs; [done|].
  apply Forall_cons in Hxs as [Hx Hxs].
  cbn [Throw.foldM foldl]. rewrite index_item_entered by done.
  cbn [Throw.bind]. by apply IH.
Qed.

Lemma foldM_index_group groups : ∀ acc,
  Forall has_items groups →
  Forall indexable (groups ≫= λ group, elements (default JNull (get group "items"))) →
  Throw.foldM index_group groups acc
  = inr (foldl entered acc
           (groups ≫= λ group, elements (default JNull (get group "items")))).
Proof.
  induction groups as [|g groups IH]; intros acc Hitems Hall; [done|].
  apply Forall_cons in Hitems as [[items Hg] Hitems].
  rewrite bind_cons in Hall |- *. apply Forall_app in Hall as [Hg' Hall].
  cbn [Throw.foldM]. unfold index_group at 1.
  assert (read_prop g "items" = inr (get g "items")) as -> by (by destruct g).
  cbn [Throw.bind]. rewrite Hg in Hg' |- *. cbn [iterate Throw.bind default elements] in *.
  rewrite foldM_index_item by done. cbn [Throw.bind].
  rewrite foldl_app. by apply IH.
Qed.

(** The entry found under a name is the last service entered under it. *)
Lemma entered_lookup id xs : ∀ acc,
  Forall indexable xs →
  assoc_get id (foldl entered acc xs)
  = match last (filter (λ s, has_id id s = true) xs) with
    | Some s => Some s
    | None => assoc_get id acc
    end.
Proof.
  induction xs as [|x xs IH]; intros acc Hxs; [done|].
  apply Forall_cons in Hxs as [(i & Hi & _) Hxs].
  cbn [foldl]. rewrite IH by done. rewrite filter_cons.
  unfold entered at 1. rewrite (indexable_key _ _ Hi), assoc_get_set.
  rewrite (indexable_has_id _ _ id Hi).
  destruct (decide (i = id)) as [->|Hne].
  - rewrite bool_decide_eq_true_2 by done. rewrite decide_True by done.
    rewrite last_cons. by destruct (last (filter _ xs)).
  - rewrite bool_decide_eq_false_2 by done. by rewrite decide_False.
Qed.

Lemma entered_keys_NoDup xs : ∀ acc,
  NoDup acc.*1 → NoDup (foldl entered acc xs).*1.
Proof.
  induction xs as [|x xs IH]; intros acc Hacc; [done|].
  cbn [foldl]. apply IH. by apply assoc_set_NoDup.
Qed.

Lemma assoc_set_new {A} k (v : A) ps : k ∉ ps.*1 → assoc_set k v ps = ps ++ [(k, v)].
Proof.
  induction ps as [|[k' v'] ps IH]; [done|].
  rewrite fmap_cons, not_elem_of_cons. intros [Hne Hin]. cbn [assoc_set fst].
  rewrite decide_False by done. cbn. by rewrite IH.
Qed.

(** Services with different identifiers are entered one after the other. *)
Lemma entered_distinct xs : ∀ acc,
  Forall indexable xs →
  NoDup ((λ s, get s "id") <$> xs) →
  (∀ s, s ∈ xs → property_key (get s "id") ∉ acc.*1) →
  foldl entered acc xs = acc ++ ((λ s, (property_key (get s "id"), s)) <$> xs).
Proof.
  induction xs as [|x xs IH]; intros acc Hxs Hnd Hacc.
  { by rewrite app_nil_r. }
  apply Forall_cons in Hxs as [(i & Hi & Hproto) Hxs].
  rewrite fmap_cons in Hnd. apply NoDup_cons in Hnd as [Hx Hnd].
  cbn [foldl]. unfold entered at 2.
  rewrite assoc_set_new by (apply Hacc; left).
  rewrite IH; [by rewrite fmap_cons, <- app_assoc|done..|].
  intros s Hs. rewrite fmap_app, elem_of_app. intros [Hin|Hin].
  - apply (Hacc s); [by right|done].
  - cbn in Hin. apply list_elem_of_singleton in Hin.
    apply Hx. apply list_elem_of_fmap. exists s. split; [|done].
    eapply Forall_forall in Hxs as (j & Hj & _); [|exact Hs].
    rewrite (indexable_key _ _ Hi), (indexable_key _ _ Hj) in Hin.
    by rewrite Hi, Hj, Hin.
Qed.

(** What [extractServicesFromConfig] returns for groups that have their
    items and services that have their identifiers. *)
Lemma index_entered config groups :
  get config "services" = Some (JArr groups) →
  Forall has_items groups →
  Forall indexable (config_services config) →
  extractServicesFromConfig config
  = inr (JObj (foldl entered [] (config_services config))).
Proof.
  intros Hs Hitems Hall. unfold extractServicesFromConfig.
  assert (read_prop config "services" = inr (get config "services")) as ->
    by (by destruct config).
  unfold config_services in *. rewrite Hs in *. cbn [Throw.bind].
  by rewrite foldM_index_group.
Qed.

End index_facts.

(** X1.  For a configuration whose groups each have an array of items and
    whose services each have a string identifier other than [__proto__],
    [extractServicesFromConfig] returns an object in which every
    identifier names the last service that carries it, and nothing else.
    When the identifiers are pairwise different, the entries of the object
    are the services, each one once; and when, moreover, no identifier is
    the name of an array index, the object enumerates them in the order of
    the services ([Object.values]), each under its own identifier
    ([Object.keys]).  Identifiers that are array indices would be
    enumerated before the others. *)
Theorem services_index (config : value) (groups : list value) :
  get config "services" = Some (JArr groups) →
  Forall has_items groups →
  Forall indexable (config_services config) →
  ∃ index,
    extractServicesFromConfig config = inr (JObj index)
    ∧ NoDup index.*1
    ∧ (∀ id, assoc_get id index
             = last (filter (λ s, has_id id s = true) (config_services config)))
    ∧ (NoDup (service_ids config) →
       (own_entries index).*2 ≡ₚ config_services config
       ∧ (Forall (λ id, is_index id = false) index.*1 →
          (own_entries index).*2 = config_services config
          ∧ (λ id, Some (JStr id)) <$> (own_entries index).*1
            = service_ids config)).
Proof.
  intros Hs Hitems Hall. eexists. split_and!.
  - by eapply index_entered.
  - apply entered_keys_NoDup. constructor.
  - intros id. rewrite entered_lookup by done.
    by destruct (last (filter _ _)).
  - intros Hnd. rewrite entered_distinct; [|done..|by intros ? _ ?%elem_of_nil].
    cbn [app].
    assert (((λ s, (property_key (get s "id"), s)) <$> config_services config).*2
            = config_services config) as Hvalues.
    { rewrite <- list_fmap_compose. by rewrite list_fmap_id. }
    split.
    + by rewrite own_entries_perm, Hvalues.
    + intros Hkeys. rewrite own_entries_no_index by (by apply Forall_fmap in Hkeys).
      split; [done|]. rewrite <- !list_fmap_compose.
      unfold service_ids. apply list_eq_Forall2, Forall2_fmap, Forall_Forall2_diag.
      eapply Forall_impl; [exact Hall|]. intros s (i & Hi & _).
      cbn. by rewrite Hi.
Qed.

Lemma services_index_witness :
  let config :=
    JObj [("services",
           JArr [JObj [("items", JArr [JObj [("id", JStr "a")];
                                       JObj [("id", JStr "b")]])];
                 JObj [("title", JStr "Media");
                       ("items", JArr [JObj [("id", JStr "a");
                                             ("title", JStr "Radio")]])]])] in
  ∃ index,
    extractServicesFromConfig config = inr (JObj index)
    ∧ assoc_get "a" index = Some (JObj [("id", JStr "a"); ("title", JStr "Radio")])
    ∧ assoc_get "c" index = None.
Proof.
  intros config.
  destruct (services_index config _ eq_refl) as (index & Hrun & _ & Hlook & _).
  { repeat constructor; by eexists. }
  { repeat constructor; eexists; by split. }
  exists index. split_and!; [done|..]; by rewrite Hlook.
Defined.

(** ** The index of a loaded configuration *)

Lemma groups_of_have_items env tags entries : ∀ n,
  Forall has_items (groups_of env tags n entries).
Proof.
  induction entries as [|entry rest IH]; intros n; constructor; [|apply IH].
  by eexists.
Qed.

(** The [services] of every configuration that a load returns: groups with
    their items, the services carrying the identifiers drawn, in order. *)
Lemma loaded_groups env cfg :
  (∀ text doc, yaml_parse env text = inr doc → wf doc = true) →
  loadLocalConfig env = Return cfg →
  ∃ groups,
    get cfg "services" = Some (JArr groups)
    ∧ Forall has_items groups
    ∧ service_ids cfg
      = (λ i, Some (JStr (randomUUID env i)))
          <$> seq 0 (length (config_services cfg)).
Proof.
  intros Hwf. unfold loadLocalConfig.
  destruct (load env getDefaultConfig 0) as [e|[merged n']] eqn:E.
  - intros Hs%recover_services. exists []. unfold service_ids, config_services.
    rewrite Hs. by split_and!.
  - intros [= <-].
    apply load_inr in E as (raw & parsed & _ & _ & Hparse & Hbuild).
    apply build_inr in Hbuild as (tags & groups & _ & Hacc & Hnorm & ->).
    destruct (accepted_object _ Hacc) as [ps Hps]. rewrite Hps in *.
    assert (NoDup ps.*1) as Hnd.
    { apply wf_object. rewrite <- Hps. eapply wf_or_else, Hwf, Hparse. }
    apply normalizeServices_inr in Hnorm as (_ & _ & Hservices & Hshape).
    exists groups. split_and!.
    + rewrite merged_lookup by done. by rewrite decide_True.
    + destruct (get (JObj ps) "services") as [[| | | |xs|qs]|];
        try (subst groups; constructor).
      * by eexists.
      * constructor.
      * destruct Hshape as [-> _]. apply groups_of_have_items.
    + unfold service_ids. unfold config_services at 1 2.
      rewrite merged_lookup by done. rewrite decide_True by done.
      unfold config_services in Hservices. cbn [get assoc_get] in Hservices.
      rewrite decide_True in Hservices by done. rewrite Hservices.
      rewrite fmap_imap, length_imap.
      rewrite (imap_ext _ (λ i _, Some (JStr (randomUUID env i))))
        by (intros i x _; apply normalized_id).
      by rewrite imap_const_index.
Qed.

(** X2.  With an identifier generator that never returns the same string
    twice and never returns [__proto__], every configuration that
    [loadLocalConfig] returns can be indexed: [extractServicesFromConfig]
    does not throw on it, and its result has exactly one entry per service,
    in the order of the services, in which every service is found whole
    under its own identifier. *)
Theorem loaded_services_are_indexed (env : Env) (cfg : value) :
  (∀ i j, randomUUID env i = randomUUID env j → i = j) →
  (∀ i, randomUUID env i ≠ "__proto__") →
  (∀ text doc, yaml_parse env text = inr doc → wf doc = true) →
  loadLocalConfig env = Return cfg →
  ∃ index,
    extractServicesFromConfig cfg = inr (JObj index)
    ∧ index.*2 = config_services cfg
    ∧ ∀ s, s ∈ config_services cfg →
           ∃ id, get s "id" = Some (JStr id) ∧ assoc_get id index = Some s.
Proof.
  intros Hinj Hproto Hwf Hload.
  destruct (loaded_groups env cfg Hwf Hload) as (groups & Hs & Hitems & Hids).
  assert (Forall (λ s, ∃ i, get s "id" = Some (JStr (randomUUID env i)))
            (config_services cfg)) as Hdrawn.
  { apply Forall_forall. intros s [k Hk]%list_elem_of_lookup.
    assert (service_ids cfg !! k = Some (get s "id")) as Hid
      by (unfold service_ids; by rewrite list_lookup_fmap, Hk).
    rewrite Hids, list_lookup_fmap in Hid.
    destruct (seq 0 _ !! k) as [i|]; [|done]. exists i. by injection Hid. }
  assert (Forall indexable (config_services cfg)) as Hall.
  { eapply Forall_impl; [exact Hdrawn|]. intros s [i Hi]. by eexists. }
  assert (NoDup (service_ids cfg)) as Hnd.
  { rewrite Hids. apply NoDup_fmap_2; [|apply NoDup_seq].
    intros i j [= Hij]. by apply Hinj. }
  exists (foldl entered [] (config_services cfg)). split_and!.
  - by eapply index_entered.
  - rewrite entered_distinct; [|done..|by intros ? _ ?%elem_of_nil].
    cbn [app]. by rewrite <- list_fmap_compose, list_fmap_id.
  - intros s Hs'. eapply Forall_forall in Hdrawn as [i Hi]; [|exact Hs'].
    eexists. split; [done|]. rewrite entered_lookup by done.
    destruct (last (filter _ _)) as [s'|] eqn:El.
    + apply last_filter_elem in El as [Hid Hin]. f_equal.
      eapply Forall_forall in Hall as (j & Hj & _); [|exact Hin].
      rewrite (indexable_has_id _ _ _ Hj) in Hid.
      apply bool_decide_eq_true in Hid. subst j.
      apply list_elem_of_lookup in Hin as [a Ha].
      apply list_elem_of_lookup in Hs' as [b Hb].
      assert (a = b) as ->; [|congruence].
      apply (NoDup_lookup _ a b (get s "id") Hnd); unfold service_ids;
        rewrite list_lookup_fmap; [rewrite Ha|rewrite Hb]; cbn; congruence.
    + exfalso. apply last_None in El.
      assert (s ∈ filter (λ s0, has_id (randomUUID env i) s0 = true)
                    (config_services cfg)) as Hin.
      { apply list_elem_of_filter. split; [|done].
        rewrite (indexable_has_id _ _ _ Hi). by apply bool_decide_eq_true. }
      rewrite El in Hin. by apply elem_of_nil in Hin.
Qed.

Lemma loaded_services_are_indexed_witness :
  let doc := JObj [("services",
                    JObj [("Dev", JArr [JObj [("title", JStr "Git")];
                                        JObj [("title", JStr "CI")]]);
                          ("Media", JArr [JObj [("title", JStr "Radio")]])])] in
  let env := {| hasItem := inr true; getItem := inr (Some "services: ...");
                yaml_parse := λ _, inr doc;
                randomUUID := λ n, "id-" +:+ pretty n |} in
  ∃ cfg index,
    loadLocalConfig env = Return cfg
    ∧ extractServicesFromConfig cfg = inr (JObj index)
    ∧ index.*1 = ["id-0"; "id-1"; "id-2"]
    ∧ index.*2 = config_services cfg.
Proof.
  intros doc env.
  destruct (loadLocalConfig env) as [cfg|e|] eqn:E; [|by vm_compute in E..].
  assert (∀ i j, randomUUID env i = randomUUID env j → i = j) as Hinj.
  { intros i j. cbn. intros H. by apply (inj pretty), (inj (String.app "id-")). }
  assert (∀ i, randomUUID env i ≠ "__proto__") as Hproto by done.
  assert (∀ text doc', yaml_parse env text = inr doc' → wf doc' = true) as Hwf.
  { intros text doc'. cbn. by intros [= <-]. }
  destruct (loaded_services_are_indexed env cfg Hinj Hproto Hwf E)
    as (index & Hrun & Hvalues & _).
  exists cfg, index. split_and!; [done..| |done].
  vm_compute in E. injection E as <-. vm_compute in Hrun. by injection Hrun as <-.
Defined.

(** ** Loads that fail before, or at, the first look at the document *)

Lemma load_document env config d n :
  document env config → load env d n = build env config d n.
Proof.
  intros (raw & parsed & Hhas & Hget & Hparse & ->).
  unfold load, bind, await. rewrite Hhas. cbn [ret negb]. rewrite Hget. cbn [ret].
  unfold parseDocument, bind, type_error. by rewrite Hparse.
Qed.

(** X3.  When there is no configuration file, when the storage throws an
    [Error] while it is asked for the file, or when the YAML parser refuses
    the text, [loadLocalConfig] returns the built-in default configuration
    with the [error] field set to [Config not found], respectively to the
    message of that error, and nothing else changed. *)
Theorem load_fails_early (env : Env) (msg : string) :
  fails_early env msg →
  loadLocalConfig env = Return (set_error (Some msg) getDefaultConfig).
Proof.
  intros [Hhas ->|Hhas|Hhas Hget|raw Hhas Hget Hparse];
    unfold loadLocalConfig, load, bind, await; rewrite Hhas; try done;
    cbn [ret negb]; rewrite Hget; try done.
  cbn [ret]. unfold parseDocument, bind, type_error. by rewrite Hparse.
Qed.

Lemma load_fails_early_witness :
  let env := {| hasItem := inr false; getItem := inr None;
                yaml_parse := λ _, inr JNull; randomUUID := λ n, pretty n |} in
  loadLocalConfig env = Return (set_error (Some "Config not found") getDefaultConfig)
  ∧ get (set_error (Some "Config not found") getDefaultConfig) "error"
    = Some (JStr "Config not found").
Proof.
  intros env. split; [|done].
  apply (load_fails_early env "Config not found"). by apply no_file.
Defined.

(** X4.  A configuration file that is empty, or whose text parses to a
    falsy value or to an empty mapping, is handled as the document [{}]:
    the load returns the default configuration whose [error] is the report
    of the one missing field, [services], with the reason [Required] given
    once for each of the two shapes that [services] may have. *)
Theorem empty_document_report (env : Env) :
  document env (JObj []) →
  loadLocalConfig env
  = Return (set_error
              (Some (Json.render " " ""
                       (JObj [("services",
                               JObj [("_errors", JArr [JStr "Required";
                                                       JStr "Required"])])])))
              getDefaultConfig).
Proof.
  intros Hdoc. unfold loadLocalConfig. rewrite (load_document _ _ _ _ Hdoc).
  assert (build env (JObj []) getDefaultConfig 0
          = inl (ZodError [Zod.invalid_union
                             [[Zod.invalid_type "array" "undefined" [Zod.PKey "services"]];
                              [Zod.invalid_type "object" "undefined" [Zod.PKey "services"]]]
                             [Zod.PKey "services"]])) as -> by reflexivity.
  by vm_compute.
Qed.

Lemma empty_document_report_witness :
  let env := {| hasItem := inr true; getItem := inr None;
                yaml_parse := λ _, inr JNull; randomUUID := λ n, pretty n |} in
  ∃ cfg text,
    loadLocalConfig env = Return cfg
    ∧ get cfg "error" = Some (JStr text)
    ∧ get cfg "services" = Some (JArr []).
Proof.
  intros env.
  assert (document env (JObj [])) as Hdoc by (by exists None, JNull).
  eexists _, _. split; [exact (empty_document_report env Hdoc)|]. by split.
Defined.

Lemma createTagMap_inl declared n e :
  createTagMap (JArr declared) n = inl e → ∃ msg, e = Error msg.
Proof.
  cbn [createTagMap]. induction declared as [|x xs IH] using rev_ind; [done|].
  rewrite foldl_app. cbn [foldl]. unfold bind at 1.
  destruct (foldl _ (ret ∅) xs n) as [e'|[m n1]] eqn:E.
  - intros [= <-]. by apply IH.
  - unfold bind. destruct x; cbn [prop throw ret]; try done.
    intros [= <-]. by eexists.
Qed.

(** X5.  The declared tags are read before the document is validated: when
    the [tags] of the document are truthy and no array, or an array with a
    [null] in it, the load fails with the [TypeError] of [createTagMap],
    whatever validation would have said, and [loadLocalConfig] returns the
    default configuration with the message of that error, not a report of
    the schema. *)
Theorem tags_are_read_before_validation (env : Env) (config : value) :
  document env config →
  unreadable_tags (get config "tags") →
  ∃ msg,
    load env getDefaultConfig 0 = inl (Error msg)
    ∧ loadLocalConfig env = Return (set_error (Some msg) getDefaultConfig).
Proof.
  intros Hdoc Htags. unfold loadLocalConfig.
  rewrite (load_document _ _ _ _ Hdoc). unfold build, bind.
  destruct Htags as [[Htruthy Hlist]|(declared & -> & Hnull)].
  - destruct (get config "tags") as [t|]; [|done].
    assert (or_else (Some t) (JArr []) = t) as ->
      by (unfold or_else; by rewrite Htruthy).
    destruct t as [| | | |xs|]; try done; by eexists.
  - change (or_else (Some (JArr declared)) (JArr [])) with (JArr declared).
    destruct (createTagMap (JArr declared) 0) as [e|[tags n]] eqn:E.
    + destruct (createTagMap_inl _ _ _ E) as [msg ->]. by exists msg.
    + exfalso. apply createTagMap_inr in E as (_ & Hall & _).
      by eapply Forall_forall in Hall; [|exact Hnull].
Qed.

Lemma tags_are_read_before_validation_witness :
  let doc := JObj [("tags", JStr "media"); ("services", JNum 5)] in
  let env := {| hasItem := inr true; getItem := inr (Some "tags: media");
                yaml_parse := λ _, inr doc; randomUUID := λ n, pretty n |} in
  (∃ issues, validateConfigSchema doc = inl issues)
  ∧ ∃ msg,
      load env getDefaultConfig 0 = inl (Error msg)
      ∧ loadLocalConfig env = Return (set_error (Some msg) getDefaultConfig).
Proof.
  intros doc env. split; [by eexists|].
  apply (tags_are_read_before_validation env doc).
  - by exists (Some "tags: media"), doc.
  - left. by split.
Defined.

(** ** Documents that pass validation *)

Section accepted_documents.
Import Zod.

(** The declared tags of a document that passes validation are absent or
    an array of objects. *)
Lemma accepted_tags config :
  accepted config →
  ∃ declared,
    or_else (get config "tags") (JArr []) = JArr declared
    ∧ Forall is_object declared.
Proof.
  intros Hacc. destruct (accepted_object _ Hacc) as [ps ->].
  apply accepted_iff in Hacc. rewrite Forall_fmap in Hacc.
  assert (("tags", z_optional (z_array Schema.tag)) ∈ Schema.schema_shape)
    as Hin by (unfold Schema.schema_shape; set_solver).
  eapply Forall_forall in Hacc; [|exact Hin]. unfold compose in Hacc.
  cbn [get]. destruct (assoc_get "tags" ps) as [v|] eqn:E.
  - rewrite (member_present _ _ _ _ _ E) in Hacc. cbn [snd] in Hacc.
    destruct (valid_array Schema.tag ([] ++ [PKey "tags"]) v)
      as (xs & -> & Hxs).
    { change (parse (z_optional (z_array Schema.tag)) ([] ++ [PKey "tags"]) v)
        with (parse (z_array Schema.tag) ([] ++ [PKey "tags"]) v) in Hacc.
      destruct (parse (z_array Schema.tag) _ v).2;
        [by eexists | by destruct Hacc as [? [=]]]. }
    exists xs. split; [done|]. eapply Forall_impl; [exact Hxs|].
    intros x Hx. destruct x as [| | | | |qs]; [by cbv in Hx..|by eexists].
  - exists []. by split.
Qed.

Lemma createTagMap_ok declared n :
  Forall is_object declared → ∃ tags, createTagMap (JArr declared) n = inr (tags, n).
Proof.
  cbn [createTagMap]. induction declared as [|x xs IH] using rev_ind; intros Hall.
  - by eexists.
  - apply Forall_app in Hall as [Hxs Hx]. apply Forall_cons in Hx as [[ps ->] _].
    destruct (IH Hxs) as [m Hm]. rewrite foldl_app. cbn [foldl].
    unfold bind at 1. rewrite Hm. unfold bind. cbn. by eexists.
Qed.

End accepted_documents.

(** What the normalisation throws is an [Error]. *)
Lemma determineItem_inl env tags item n e :
  determineItem env tags item n = inl e → ∃ msg, e = Error msg.
Proof.
  unfold determineItem, bind. cbn [uuid].
  destruct item as [| | | | |ps]; cbn [prop ret throw];
    try (destruct (or_else _ _); cbn [js_map throw];
         rewrite ?mapM'_ret; intros [= <-]; by eexists).
  intros [= <-]. by eexists.
Qed.

Lemma mapM'_inl {A B} (f : A → M B) l : ∀ n e,
  mapM' f l n = inl e → ∃ x m, x ∈ l ∧ f x m = inl e.
Proof.
  induction l as [|x l IH]; intros n e; [done|].
  cbn [mapM']. unfold bind at 1. destruct (f x n) as [e'|[y n1]] eqn:E.
  - intros [= <-]. exists x, n. split; [left|done].
  - unfold bind at 1. destruct (mapM' f l n1) as [e'|[ys n2]] eqn:E'; [|done].
    intros [= <-]. destruct (IH _ _ E') as (x' & m & Hin & Hf).
    exists x', m. split; [by right|done].
Qed.

Lemma determineService_inl env items tags n e :
  determineService env items tags n = inl e → ∃ msg, e = Error msg.
Proof.
  unfold determineService. destruct items as [| | | |xs|];
    try (intros [= <-]; by eexists).
  cbn [js_map]. intros (x & m & _ & H)%mapM'_inl. by eapply determineItem_inl.
Qed.

Lemma normalizeServices_inl env config tags n e :
  normalizeServices env config tags n = inl e → ∃ msg, e = Error msg.
Proof.
  unfold normalizeServices. destruct (isArray _).
  - unfold bind. destruct (determineService _ _ _ _) as [e'|[items n1]] eqn:E; [|done].
    intros [= <-]. by eapply determineService_inl.
  - intros ([k v] & m & _ & H)%mapM'_inl. unfold bind in H. cbn [snd] in H.
    destruct (determineService _ _ _ _) as [e'|[items n1]] eqn:E; [|done].
    injection H as <-. by eapply determineService_inl.
Qed.

(** X6.  A document that passes validation and whose services each have a
    [tags] that is absent, falsy or an array always loads: the load returns
    a configuration without raising, in which the services are those of the
    document, each with its fields, the next identifier drawn and its tags
    resolved.  They come in the order in which the load visits them: the
    order of the sequence when [services] is a sequence; when it is a
    mapping, group after group as [Object.entries] enumerates the groups,
    those named by an array index first, in increasing order, then the
    others in the order of the document. *)
Theorem valid_document_loads (env : Env) (config : value) :
  document env config →
  wf config = true →
  accepted config →
  Forall tags_ok (document_services config) →
  ∃ cfg tags,
    loadLocalConfig env = Return cfg
    ∧ createTagMap (or_else (get config "tags") (JArr [])) 0 = inr (tags, 0%nat)
    ∧ config_services cfg
      = imap (λ i, normalized tags (randomUUID env i)) (document_services config)
    ∧ (∀ xs, get config "services" = Some (JArr xs) →
             document_services config = xs)
    ∧ (∀ ps, get config "services" = Some (JObj ps) →
             document_services config
             = own_entries ps ≫= λ entry, elements entry.2).
Proof.
  intros Hdoc Hwf Hacc Htags.
  destruct (accepted_tags _ Hacc) as (declared & Hdeclared & Hobjects).
  destruct (createTagMap_ok declared 0 Hobjects) as [tags Hmap].
  destruct (normalizeServices_ok env config tags 0 Hacc Htags) as [groups Hnorm].
  pose proof Hacc as [validated Hv].
  destruct (accepted_object _ Hacc) as [ps ->].
  eexists _, tags. unfold loadLocalConfig.
  rewrite (load_document _ _ _ _ Hdoc). unfold build, bind.
  rewrite Hdeclared, Hmap, Hv. cbn [ret]. rewrite Hnorm. cbn [ret].
  split_and!; [done..| | |].
  - apply normalizeServices_inr in Hnorm as (_ & _ & Hservices & _).
    cbn [Nat.add] in Hservices. rewrite <- Hservices. unfold config_services.
    rewrite merged_lookup by (by apply wf_object).
    by rewrite decide_True.
  - intros xs Hxs. unfold document_services. by rewrite Hxs.
  - intros qs Hqs. unfold document_services. by rewrite Hqs.
Qed.

Lemma valid_document_loads_witness :
  let doc := JObj [("tags", JArr [JObj [("name", JStr "dev"); ("color", JStr "red")]]);
                   ("services", JArr [JObj [("title", JStr "Git");
                                            ("tags", JArr [JStr "dev"])]])] in
  let env := {| hasItem := inr true; getItem := inr (Some "services: ...");
                yaml_parse := λ _, inr doc; randomUUID := λ n, pretty n |} in
  ∃ cfg,
    loadLocalConfig env = Return cfg
    ∧ config_services cfg
      = [JObj [("title", JStr "Git");
               ("tags", JArr [JObj [("name", JStr "dev"); ("color", JStr "red")]]);
               ("id", JStr "0")]].
Proof.
  intros doc env.
  assert (document env doc) as Hdoc by (by exists (Some "services: ..."), doc).
  assert (accepted doc) as Hacc by (by eexists).
  assert (Forall tags_ok (document_services doc)) as Htags
    by (repeat constructor; by eexists).
  destruct (valid_document_loads env doc Hdoc eq_refl Hacc Htags)
    as (cfg & tags & Hload & Hmap & Hservices & _).
  exists cfg. split; [done|]. rewrite Hservices.
  vm_compute in Hmap. injection Hmap as <-. reflexivity.
Defined.

(** X7.  Validation does not look at the [tags] of a service: a document
    that passes validation but has a service whose [tags] are truthy and no
    array does not load.  The load fails with a [TypeError] after
    validation, and [loadLocalConfig] returns the default configuration
    with the message of that error. *)
Theorem service_tags_are_not_validated (env : Env) (config item : value) :
  document env config →
  accepted config →
  item ∈ document_services config →
  no_list (get item "tags") →
  ∃ msg,
    load env getDefaultConfig 0 = inl (Error msg)
    ∧ loadLocalConfig env = Return (set_error (Some msg) getDefaultConfig).
Proof.
  intros Hdoc Hacc Hin [Htruthy Hlist].
  destruct (accepted_tags _ Hacc) as (declared & Hdeclared & Hobjects).
  destruct (createTagMap_ok declared 0 Hobjects) as [tags Hmap].
  pose proof Hacc as [validated Hv].
  unfold loadLocalConfig. rewrite (load_document _ _ _ _ Hdoc).
  unfold build, bind. rewrite Hdeclared, Hmap, Hv. cbn [ret].
  destruct (normalizeServices env config tags 0) as [e|[groups n']] eqn:E.
  - destruct (normalizeServices_inl _ _ _ _ _ E) as [msg ->]. by exists msg.
  - exfalso. apply normalizeServices_inr in E as (_ & Hok & _).
    eapply Forall_forall in Hok as [_ [refs Hrefs]]; [|exact Hin].
    destruct (get item "tags") as [t|]; [|done].
    unfold or_else in Hrefs. rewrite Htruthy in Hrefs. by subst t.
Qed.

Lemma service_tags_are_not_validated_witness :
  let item := JObj [("title", JStr "Git"); ("tags", JStr "dev")] in
  let doc := JObj [("services", JArr [item])] in
  let env := {| hasItem := inr true; getItem := inr (Some "services: ...");
                yaml_parse := λ _, inr doc; randomUUID := λ n, pretty n |} in
  accepted doc
  ∧ ∃ msg,
      load env getDefaultConfig 0 = inl (Error msg)
      ∧ loadLocalConfig env = Return (set_error (Some msg) getDefaultConfig).
Proof.
  intros item doc env.
  assert (accepted doc) as Hacc by (by eexists).
  split; [done|].
  apply (service_tags_are_not_validated env doc item).
  - by exists (Some "services: ..."), doc.
  - done.
  - by left.
  - by split.
Defined.

(** ** What normalisation and validation leave alone *)

(** X8.  [determineService] returns one service per item, in order, and
    draws one identifier per item.  For an item that is an object, the
    service has the identifier drawn for it under [id], whatever [id] the
    item had, an array under [tags], and every other field of the item
    unchanged; it has no field that the item did not have. *)
Theorem determineService_keeps_fields
    (env : Env) (items : value) (tags : TagMap) (n n' : nat)
    (services : list value) :
  determineService env items tags n = inr (services, n') →
  ∃ xs,
    items = JArr xs
    ∧ n' = (n + length xs)%nat
    ∧ length services = length xs
    ∧ ∀ i ps,
        xs !! i = Some (JObj ps) → NoDup ps.*1 →
        ∃ s resolved,
          services !! i = Some s
          ∧ get s "id" = Some (JStr (randomUUID env (n + i)))
          ∧ get s "tags" = Some (JArr resolved)
          ∧ ∀ k, k ≠ "id" → k ≠ "tags" → get s k = assoc_get k ps.
Proof.
  intros (xs & -> & -> & -> & _)%determineService_inr.
  exists xs. split_and!; [done..|by rewrite length_imap|].
  intros i ps Hi Hnd. eexists _, _. split_and!.
  - by rewrite list_lookup_imap, Hi.
  - apply normalized_id.
  - unfold normalized. cbn [get]. apply assoc_get_set_eq.
  - intros k Hid Htags. unfold normalized. cbn [get spread].
    rewrite !assoc_get_set_ne by done. by apply assoc_get_own_entries.
Qed.

Lemma determineService_keeps_fields_witness :
  let env := {| hasItem := inr true; getItem := inr None;
                yaml_parse := λ _, inr JNull; randomUUID := λ n, pretty n |} in
  let item := JObj [("id", JStr "mine"); ("link", JStr "https://example.org");
                    ("secrets", JObj [("token", JStr "t")])] in
  ∃ s,
    determineService env (JArr [item]) ∅ 7 = inr ([s], 8%nat)
    ∧ get s "id" = Some (JStr "7")
    ∧ get s "secrets" = Some (JObj [("token", JStr "t")]).
Proof.
  intros env item.
  destruct (determineService env (JArr [item]) ∅ 7) as [e|[services n']] eqn:E;
    [by vm_compute in E|].
  destruct (determineService_keeps_fields env (JArr [item]) ∅ 7 n' services E)
    as (xs & [= <-] & -> & Hlen & Hfields).
  destruct (Hfields 0%nat _ eq_refl) as (s & resolved & Hs & Hid & _ & Hrest).
  { compute_done. }
  destruct services as [|s' [|]]; try done. injection Hs as ->.
  exists s. split_and!; [done..|]. by rewrite Hrest.
Defined.

(** X9.  Validation reads the six fields that the schema names and nothing
    else of the document: two documents that agree on [title], [lang],
    [theme], [checkUpdates], [tags] and [services] get the same answer, the
    same value or the same issues.  So a field that the schema does not
    name is never a reason to reject a document. *)
Theorem validation_reads_the_named_fields (ps ps' : list (string * value)) :
  (∀ k, k ∈ Schema.schema_shape.*1 → assoc_get k ps = assoc_get k ps') →
  validateConfigSchema (JObj ps) = validateConfigSchema (JObj ps').
Proof.
  intros Hsame. unfold validateConfigSchema, Zod.schema_parse, Schema.schema.
  rewrite !parse_object.
  assert (member [] ps <$> Schema.schema_shape
          = member [] ps' <$> Schema.schema_shape) as ->; [|done].
  apply list_eq_Forall2, Forall2_fmap, Forall_Forall2_diag, Forall_forall.
  intros [k sk] Hin. unfold member. cbn [fst snd].
  rewrite (Hsame k); [done|]. apply list_elem_of_fmap. by exists (k, sk).
Qed.

Lemma validation_reads_the_named_fields_witness :
  let doc := [("services", JArr []); ("title", JNum 5)] in
  validateConfigSchema (JObj (doc ++ [("extra", JObj [("deep", JNull)])]))
  = validateConfigSchema (JObj doc).
Proof.
  intros doc. apply validation_reads_the_named_fields.
  intros k Hk. cbn in Hk. set_unfold in Hk.
  by destruct Hk as [->|[->|[->|[->|[->|[->|[]]]]]]].
Defined.


(** ** What the index needs *)






(** ** Keys that are array indices *)

Section index_keys.
Local Open Scope N_scope.

Lemma is_digit_value c :
  is_digit c = true → 0 ≤ N_of_ascii c - 48 ≤ 9 ∧ 48 ≤ N_of_ascii c.
Proof.
  unfold is_digit. cbv zeta. intros [H1%N.leb_le H2%N.leb_le]%andb_true_iff. lia.
Qed.

(** The digits read so far are the leading digits of the result. *)
Lemma digits_value_bounds s : ∀ acc n,
  digits_value s acc = Some n →
  acc * 10 ^ N.of_nat (String.length s) ≤ n
  ∧ n < (acc + 1) * 10 ^ N.of_nat (String.length s).
Proof.
  induction s as [|c r IH]; intros acc n.
  - cbn. intros [= <-]. lia.
  - cbn [digits_value String.length]. destruct (is_digit c) eqn:Hc; [|done].
    apply is_digit_value in Hc. intros [Hlo Hhi]%IH.
    rewrite Nat2N.inj_succ, N.pow_succ_r'.
    set (P := 10 ^ N.of_nat (String.length r)) in *.
    set (d := N_of_ascii c - 48) in *. nia.
Qed.

Lemma digits_value_inj s1 : ∀ s2 acc n,
  String.length s1 = String.length s2 →
  digits_value s1 acc = Some n → digits_value s2 acc = Some n → s1 = s2.
Proof.
  induction s1 as [|c1 r1 IH]; intros [|c2 r2] acc n Hlen; try done.
  cbn [digits_value]. injection Hlen as Hlen.
  destruct (is_digit c1) eqn:Hc1; [|done].
  destruct (is_digit c2) eqn:Hc2; [|done].
  apply is_digit_value in Hc1, Hc2. intros H1 H2.
  pose proof (digits_value_bounds _ _ _ H1) as B1.
  pose proof (digits_value_bounds _ _ _ H2) as B2.
  rewrite <- Hlen in B2.
  set (P := 10 ^ N.of_nat (String.length r1)) in *.
  assert (N_of_ascii c1 = N_of_ascii c2) as Hc by nia.
  assert (c1 = c2) as <-.
  { rewrite <- (ascii_N_embedding c1), <- (ascii_N_embedding c2). by rewrite Hc. }
  f_equal. by eapply IH.
Qed.

(** The two forms of an array index: [0], or digits that do not start
    with [0]. *)
Lemma array_index_Some k n :
  array_index k = Some n →
  (k = "0" ∧ n = 0)
  ∨ ∃ c r, k = String c r ∧ 49 ≤ N_of_ascii c ∧ digits_value k 0 = Some n.
Proof.
  destruct k as [|c r]; [done|].
  destruct (decide (c = "0"%char)) as [->|Hc].
  - destruct r; [|done]. intros [= <-]. by left.
  - intros H. right. exists c, r. 
    assert (array_index (String c r)
            = match digits_value (String c r) 0 with
              | Some n => if n <? 4294967295 then Some n else None
              | None => None
              end) as Heq.
    { destruct c as [[] [] [] [] [] [] [] []]; try done. }
    rewrite Heq in H.
    destruct (digits_value (String c r) 0) as [m|] eqn:E; [|done].
    destruct (m <? 4294967295); [|done]. injection H as ->.
    split_and!; [done| |done].
    cbn [digits_value] in E. destruct (is_digit c) eqn:Hd; [|done].
    apply is_digit_value in Hd.
    assert (N_of_ascii c ≠ 48); [|lia].
    intros H48. apply Hc. rewrite <- (ascii_N_embedding c). by rewrite H48.
Qed.

Lemma array_index_inj k1 k2 n :
  array_index k1 = Some n → array_index k2 = Some n → k1 = k2.
Proof.
  intros [[-> ->]|(c1 & r1 & -> & Hc1 & H1)]%array_index_Some
         [[-> Hn]|(c2 & r2 & -> & Hc2 & H2)]%array_index_Some; try done.
  - exfalso. cbn [digits_value] in H2. destruct (is_digit c2); [|done].
    apply digits_value_bounds in H2.
    pose proof (N.pow_nonzero 10 (N.of_nat (String.length r2))). nia.
  - exfalso. subst n. cbn [digits_value] in H1. destruct (is_digit c1); [|done].
    apply digits_value_bounds in H1.
    pose proof (N.pow_nonzero 10 (N.of_nat (String.length r1))). nia.
  - eapply digits_value_inj; [|done..].
    cbn [digits_value] in H1, H2.
    destruct (is_digit c1) eqn:Hd1; [|done]. destruct (is_digit c2) eqn:Hd2; [|done].
    apply is_digit_value in Hd1, Hd2.
    apply digits_value_bounds in H1, H2. cbn [String.length]. f_equal.
    set (d1 := N_of_ascii c1 - 48) in *. set (d2 := N_of_ascii c2 - 48) in *.
    assert (1 ≤ d1 ≤ 9 ∧ 1 ≤ d2 ≤ 9) as Hd by (unfold d1, d2; lia).
    clearbody d1 d2. clear -H1 H2 Hd.
    destruct (decide (String.length r1 = String.length r2)) as [|Hne]; [done|].
    exfalso.
    assert (∀ a b : nat, (a < b)%nat → 10 * 10 ^ N.of_nat a ≤ 10 ^ N.of_nat b) as Hpow.
    { intros a b Hab. rewrite <- N.pow_succ_r', <- Nat2N.inj_succ.
      apply N.pow_le_mono_r; lia. }
    destruct (Nat.lt_total (String.length r1) (String.length r2)) as [Hlt|[?|Hlt]];
      [|done|]; apply Hpow in Hlt; nia.
Qed.

End index_keys.

(** ** Properties that are in enumeration order *)

Section enumeration.
Context {A : Type}.
Implicit Types (ps : list (string * A)) (k : string).

Lemma own_entries_unfold ps :
  own_entries ps
  = (sort_by_index (omap index_of_entry ps)).*2
    ++ filter (λ kv, is_index kv.1 = false) ps.
Proof. done. Qed.

Lemma index_of_entry_Some k (v : A) n :
  array_index k = Some n → index_of_entry (k, v) = Some (n, (k, v)).
Proof. unfold index_of_entry. cbn [fst]. by intros ->. Qed.

Lemma index_of_entry_None k (v : A) :
  array_index k = None → index_of_entry (k, v) = None.
Proof. unfold index_of_entry. cbn [fst]. by intros ->. Qed.

Lemma key_before_index k1 k2 n m :
  array_index k1 = Some n → array_index k2 = Some m →
  key_before k1 k2 ↔ (n < m)%N.
Proof. unfold key_before. by intros -> ->. Qed.

Lemma key_before_trans k1 k2 k n m :
  array_index k1 = Some n → array_index k2 = Some m → (n < m)%N →
  key_before k2 k → key_before k1 k.
Proof.
  unfold key_before. intros -> ->. destruct (array_index k); [lia|done].
Qed.

Lemma enumerated_keys_app ks1 ks2 :
  enumerated_keys ks1 → enumerated_keys ks2 →
  (∀ k1 k2, k1 ∈ ks1 → k2 ∈ ks2 → key_before k1 k2) →
  enumerated_keys (ks1 ++ ks2).
Proof.
  induction ks1 as [|k ks1 IH]; intros H1 H2 Hcross; [done|].
  destruct H1 as [Hk H1]. split.
  - apply Forall_app. split; [done|]. apply Forall_forall. intros k2 Hk2.
    apply Hcross; [left|done].
  - apply IH; [done..|]. intros k1 k2 Hk1. apply Hcross. by right.
Qed.

Lemma enumerated_keys_no_index ks :
  Forall (λ k, is_index k = false) ks → enumerated_keys ks.
Proof.
  induction 1 as [|k ks Hk Hks IH]; [done|]. split; [|done].
  eapply Forall_impl; [exact Hks|]. intros k' Hk'.
  unfold key_before, is_index in *.
  by destruct (array_index k), (array_index k').
Qed.

Lemma insert_by_index_enumerated n (x : string * A) l :
  tagged l → array_index x.1 = Some n → n ∉ l.*1 →
  enumerated (l.*2) → enumerated ((insert_by_index n x l).*2).
Proof.
  unfold enumerated. intros Hl Hx. induction Hl as [|[m y] r Hy Hr IH]; intros Hn He.
  { done. }
  cbn [fst snd] in Hy. rewrite fmap_cons, not_elem_of_cons in Hn.
  destruct Hn as [Hnm Hn]. cbn [fst] in Hnm.
  rewrite !fmap_cons in He. destruct He as [Hfirst He]. cbn [snd fst] in Hfirst.
  cbn [insert_by_index]. destruct (n <? m)%N eqn:E.
  - apply N.ltb_lt in E. rewrite !fmap_cons. cbn [fst snd]. split_and!; [|done..].
    constructor; [by apply (key_before_index _ _ n m)|].
    eapply Forall_impl; [exact Hfirst|]. intros k. by apply (key_before_trans _ y.1 _ n m).
  - apply N.ltb_ge in E. rewrite !fmap_cons. cbn [fst snd]. split; [|by apply IH].
    rewrite insert_by_index_perm, !fmap_cons. cbn [fst snd].
    constructor; [|done]. apply (key_before_index _ _ m n); [done..|lia].
Qed.

Lemma sort_by_index_tagged (l : list (N * (string * A))) :
  tagged l → tagged (sort_by_index l).
Proof. unfold tagged. by rewrite sort_by_index_perm. Qed.

Lemma sort_by_index_enumerated (l : list (N * (string * A))) :
  tagged l → NoDup l.*1 → enumerated ((sort_by_index l).*2).
Proof.
  induction l as [|[n x] l IH]; intros Hl Hnd; [done|].
  apply Forall_cons in Hl as [Hx Hl]. rewrite fmap_cons in Hnd.
  apply NoDup_cons in Hnd as [Hn Hnd]. cbn [sort_by_index foldr fst snd].
  apply insert_by_index_enumerated; [by apply sort_by_index_tagged|done| |by apply IH].
  fold (sort_by_index l). by rewrite sort_by_index_perm.
Qed.

Lemma index_entries_tagged ps : tagged (omap index_of_entry ps).
Proof.
  induction ps as [|[k v] ps IH]; [constructor|].
  cbn [omap list_omap]. unfold index_of_entry at 1. cbn [fst].
  destruct (array_index k) eqn:E; [|done].
  by constructor.
Qed.

Lemma index_entries_elem ps n kv :
  (n, kv) ∈ omap index_of_entry ps → kv ∈ ps ∧ array_index kv.1 = Some n.
Proof.
  intros ([k v] & Hin & H)%list_elem_of_omap. unfold index_of_entry in H.
  cbn [fst] in H. destruct (array_index k) eqn:E; [|done]. by injection H as <- <-.
Qed.

Lemma index_entries_NoDup ps : NoDup ps.*1 → NoDup (omap index_of_entry ps).*1.
Proof.
  induction ps as [|[k v] ps IH]; [constructor|].
  rewrite fmap_cons. intros [Hk Hnd]%NoDup_cons. cbn [omap list_omap fst] in *.
  unfold index_of_entry at 1. cbn [fst].
  destruct (array_index k) as [n|] eqn:E; [|by apply IH].
  rewrite fmap_cons. apply NoDup_cons. split; [|by apply IH].
  intros ([n' [k' v']] & Heq & [Hin Hn]%index_entries_elem)%list_elem_of_fmap.
  cbn [fst snd] in *. subst n'. apply Hk.
  rewrite (array_index_inj k k' _ E Hn).
  apply list_elem_of_fmap. by exists (k', v').
Qed.

(** The enumeration of an object is in enumeration order. *)
Lemma own_entries_enumerated ps : NoDup ps.*1 → enumerated (own_entries ps).
Proof.
  intros Hnd. unfold enumerated. rewrite own_entries_unfold, fmap_app.
  apply enumerated_keys_app.
  - apply sort_by_index_enumerated;
      [apply index_entries_tagged | by apply index_entries_NoDup].
  - apply enumerated_keys_no_index, Forall_fmap, Forall_forall.
    by intros kv [? _]%list_elem_of_filter.
  - intros k1 k2 ([k v] & -> & ([n kv] & -> & Hin)%list_elem_of_fmap)%list_elem_of_fmap
              ([k' v'] & -> & [Hk' _]%list_elem_of_filter)%list_elem_of_fmap.
    pose proof (sort_by_index_tagged _ (index_entries_tagged ps)) as Ht.
    eapply Forall_forall in Ht; [|exact Hin]. cbn [fst snd] in *.
    unfold key_before, is_index in *. rewrite Ht.
    by destruct (array_index k').
Qed.

Lemma insert_by_index_first {B} n (x : B) l :
  Forall (λ p, (n < p.1)%N) l → insert_by_index n x l = (n, x) :: l.
Proof.
  destruct 1 as [|[m y] r Hm _]; [done|]. cbn [insert_by_index fst] in *.
  by apply N.ltb_lt in Hm as ->.
Qed.

(** Properties that are in enumeration order are enumerated as they
    are. *)
Lemma enumerated_own_entries ps : enumerated ps → own_entries ps = ps.
Proof.
  unfold enumerated. induction ps as [|[k v] ps IH]; [done|].
  rewrite fmap_cons. cbn [fst]. intros [Hk Hps].
  destruct (array_index k) as [n|] eqn:E.
  - rewrite own_entries_unfold. cbn [omap list_omap].
    rewrite (index_of_entry_Some _ _ _ E).
    cbn [sort_by_index foldr fst snd]. fold (sort_by_index (omap index_of_entry ps)).
    rewrite insert_by_index_first.
    + rewrite fmap_cons, filter_cons. cbn [fst snd].
      rewrite decide_False by (unfold is_index; by rewrite E).
      rewrite <- app_comm_cons. f_equal. rewrite <- own_entries_unfold. by apply IH.
    + rewrite sort_by_index_perm. apply Forall_forall.
      intros [m [k' v']] [Hin Hm]%index_entries_elem. cbn [fst snd] in *.
      rewrite Forall_fmap in Hk. eapply Forall_forall in Hk; [|exact Hin].
      by apply (key_before_index k k' n m) in Hk.
  - apply own_entries_no_index. constructor.
    + unfold is_index. cbn [fst]. by rewrite E.
    + rewrite Forall_fmap in Hk. eapply Forall_impl; [exact Hk|].
      intros [k' v']. unfold key_before, is_index, compose. cbn [fst]. rewrite E.
      by destruct (array_index k').
Qed.

Lemma own_entries_idemp ps :
  NoDup ps.*1 → own_entries (own_entries ps) = own_entries ps.
Proof. intros H. by apply enumerated_own_entries, own_entries_enumerated. Qed.

End enumeration.

(** Leaving properties out and changing values keeps the order. *)
Lemma enumerated_omap {A B} (f : string * A → option (string * B)) ps :
  (∀ kv kv', f kv = Some kv' → kv'.1 = kv.1) →
  enumerated ps → enumerated (omap f ps).
Proof.
  intros Hf. unfold enumerated. induction ps as [|kv ps IH]; [done|].
  rewrite fmap_cons. intros [Hk Hps]. cbn [omap list_omap].
  destruct (f kv) as [kv'|] eqn:E; [|by apply IH].
  rewrite fmap_cons. split; [|by apply IH].
  rewrite (Hf _ _ E). clear -Hf Hk.
  induction ps as [|x ps IH]; [constructor|].
  rewrite fmap_cons in Hk. apply Forall_cons in Hk as [Hx Hk].
  cbn [omap list_omap]. destruct (f x) as [x'|] eqn:E; [|by apply IH].
  rewrite fmap_cons. constructor; [|by apply IH]. by rewrite (Hf _ _ E).
Qed.

(** ** The safe view of a safe view *)

Lemma omap_id {A} (f : A → option A) l :
  Forall (λ x, f x = Some x) l → omap f l = l.
Proof.
  induction 1 as [|x l Hx _ IH]; [done|]. cbn [omap list_omap]. by rewrite Hx, IH.
Qed.

Lemma redact_idemp v : wf v = true → redact (redact v) = redact v.
Proof.
  induction v as [|b|n|s|xs IH|ps IH] using value_ind; try done.
  - by destruct n.
  - cbn [wf redact]. intros Hwf%forallb_Forall. f_equal.
    rewrite <- list_fmap_compose.
    apply list_eq_Forall2, Forall2_fmap, Forall_Forall2_diag.
    assert (Forall (λ x, (wf x = true → redact (redact x) = redact x)
                         ∧ wf x = true) xs) as Hall
      by (by apply Forall_and).
    eapply Forall_impl; [exact Hall|].
    intros x [Hx Hw]. by apply Hx.
  - cbn [wf]. intros [Hnd%bool_decide_eq_true Hwf%forallb_Forall]%andb_true_iff.
    rewrite !redact_obj. f_equal.
    set (g := λ kv : string * value,
                if decide (kv.1 = "secrets") then None
                else Some (kv.1, redact kv.2)).
    rewrite (omap_id g).
    + apply own_entries_idemp. by apply redact_keys_NoDup.
    + rewrite own_entries_perm. clear Hnd.
      induction IH as [|[k x] r Hx _ IHr]; [constructor|].
      apply Forall_cons in Hwf as [Hw Hwf]. cbn [omap list_omap].
      cbn [fst snd] in *.
      change (g (k, x))
        with (if decide (k = "secrets") then None else Some (k, redact x)).
      destruct (decide (k = "secrets")) as [->|Hne]; [by apply IHr|].
      constructor; [|by apply IHr].
      unfold g. cbn [fst snd]. rewrite decide_False by done. by rewrite Hx.
Qed.

(** X11.  The safe view is idempotent on well-formed data: applied to its
    own result, [extractSafelyConfig] returns that result unchanged, its
    properties in the same order. *)
Theorem safe_view_is_idempotent (config safe : value) :
  wf config = true →
  extractSafelyConfig config = inr safe →
  extractSafelyConfig safe = inr safe.
Proof.
  intros Hwf. rewrite extractSafelyConfig_redact. intros [= <-].
  rewrite extractSafelyConfig_redact. f_equal. by apply redact_idemp.
Qed.

Lemma safe_view_is_idempotent_witness :
  let config :=
    JObj [("title", JStr "Home");
          ("services",
           JArr [JObj [("items",
                        JArr [JObj [("id", JStr "a");
                                    ("secrets", JObj [("token", JStr "t")]);
                                    ("10", JNum 1); ("2", JNum 2)]])]])] in
  ∃ safe,
    extractSafelyConfig config = inr safe
    ∧ extractSafelyConfig safe = inr safe
    ∧ get_path safe ["services"; "0"; "items"; "0"]
      = Some (JObj [("2", JNum 2); ("10", JNum 1); ("id", JStr "a")]).
Proof.
  intros config. eexists. split; [reflexivity|]. split; [|reflexivity].
  by apply (safe_view_is_idempotent config).
Defined.

(** ** Validating what validation returns *)

Section stable_schemas.
Import Zod.

Lemma mapM_id_imap_stable xs :
  ∀ (f f' : nat → value → list issue * option value) ys,
  mapM id (imap f xs).*2 = Some ys →
  (∀ i j x y, x ∈ xs → (f i x).2 = Some y → (f' j y).2 = Some y) →
  mapM id (imap f' ys).*2 = Some ys.
Proof.
  induction xs as [|x xs IH]; intros f f' ys.
  - by intros [= <-] _.
  - cbn [imap fmap list_fmap mapM]. intros Hm Hf.
    destruct (f 0%nat x).2 as [y|] eqn:E; [|done].
    destruct (mapM id (imap (f ∘ S) xs).*2) as [ys'|] eqn:E'; [|done].
    cbn in Hm. injection Hm as <-.
    cbn [imap fmap list_fmap mapM].
    rewrite (Hf 0%nat 0%nat x y); [|left|done]. cbn.
    rewrite (IH (f ∘ S) (f' ∘ S) ys'); [done|done|].
    intros i j x' y' Hin. apply Hf. by right.
Qed.

Lemma mergeObjectSync_values (O : list (string * value)) :
  Forall (λ kv, kv.1 ≠ "__proto__") O →
  mergeObjectSync ((λ kv, (kv.1, Some (Some kv.2))) <$> O) = Some (JObj O).
Proof.
  intros H. unfold mergeObjectSync.
  assert (forallb (λ kr : string * option (option value), bool_decide (is_Some kr.2))
            ((λ kv : string * value, (kv.1, Some (Some kv.2))) <$> O) = true) as ->.
  { apply forallb_Forall, Forall_fmap, Forall_forall. intros kv _.
    by apply bool_decide_eq_true. }
  do 2 f_equal. induction H as [|[k v] O Hk _ IH]; [done|].
  rewrite fmap_cons. cbn [omap list_omap fst snd] in *.
  rewrite decide_False by done. by rewrite IH.
Qed.

Lemma wf_elements xs : wf (JArr xs) = true → Forall (λ x, wf x = true) xs.
Proof. cbn [wf]. by intros ?%forallb_Forall. Qed.

Lemma wf_members ps :
  wf (JObj ps) = true → NoDup ps.*1 ∧ Forall (λ kv, wf kv.2 = true) ps.
Proof.
  cbn [wf]. by intros [?%bool_decide_eq_true ?%forallb_Forall]%andb_true_iff.
Qed.

Lemma stable_array e : stable e → stable (z_array e).
Proof.
  intros He p p' d d' Hwf. destruct d as [| | | |xs|]; try done.
  apply wf_elements in Hwf.
  rewrite parse_array. cbn [snd]. unfold mergeArray.
  destruct (mapM id _) as [ys|] eqn:E; [|done]. intros [= <-].
  rewrite parse_array. cbn [snd]. unfold mergeArray.
  rewrite (mapM_id_imap_stable xs (λ i x, parse e (p ++ [PIdx i]) x)
             (λ i x, parse e (p' ++ [PIdx i]) x) ys); [done|done|].
  intros i j x y Hx. apply He. by eapply Forall_forall in Hwf.
Qed.

Lemma stable_record e : stable e → stable (z_record e).
Proof.
  intros He p p' d d' Hwf. destruct d as [| | | | |ps]; try done.
  apply wf_members in Hwf as [Hnd Hwf].
  rewrite parse_record. cbn [snd].
  intros [Hall ->]%mergeObjectSync_inv. rewrite Forall_fmap in Hall.
  rewrite (record_members (λ kv, (parse e (p ++ [PKey kv.1]) kv.2).2) (strip e))
    by (done || (intros [k x] y; apply parse_strip)).
  set (O := omap _ (own_entries ps)).
  assert (Forall (λ kv, kv.1 ≠ "__proto__"
                        ∧ (parse e (p' ++ [PKey kv.1]) kv.2).2 = Some kv.2) O)
    as HO.
  { apply Forall_forall. intros [k y] ([k' x] & Hin & Hy)%list_elem_of_omap.
    cbn [fst snd] in *. destruct (decide (k' = "__proto__")); [done|].
    injection Hy as <- <-. split; [done|].
    eapply Forall_forall in Hall; [|exact Hin]. unfold compose in Hall.
    cbn [fst snd] in Hall.
    destruct (parse e (p ++ [PKey k']) x).2 as [y|] eqn:E;
      [|by destruct Hall as [? [=]]].
    rewrite <- (parse_strip _ _ _ _ E). eapply He; [|exact E].
    assert ((k', x) ∈ ps) as Hin' by (by rewrite <- (own_entries_perm ps)).
    by eapply Forall_forall in Hwf; [|exact Hin']. }
  rewrite parse_record. cbn [snd].
  rewrite (enumerated_own_entries O).
  - rewrite <- (mergeObjectSync_values O)
      by (eapply Forall_impl; [exact HO|]; by intros ? [? _]).
    f_equal. apply list_eq_Forall2, Forall2_fmap, Forall_Forall2_diag.
    eapply Forall_impl; [exact HO|]. intros [k y] [_ Hy]. cbn [fst snd] in *.
    by rewrite Hy.
  - apply enumerated_omap; [|by apply own_entries_enumerated].
    intros [k x] kv'. cbn [fst snd]. destruct (decide _); [done|]. by intros [= <-].
Qed.

Lemma stable_object shape :
  NoDup shape.*1 → "__proto__" ∉ shape.*1 →
  Forall (λ ks, stable ks.2) shape →
  stable (z_object shape).
Proof.
  intros Hnd Hproto Hshape p p' d d' Hwf. destruct d as [| | | | |ps]; try done.
  intros Hd'. pose proof (parse_strip _ _ _ _ Hd') as ->.
  rewrite parse_object in Hd'. cbn [snd] in Hd'.
  pose proof (mergeObjectSync_Some _ _ Hd') as Hall. rewrite !Forall_fmap in Hall.
  destruct (strip (z_object shape) (JObj ps)) as [| | | | |O] eqn:EO; try done.
  rewrite parse_object. cbn [snd]. rewrite <- Hd'. f_equal.
  rewrite <- !list_fmap_compose.
  apply list_eq_Forall2, Forall2_fmap, Forall_Forall2_diag, Forall_forall.
  intros [k sk] Hin. unfold compose.
  assert (k ≠ "__proto__") as Hk.
  { intros ->. apply Hproto, list_elem_of_fmap. by eexists (_, _). }
  assert (assoc_get k O = strip sk <$> assoc_get k ps) as HO.
  { change (assoc_get k O) with (get (JObj O) k). rewrite <- EO.
    rewrite strip_object_lookup by done.
    by rewrite (assoc_get_elem shape k sk Hnd Hin). }
  eapply Forall_forall in Hall; [|exact Hin]. unfold compose in Hall.
  eapply Forall_forall in Hshape; [|exact Hin]. cbn [snd] in Hshape.
  destruct (assoc_get k ps) as [x|] eqn:Ex.
  - rewrite (member_present _ _ _ _ _ Ex) in Hall |- *.
    rewrite (member_present _ _ _ _ _ HO). cbn [fst snd] in *.
    destruct (parse sk (p ++ [PKey k]) x).2 as [y|] eqn:E;
      [|by destruct Hall as [? [=]]].
    rewrite <- (parse_strip _ _ _ _ E).
    rewrite (Hshape _ (p' ++ [PKey k]) _ _ (wf_get _ _ _ Hwf Ex) E). done.
  - rewrite (member_absent _ _ _ _ Ex), (member_absent _ _ _ _ HO).
    cbn [fst snd]. by rewrite (parse_undefined_path sk (p' ++ [PKey k]) (p ++ [PKey k])).
Qed.

(** Every schema without unions is stable. *)
Lemma tidy_stable s : tidy s = true → stable s.
Proof.
  induction s as [| | | |s IH|s IH|s IH|s IH|shape IH|options IH]
    using schema_ind; cbn [tidy]; intros Ht.
  - intros p p' d d' _. destruct d; cbn; try done. by intros [= <-].
  - intros p p' d d' _. destruct d as [| |[]| | |]; cbn; try done; by intros [= <-].
  - intros p p' d d' _. destruct d; cbn; try done. by intros [= <-].
  - intros p p' d d' _. cbn. by intros [= <-].
  - intros p p' d d'. apply (IH Ht).
  - intros p p' d d' Hwf.
    assert ((parse s p d).2 = Some d' → (parse (z_nullable s) p' d').2 = Some d')
      as Hinner.
    { intros H. destruct d'; try done; by apply (IH Ht p p' d). }
    destruct d; try done. cbn. by intros [= <-].
  - by apply stable_array, IH.
  - by apply stable_record, IH.
  - apply andb_true_iff in Ht as [[Hnd%bool_decide_eq_true Hp%bool_decide_eq_true]
                                    %andb_true_iff Hall%forallb_Forall].
    apply stable_object; [done..|].
    apply Forall_forall. intros ks Hin.
    eapply Forall_forall in IH, Hall; [|exact Hin..]. by apply IH.
  - done.
Qed.

(** The two shapes of [services]: what the first option returns is an
    array, what the second returns is not. *)
Lemma stable_services :
  stable (z_union [z_array Schema.service; z_record (z_array Schema.service)]).
Proof.
  assert (stable (z_array Schema.service)) as Harray
    by (apply tidy_stable; by vm_compute).
  assert (stable (z_record (z_array Schema.service))) as Hrecord
    by (apply tidy_stable; by vm_compute).
  intros p p' d d' Hwf. rewrite !parse_union. cbn [try_options]. cbv zeta.
  destruct (parse (z_array Schema.service) p d).2 as [v|] eqn:E1.
  - intros [= <-]. by rewrite (Harray _ p' _ _ Hwf E1).
  - destruct (parse (z_record (z_array Schema.service)) p d).2 as [v|] eqn:E2;
      [|done].
    intros [= <-]. rewrite (Hrecord _ p' _ _ Hwf E2).
    destruct (valid_record (z_array Schema.service) p d) as (ps & -> & _);
      [by rewrite E2|].
    pose proof (parse_strip _ _ _ _ E2) as ->. done.
Qed.

Lemma stable_schema : stable Schema.schema.
Proof.
  apply stable_object; [compute_done..|].
  repeat (constructor;
          [first [exact stable_services | apply tidy_stable; by vm_compute]|]).
  constructor.
Qed.

End stable_schemas.

(** X12.  Validation is idempotent on well-formed data: the value that
    [validateConfigSchema] returns for a document passes validation
    itself, and validating it returns it unchanged. *)
Theorem validation_is_idempotent (config validated : value) :
  wf config = true →
  validateConfigSchema config = inr validated →
  validateConfigSchema validated = inr validated.
Proof.
  unfold validateConfigSchema, Zod.schema_parse. intros Hwf.
  destruct (Zod.parse Schema.schema [] config) as [issues [v|]] eqn:E; [|done].
  intros [= <-].
  assert ((Zod.parse Schema.schema [] v).2 = Some v) as H
    by (apply (stable_schema [] [] config v Hwf); by rewrite E).
  destruct (Zod.parse Schema.schema [] v) as [issues' result].
  cbn [snd] in H. by rewrite H.
Qed.

Lemma validation_is_idempotent_witness :
  let config :=
    JObj [("note", JStr "not in the schema");
          ("services",
           JObj [("Media", JArr [JObj [("title", JStr "Radio");
                                       ("tags", JArr [JStr "music"]);
                                       ("secrets", JObj [("token", JStr "t")])]]);
                 ("7", JArr [])])] in
  ∃ validated,
    validateConfigSchema config = inr validated
    ∧ validateConfigSchema validated = inr validated
    ∧ validated
      = JObj [("services",
               JObj [("7", JArr []);
                     ("Media", JArr [JObj [("title", JStr "Radio");
                                           ("secrets", JObj [("token", JStr "t")])]])])].
Proof.
  intros config. eexists. split; [reflexivity|]. split; [|reflexivity].
  by apply (validation_is_idempotent config).
Defined.

(** ** What the merged configuration is made of *)

(** X13.  On a document and defaults held in memory, with fuel for the
    depth of the document, [defu] returns its result in a heap that is the
    old heap followed by new cells, and every cell that the result reaches
    is a new one or a cell of the document or of the defaults: the result
    shares structure with its two arguments and with nothing else. *)
Theorem merged_shares_only_its_arguments
    (fuel : nat) (h : Heap.heap) (a b : Heap.ref)
    (ps : list (string * value)) (vd : value) :
  holds h a (JObj ps) → holds h b vd → (depth (JObj ps) ≤ fuel)%nat →
  ∃ fresh merged,
    Heap.defu fuel h a b = Some (h ++ fresh, merged)
    ∧ holds (h ++ fresh) merged (Defu.defu (JObj ps) vd)
    ∧ ∀ l, Heap.reachable (h ++ fresh) merged l →
           (length h ≤ l)%nat ∨ Heap.reachable h a l ∨ Heap.reachable h b l.
Proof.
  intros Ha Hb Hdepth. unfold Heap.defu, Defu.defu.
  assert (1 ≤ fuel)%nat as Hfuel by (cbn in Hdepth; lia).
  assert (holds (h ++ [Heap.CObj []]) (Heap.RPtr (length h)) (JObj [])) as Hempty.
  { apply (holds_object_cell _ _ []); [by rewrite list_lookup_middle | constructor]. }
  destruct (_defu_sim fuel (h ++ [Heap.CObj []]) (Heap.RPtr (length h)) a []
              (JObj ps) Hempty (holds_more _ _ _ _ Ha) Hfuel)
    as (fresh1 & r1 & -> & Hr1 & Hreach1).
  cbn [fst snd].
  assert (∃ qs, Defu._defu (JObj []) (JObj ps) = JObj qs ∧ qs ≡ₚ ps)
    as (qs & Hqs & Hperm).
  { rewrite _defu_obj. eexists. split; [done|]. cbn. apply own_entries_perm. }
  rewrite Hqs in Hr1 |- *.
  destruct (_defu_sim fuel ((h ++ [Heap.CObj []]) ++ fresh1) r1 b qs vd)
    as (fresh2 & r2 & -> & Hr2 & Hreach2); [done| by do 2 apply holds_more | |].
  { cbn [depth] in *.
    assert (foldr (λ kv d, depth kv.2 `max` d) 0 qs
            = foldr (λ kv d, depth kv.2 `max` d) 0 ps)%nat as ->; [|done].
    apply (foldr_permutation (=) _ 0%nat); [|done].
    intros; lia. }
  exists ([Heap.CObj []] ++ fresh1 ++ fresh2), r2.
  rewrite !app_assoc in *. split_and!; [done..|].
  intros l [Hl|[Hl|Hl]]%Hreach2.
  - left. rewrite !length_app in Hl. lia.
  - apply Hreach1 in Hl as [Hl|[Hl|Hl]].
    + left. rewrite length_app in Hl. lia.
    + left. apply (holds_reachable _ _ _ _ Hempty) in Hl as Hlt.
      inversion Hl as [|l0 rs r ? Hcell Hin Hr|l0 qs' k r ? Hcell Hin Hr]; subst.
      * done.
      * by rewrite list_lookup_middle in Hcell.
      * rewrite list_lookup_middle in Hcell by done. injection Hcell as <-.
        by apply elem_of_nil in Hin.
    + right. left. by eapply reachable_closed.
  - right. right. rewrite <- app_assoc in Hl. by eapply reachable_closed.
Qed.

Lemma merged_shares_only_its_arguments_witness :
  let doc := [("theme", JStr "dark"); ("services", JArr [])] in
  let document := Heap.alloc (JObj doc) [] in
  let defaultConfig := Heap.alloc getDefaultConfig document.1 in
  let h := defaultConfig.1 in
  ∃ fresh merged,
    Heap.defu 2 h document.2 defaultConfig.2 = Some (h ++ fresh, merged)
    ∧ holds (h ++ fresh) merged (Defu.defu (JObj doc) getDefaultConfig).
Proof.
  intros doc document defaultConfig h.
  assert (holds h document.2 (JObj doc)) as Hdocument by (by exists 2%nat).
  assert (holds h defaultConfig.2 getDefaultConfig) as Hdefault
    by (by exists 2%nat).
  assert (depth (JObj doc) ≤ 2)%nat as Hfuel by (cbn; lia).
  destruct (merged_shares_only_its_arguments 2 h document.2 defaultConfig.2
              doc getDefaultConfig Hdocument Hdefault Hfuel)
    as (fresh & merged & Hrun & Hmerged & _).
  by exists fresh, merged.
Defined.

(** ** The safe view of a loaded configuration *)

Lemma Forall_both {A} (P Q : A → Prop) l :
  Forall P l → Forall Q l → Forall (λ x, P x ∧ Q x) l.
Proof. intros. by apply Forall_and. Qed.

Lemma object_keys_NoDup_normalized tags id ps :
  NoDup ps.*1 →
  ∃ ss, normalized tags id (JObj ps) = JObj ss ∧ NoDup ss.*1.
Proof.
  intros Hnd. unfold normalized. eexists. split; [done|]. cbn [spread].
  by apply assoc_set_NoDup, assoc_set_NoDup, own_entries_keys_NoDup.
Qed.

Lemma groups_of_keys env tags entries : ∀ n,
  Forall (λ g, ∃ gs, g = JObj gs ∧ NoDup gs.*1) (groups_of env tags n entries).
Proof.
  induction entries as [|entry rest IH]; intros n; constructor; [|apply IH].
  eexists. split; [done|]. compute_done.
Qed.

(** The services of a well-formed document that passes validation are
    objects that name no key twice. *)
Lemma document_services_objects config :
  wf config = true → accepted config →
  Forall (λ x, ∃ ps, x = JObj ps ∧ NoDup ps.*1) (document_services config).
Proof.
  intros Hwf Hacc. unfold document_services.
  destruct (accepted_services config Hacc) as [(xs & E & Hobj)|(ps & E & Hobj)];
    rewrite E; pose proof (wf_get _ _ _ Hwf E) as Hw.
  - apply wf_elements in Hw.
    eapply Forall_impl; [exact (Forall_both _ _ _ Hobj Hw)|].
    intros x [[qs ->] Hx]. exists qs. split; [done | by apply wf_object].
  - apply wf_members in Hw as [_ Hw]. apply Forall_bind.
    assert (Forall (λ kv, wf kv.2 = true) (own_entries ps)) as Hw'
      by (by rewrite own_entries_perm).
    eapply Forall_impl; [exact (Forall_both _ _ _ Hobj Hw')|].
    intros [k v] [(xs & Hkv & Hxs) Hv]. cbn [snd] in *. subst v.
    cbn [elements]. apply wf_elements in Hv.
    eapply Forall_impl; [exact (Forall_both _ _ _ Hxs Hv)|].
    intros x [[qs ->] Hx]. exists qs. split; [done | by apply wf_object].
Qed.

(** The configuration that a load returns, its groups and its services
    are objects that name no key twice. *)
Lemma loaded_objects env cfg :
  (∀ text doc, yaml_parse env text = inr doc → wf doc = true) →
  loadLocalConfig env = Return cfg →
  ∃ ps groups,
    cfg = JObj ps
    ∧ NoDup ps.*1
    ∧ assoc_get "services" ps = Some (JArr groups)
    ∧ Forall (λ g, ∃ gs, g = JObj gs ∧ NoDup gs.*1) groups
    ∧ Forall (λ s, ∃ ss, s = JObj ss ∧ NoDup ss.*1) (config_services cfg).
Proof.
  intros Hwf. unfold loadLocalConfig.
  destruct (load env getDefaultConfig 0) as [e|[merged n']] eqn:E.
  - assert (∀ msg : string,
              ∃ ps, set_error (Some msg) getDefaultConfig = JObj ps
                    ∧ NoDup ps.*1
                    ∧ assoc_get "services" ps = Some (JArr [])) as Herr.
    { intros msg. eexists. split; [done|]. split; [compute_done|done]. }
    intros Hrec.
    assert (∃ ps, cfg = JObj ps ∧ NoDup ps.*1
                  ∧ assoc_get "services" ps = Some (JArr []))
      as (ps & -> & Hnd & Hs).
    { destruct e as [msg|issues|v].
      - rewrite recover_Error in Hrec. injection Hrec as <-. apply Herr.
      - rewrite recover_ZodError in Hrec.
        destruct (Zod.format issues) as [[?|?]|]; [done| |done].
        injection Hrec as <-. apply Herr.
      - rewrite recover_Thrown in Hrec. injection Hrec as <-. eexists.
        split; [done|]. split; [compute_done|done]. }
    exists ps, []. unfold config_services. cbn [get]. rewrite Hs.
    by split_and!.
  - intros [= <-].
    apply load_inr in E as (raw & parsed & _ & _ & Hparse & Hbuild).
    apply build_inr in Hbuild as (tags & groups & _ & Hacc & Hnorm & ->).
    pose proof (wf_or_else _ (Hwf _ _ Hparse)) as Hw.
    pose proof (document_services_objects _ Hw Hacc) as Hitems.
    destruct (accepted_object _ Hacc) as [ps Hps]. rewrite Hps in *.
    assert (NoDup ps.*1) as Hnd by (by apply wf_object).
    apply normalizeServices_inr in Hnorm as (_ & _ & Hservices & Hshape).
    pose proof (merged_lookup ps groups "services" Hnd) as Hget.
    rewrite decide_True in Hget by done.
    assert (config_services
              (Defu.defu (JObj (assoc_set "services" (JArr groups) (spread (JObj ps))))
                 getDefaultConfig)
            = imap (λ i, normalized tags (randomUUID env (0 + i)))
                (document_services (JObj ps))) as Hcs.
    { rewrite <- Hservices. unfold config_services. rewrite Hget.
      cbn [get assoc_get]. by rewrite decide_True. }
    rewrite Hcs. clear Hcs.
    rewrite defu_obj in Hget |- *.
    destruct (_defu_keys_NoDup
                (own_entries (assoc_set "services" (JArr groups) (spread (JObj ps))))
                [("title", JStr "Mafl Home Page"); ("lang", JStr "en");
                 ("theme", JStr "system"); ("checkUpdates", JBool true);
                 ("behaviour", JObj [("target", JStr "_blank")]);
                 ("tags", JArr []); ("services", JArr [])])
      as (rs & Hrs & Hndrs); [compute_done|].
    change (JObj [("title", JStr "Mafl Home Page"); ("lang", JStr "en");
                  ("theme", JStr "system"); ("checkUpdates", JBool true);
                  ("behaviour", JObj [("target", JStr "_blank")]);
                  ("tags", JArr []); ("services", JArr [])])
      with getDefaultConfig in Hrs.
    rewrite Hrs in Hget |- *. exists rs, groups. split_and!; [done..| |].
    + destruct (get (JObj ps) "services") as [[| | | |xs|qs]|];
        try (subst groups; constructor).
      * eexists. split; [done|]. compute_done.
      * constructor.
      * destruct Hshape as [-> _]. apply groups_of_keys.
    + apply Forall_forall. intros s [i Hs]%list_elem_of_lookup.
      rewrite list_lookup_imap in Hs.
      destruct (document_services (JObj ps) !! i) as [x|] eqn:Ex; [|done].
      injection Hs as <-. apply list_elem_of_lookup_2 in Ex.
      destruct (proj1 (Forall_forall _ _) Hitems _ Ex) as (qs & -> & Hqs).
      by apply object_keys_NoDup_normalized.
Qed.

Lemma config_services_redact ps groups :
  NoDup ps.*1 →
  assoc_get "services" ps = Some (JArr groups) →
  Forall (λ g, ∃ gs, g = JObj gs ∧ NoDup gs.*1) groups →
  config_services (redact (JObj ps)) = redact <$> config_services (JObj ps).
Proof.
  intros Hnd Hs Hgroups. unfold config_services.
  rewrite redact_lookup by (by intros ? [= <-]).
  rewrite decide_False by done. cbn [get]. rewrite Hs.
  cbn [fmap option_fmap option_map redact]. clear Hs.
  induction Hgroups as [|g groups (gs & -> & Hgs) _ IH]; [done|].
  rewrite fmap_cons, !bind_cons, fmap_app, IH. f_equal.
  rewrite redact_lookup by (by intros ? [= <-]).
  rewrite decide_False by done.
  by destruct (get (JObj gs) "items") as [[| |[]| | |]|].
Qed.

Lemma loaded_ids env cfg :
  (∀ text doc, yaml_parse env text = inr doc → wf doc = true) →
  loadLocalConfig env = Return cfg →
  Forall (λ s, ∃ id, get s "id" = Some (JStr id)) (config_services cfg).
Proof.
  intros Hwf Hload.
  destruct (loaded_groups env cfg Hwf Hload) as (groups & _ & _ & Hids).
  apply Forall_forall. intros s [k Hk]%list_elem_of_lookup.
  assert (service_ids cfg !! k = Some (get s "id")) as Hid
    by (unfold service_ids; by rewrite list_lookup_fmap, Hk).
  rewrite Hids, list_lookup_fmap in Hid.
  destruct (seq 0 _ !! k) as [i|]; [|done]. eexists. by injection Hid.
Qed.

(** X14.  For a document that is a tree (no recursive alias, no key twice
    in a mapping), the safe view of the configuration that
    [loadLocalConfig] returns exists, has no property named [secrets] at
    any depth, and shows the same services in the same order with the same
    identifiers as the configuration, each service as its own safe view;
    its [error] is the [error] of the configuration. *)
Theorem safe_view_of_a_loaded_configuration (env : Env) (cfg : value) :
  (∀ text doc, yaml_parse env text = inr doc → wf doc = true) →
  loadLocalConfig env = Return cfg →
  ∃ safe,
    extractSafelyConfig cfg = inr safe
    ∧ no_secrets safe = true
    ∧ config_services safe = redact <$> config_services cfg
    ∧ service_ids safe = service_ids cfg
    ∧ get safe "error" = redact <$> get cfg "error".
Proof.
  intros Hwf Hload.
  destruct (loaded_objects env cfg Hwf Hload)
    as (ps & groups & -> & Hnd & Hs & Hgroups & Hservices).
  exists (redact (JObj ps)). split_and!.
  - apply extractSafelyConfig_redact.
  - apply no_secrets_redact.
  - by eapply config_services_redact.
  - unfold service_ids. rewrite (config_services_redact _ _ Hnd Hs Hgroups).
    rewrite <- list_fmap_compose.
    apply list_eq_Forall2, Forall2_fmap, Forall_Forall2_diag.
    eapply Forall_impl;
      [exact (Forall_both _ _ _ Hservices (loaded_ids env _ Hwf Hload))|].
    intros s [(ss & -> & Hss) [id Hid]].
    unfold compose. rewrite redact_lookup by (by intros ? [= <-]).
    rewrite decide_False by done. by rewrite Hid.
  - rewrite redact_lookup by (by intros ? [= <-]). by rewrite decide_False.
Qed.

Lemma safe_view_of_a_loaded_configuration_witness :
  let doc := JObj [("services",
                    JArr [JObj [("title", JStr "Git");
                                ("secrets", JObj [("token", JStr "t")])]])] in
  let env := {| hasItem := inr true; getItem := inr (Some "services: ...");
                yaml_parse := λ _, inr doc; randomUUID := λ n, pretty n |} in
  ∃ cfg safe,
    loadLocalConfig env = Return cfg
    ∧ extractSafelyConfig cfg = inr safe
    ∧ config_services cfg
      = [JObj [("title", JStr "Git"); ("secrets", JObj [("token", JStr "t")]);
               ("id", JStr "0"); ("tags", JArr [])]]
    ∧ config_services safe
      = [JObj [("title", JStr "Git"); ("id", JStr "0"); ("tags", JArr [])]].
Proof.
  intros doc env.
  destruct (loadLocalConfig env) as [cfg|e|] eqn:E; [|by vm_compute in E..].
  assert (∀ text doc', yaml_parse env text = inr doc' → wf doc' = true) as Hwf.
  { intros text doc'. cbn. by intros [= <-]. }
  destruct (safe_view_of_a_loaded_configuration env cfg Hwf E)
    as (safe & Hsafe & _ & Hservices & _).
  exists cfg, safe. vm_compute in E. injection E as <-.
  split_and!; [done..|]. by rewrite Hservices.
Defined.
(** ** When a load raises *)

Lemma build_ZodError env config d n issues :
  build env config d n = inl (ZodError issues) →
  validateConfigSchema config = inl issues.
Proof.
  unfold build, bind.
  destruct (createTagMap _ n) as [e|[tags n1]] eqn:Etags.
  - intros [= ->].
    destruct (or_else (get config "tags") (JArr [])) as [| | | |declared|];
      try done.
    by apply createTagMap_inl in Etags as [msg [=]].
  - destruct (validateConfigSchema config) as [issues'|checked]; cbn [throw ret].
    + by intros [= ->].
    + destruct (normalizeServices env config tags n1) as [e|[groups n2]] eqn:E;
        [|done].
      intros [= ->]. by apply normalizeServices_inl in E as [msg [=]].
Qed.

(** X15.  [loadLocalConfig] raises to its caller in one situation only:
    the load failed with a [ZodError], and [ZodError.format] threw while the
    report was built, which takes an issue whose path has a step named
    [_errors] or like a member of [Object.prototype].  What is raised is the
    [TypeError] of [format].  When the storage has given the document, the
    [ZodError] is the one of [validateConfigSchema], and the document has a
    group of [services] of such a name. *)
Theorem load_raises_only_while_reporting (env : Env) (e : exn) :
  loadLocalConfig env = Raise e →
  ∃ issues msg,
    load env getDefaultConfig 0 = inl (ZodError issues)
    ∧ Zod.format issues = Some (inl msg)
    ∧ e = Error msg
    ∧ forallb plain_issue issues = false
    ∧ ∀ config, document env config →
                validateConfigSchema config = inl issues
                ∧ plain_groups config = false.
Proof.
  unfold loadLocalConfig.
  destruct (load env getDefaultConfig 0) as [[msg|issues|v]|[cfg n]] eqn:Eload;
    try done.
  rewrite recover_ZodError.
  destruct (Zod.format issues) as [[msg|report]|] eqn:E; [|done..].
  intros [= <-]. exists issues, msg.
  assert (forallb plain_issue issues = false) as Hplain.
  { destruct (forallb plain_issue issues) eqn:Ep; [|done].
    destruct (format_plain issues Ep) as (report & Hf & _). congruence. }
  split_and!; try done.
  intros config Hdoc. rewrite (load_document _ _ _ _ Hdoc) in Eload.
  apply build_ZodError in Eload. split; [done|].
  destruct (plain_groups config) eqn:Eg; [|done].
  pose proof (rejected_plain _ _ Eg Eload). congruence.
Qed.

Lemma load_raises_only_while_reporting_witness :
  let doc := JObj [("services", JObj [("constructor", JNum 5)])] in
  let env := {| hasItem := inr true; getItem := inr (Some "services: ...");
                yaml_parse := λ _, inr doc; randomUUID := λ n, pretty n |} in
  ∃ issues msg,
    validateConfigSchema doc = inl issues
    ∧ Zod.format issues = Some (inl msg)
    ∧ loadLocalConfig env = Raise (Error msg)
    ∧ plain_groups doc = false.
Proof.
  intros doc env.
  destruct (load_raises_only_while_reporting env
              (Error "Cannot read properties of undefined (reading 'push')")
              eq_refl) as (issues & msg & Hload & Hformat & [= <-] & _ & Hdoc).
  exists issues, "Cannot read properties of undefined (reading 'push')".
  destruct (Hdoc doc) as [Hval Hgroups].
  { exists (Some "services: ..."), doc. by split_and!. }
  by split_and!.
Defined.
